(** * kdb: the dialect-aware SQL expression compiler of driver.go

    A shallow embedding of [AnsiDriver.Compile], [AnsiDriver.compileText],
    [AnsiDriver.compileProcedure] and of the [StatementCompiler] visitor,
    followed by the properties of the specification that were checked
    against them.

    Conventions of the embedding:
    - a Go [string] / [[]byte] is a [string] of 8-bit [ascii] bytes;
    - a Go [int] is a [Z]; the only arithmetic the compiler does on one is
      [++] and [--], whose 64-bit wrap-around is written out ([int_incr],
      [int_decr]);
    - [interface{}] payloads are values of [GoValue];
    - a call returns [Ok query args], [Err msg] (a non-nil [error], whose
      message is kept) or [Panic msg] (the goroutine panics);
    - a nil slice and an empty slice are both the empty list. *)

From Stdlib Require Import ZArith List Ascii String Bool Lia DecimalString.
From stdpp Require Import gmap strings.
Import ListNotations.

Set Warnings "-register-all".

(* stdpp freezes [String.append] under [simpl]; the proofs below compute
   with it. *)
#[local] Arguments String.append !_ _ : simpl nomatch.

Local Open Scope list_scope.
Local Open Scope string_scope.
Local Open Scope Z_scope.

(* ===================================================================== *)
(** * Bytes, strings and integers *)
(* ===================================================================== *)

(** The Go string ["\n"]. *)
Definition LF : string := String (ascii_of_nat 10) "".

(** [strconv.Itoa] *)
Definition Itoa (z : Z) : string := NilZero.string_of_int (Z.to_int z).

(** The value of a Go [int] (64 bits) after [++] and after [--]. *)
Definition int_wrap (z : Z) : Z := (z + 2 ^ 63) mod 2 ^ 64 - 2 ^ 63.
Definition int_incr (z : Z) : Z := int_wrap (z + 1).
Definition int_decr (z : Z) : Z := int_wrap (z - 1).

(** [bytes.IndexByte]: index of the first [c] in [b], or -1. *)
Fixpoint IndexByte (b : string) (c : ascii) : Z :=
  match b with
  | EmptyString => -1
  | String a r =>
      if Ascii.eqb a c then 0
      else let i := IndexByte r c in if i <? 0 then -1 else i + 1
  end.

Fixpoint string_take (n : nat) (s : string) : string :=
  match n, s with
  | S n', String a r => String a (string_take n' r)
  | _, _ => EmptyString
  end.

Fixpoint string_drop (n : nat) (s : string) : string :=
  match n, s with
  | S n', String _ r => string_drop n' r
  | _, _ => s
  end.

(** [b[:i]] and [b[i:]] for an index [0 <= i <= len(b)]. *)
Definition slice_to (b : string) (i : Z) : string := string_take (Z.to_nat i) b.
Definition slice_from (b : string) (i : Z) : string := string_drop (Z.to_nat i) b.

Fixpoint string_rev_append (s acc : string) : string :=
  match s with
  | EmptyString => acc
  | String a r => string_rev_append r (String a acc)
  end.

Definition string_rev (s : string) : string := string_rev_append s EmptyString.

(** [strings.Repeat] *)
Fixpoint Repeat (s : string) (n : nat) : string :=
  match n with
  | O => EmptyString
  | S n' => s ++ Repeat s n'
  end.

(** ** [bytes.TrimSpace]

    White space is what [unicode.IsSpace] accepts.  On bytes these are the
    six ASCII spaces and the UTF-8 encodings of U+0085, U+00A0, U+1680,
    U+2000..U+200A, U+2028, U+2029, U+202F, U+205F and U+3000; a byte
    sequence that is not one of these encodings decodes to a rune that is
    not a space. *)

Definition asciiSpace (a : ascii) : bool :=
  let n := nat_of_ascii a in
  (Nat.eqb n 9 || Nat.eqb n 10 || Nat.eqb n 11 || Nat.eqb n 12 || Nat.eqb n 13
   || Nat.eqb n 32)%bool.

Definition space2 (a b : ascii) : bool :=
  let x := nat_of_ascii a in
  let y := nat_of_ascii b in
  (Nat.eqb x 194 && (Nat.eqb y 133 || Nat.eqb y 160))%bool.

Definition space3 (a b c : ascii) : bool :=
  let x := nat_of_ascii a in
  let y := nat_of_ascii b in
  let z := nat_of_ascii c in
  ((Nat.eqb x 225 && Nat.eqb y 154 && Nat.eqb z 128)
   || (Nat.eqb x 226 && Nat.eqb y 128
       && ((Nat.leb 128 z && Nat.leb z 138) || Nat.eqb z 168 || Nat.eqb z 169
           || Nat.eqb z 175))
   || (Nat.eqb x 226 && Nat.eqb y 129 && Nat.eqb z 159)
   || (Nat.eqb x 227 && Nat.eqb y 128 && Nat.eqb z 128))%bool.

(** Leading spaces are dropped rune by rune. *)
Fixpoint TrimLeftSpace (s : string) : string :=
  match s with
  | EmptyString => s
  | String a r =>
      if asciiSpace a then TrimLeftSpace r
      else match r with
           | EmptyString => s
           | String b r2 =>
               if space2 a b then TrimLeftSpace r2
               else match r2 with
                    | EmptyString => s
                    | String c r3 => if space3 a b c then TrimLeftSpace r3 else s
                    end
           end
  end.

(** The same from the end, on the reversed bytes: the last byte comes
    first, so the encodings are read backwards. *)
Fixpoint TrimLeftSpace_rev (s : string) : string :=
  match s with
  | EmptyString => s
  | String a r =>
      if asciiSpace a then TrimLeftSpace_rev r
      else match r with
           | EmptyString => s
           | String b r2 =>
               if space2 b a then TrimLeftSpace_rev r2
               else match r2 with
                    | EmptyString => s
                    | String c r3 =>
                        if space3 c b a then TrimLeftSpace_rev r3 else s
                    end
           end
  end.

Definition TrimRightSpace (s : string) : string :=
  string_rev (TrimLeftSpace_rev (string_rev s)).

Definition TrimSpace (s : string) : string := TrimRightSpace (TrimLeftSpace s).

(* ===================================================================== *)
(** * Values, parameters and dialects *)
(* ===================================================================== *)

(** A floating-point number is carried by the text that
    [strconv.FormatFloat(x, 'g', -1, bits)] prints for it, which is all the
    compiler does with one. *)
Record GoFloat : Type := mkFloat { float_text : string }.

(** The dynamic values an [interface{}] payload can hold, as far as the
    type switch of [visitSlice] tells them apart. *)
Inductive GoValue : Type :=
| GNil                                   (* the nil interface *)
| GBool (b : bool)
| GInt (z : Z)
| GInt64 (z : Z)
| GFloat32 (f : GoFloat)
| GFloat64 (f : GoFloat)
| GString (s : string)
| GIntSlice (l : list Z)                 (* []int *)
| GInt64Slice (l : list Z)               (* []int64 *)
| GFloat32Slice (l : list GoFloat)       (* []float32 *)
| GFloat64Slice (l : list GoFloat)       (* []float64 *)
| GStringSlice (l : list string)         (* []string *)
| GIfaceSlice (l : list GoValue)         (* []interface{} *)
| GSeq (l : list GoValue)                (* any other slice or array, its
                                            elements boxed as reflection
                                            returns them *)
| GPtr (target : option GoValue).        (* a pointer, nil when [None] *)

(** ansi.Dir *)
Inductive Dir : Type := DirIn | DirOut | DirInOut | DirReturn.

Definition Dir_eqb (a b : Dir) : bool :=
  match a, b with
  | DirIn, DirIn | DirOut, DirOut | DirInOut, DirInOut
  | DirReturn, DirReturn => true
  | _, _ => false
  end.

(** [Parameter] (the name is reserved in Rocq); the fields of a struct [T]
    are named [T_Field] throughout. *)
Record Parameter_ : Type := mkParameter {
  Parameter_Name : string;
  Parameter_Dir : Dir;
  Parameter_Value : GoValue
}.

(** Modelled from the spec: [Parameter.IsOut], declared outside driver.go;
    an output parameter is one of direction Out or InOut. *)
Definition IsOut (p : Parameter_) : bool :=
  (Dir_eqb (Parameter_Dir p) DirOut || Dir_eqb (Parameter_Dir p) DirInOut)%bool.

(** The part of the [Dialecter] interface the compilers call. *)
Record Dialecter : Type := mkDialecter {
  SupportNamedParameter : bool;
  SupportIndexedParameter : bool;
  ParameterPlaceHolder : string;
  Quote : string -> string
}.

Definition AnsiDialecter : Dialecter :=
  {| SupportNamedParameter := false;
     SupportIndexedParameter := false;
     ParameterPlaceHolder := " ? ";
     Quote := fun s => "'" ++ s ++ "'" |}.

(** [MysqlDialecter] embeds [AnsiDialecter] and overrides the schema
    queries only. *)
Definition MysqlDialecter : Dialecter := AnsiDialecter.

(** [PostgreSQLDialecter] embeds [AnsiDialecter] and overrides two methods. *)
Definition PostgreSQLDialecter : Dialecter :=
  {| SupportNamedParameter := SupportNamedParameter AnsiDialecter;
     SupportIndexedParameter := true;
     ParameterPlaceHolder := "$";
     Quote := Quote AnsiDialecter |}.

Record AnsiDriver : Type := mkAnsiDriver { Dialecter_ : Dialecter }.

Definition NewAnsiDriver (d : Dialecter) : AnsiDriver := mkAnsiDriver d.

(** What a compile call does. *)
Inductive Result : Type :=
| Ok (query : string) (args : list GoValue)
| Err (msg : string)
| Panic (msg : string).

(** The placeholder mode both compilers derive from the dialect. *)
Definition mode_of (d : Dialecter) : Z :=
  if SupportNamedParameter d then 1
  else if SupportIndexedParameter d then 2
  else 0.

(* ===================================================================== *)
(** * The template text compiler *)
(* ===================================================================== *)

(** Modelled from the spec: the [Text] node, declared outside driver.go:
    a raw SQL string and a name -> Parameter map. *)
Record Text : Type := mkText {
  Text_Sql : string;
  Text_Parameters : gmap string Parameter_
}.

(** Modelled from the spec: [Text.FindParameter], declared outside
    driver.go: the lookup of a name in the parameter map. *)
Definition FindParameter (t : Text) (name : string) : option Parameter_ :=
  Text_Parameters t !! name.

Definition ErrTextEmpty : string := "text is nil or sql of text is empty".
Definition ErrMalformedTemplate : string := "text sql format is invalid".
Definition ErrUnknownParameter (name : string) : string :=
  "text can not find parameter:" ++ name.

(** The local variables of the scanning loop of [compileText]. *)
Record Scan : Type := mkScan {
  scan_b : string;
  scan_buffer : string;
  scan_state : Z;
  scan_paraIndex : Z;
  scan_paramters : list GoValue
}.

(** One turn of the [for] loop: [inl] is the state at the next turn,
    [inr] leaves the loop, by [break] ([inr None]) or by [return] with an
    error. *)
Definition compileText_step (text : Text) (placeHolder : string) (mode : Z)
    (s : Scan) : Scan + option string :=
  if scan_state s =? 0 then
    let index := IndexByte (scan_b s) "{" in
    if index >=? 0 then
      inl {| scan_b := slice_from (scan_b s) (index + 1);
             scan_buffer := scan_buffer s ++ slice_to (scan_b s) index;
             scan_state := 1;
             scan_paraIndex := scan_paraIndex s;
             scan_paramters := scan_paramters s |}
    else inr None
  else
    let index := IndexByte (scan_b s) "}" in
    if index >? 0 then
      let name := TrimSpace (slice_to (scan_b s) index) in
      match FindParameter text name with
      | None => inr (Some (ErrUnknownParameter name))
      | Some p =>
          let buffer := scan_buffer s ++ placeHolder in
          let b := slice_from (scan_b s) (index + 1) in
          match mode with
          | 0 => inl {| scan_b := b; scan_buffer := buffer; scan_state := 0;
                        scan_paraIndex := scan_paraIndex s;
                        scan_paramters := (scan_paramters s ++ [Parameter_Value p])%list |}
          | 1 => inl {| scan_b := b; scan_buffer := buffer ++ name;
                        scan_state := 0;
                        scan_paraIndex := scan_paraIndex s;
                        scan_paramters := (scan_paramters s ++ [Parameter_Value p])%list |}
          | 2 => inl {| scan_b := b;
                        scan_buffer := buffer ++ Itoa (scan_paraIndex s);
                        scan_state := 0;
                        scan_paraIndex := int_incr (scan_paraIndex s);
                        scan_paramters := (scan_paramters s ++ [Parameter_Value p])%list |}
          | _ => inl {| scan_b := b; scan_buffer := buffer; scan_state := 0;
                        scan_paraIndex := scan_paraIndex s;
                        scan_paramters := scan_paramters s |}
          end
      end
    else inr (Some ErrMalformedTemplate).

(** The loop, for at most [fuel] turns; [None] when they do not suffice.
    After the loop the rest of [b] is written to the buffer. *)
Fixpoint compileText_loop (fuel : nat) (text : Text) (placeHolder : string)
    (mode : Z) (s : Scan) : option Result :=
  match fuel with
  | O => None
  | S fuel' =>
      match compileText_step text placeHolder mode s with
      | inl s' => compileText_loop fuel' text placeHolder mode s'
      | inr (Some e) => Some (Err e)
      | inr None =>
          Some (Ok (scan_buffer s ++ scan_b s) (scan_paramters s))
      end
  end.

(** Every turn but the last removes a byte of [b], so [len(Sql) + 1] turns
    are enough ([compileText_loop_total] below); the default is never
    taken. *)
Definition compileText (c : AnsiDriver) (text : option Text) (source : string)
    : Result :=
  match text with
  | None => Err ErrTextEmpty
  | Some text =>
      if String.eqb (Text_Sql text) "" then Err ErrTextEmpty
      else if Nat.eqb (size (Text_Parameters text)) 0 then Ok (Text_Sql text) []
      else
        let placeHolder := ParameterPlaceHolder (Dialecter_ c) in
        let mode := mode_of (Dialecter_ c) in
        match compileText_loop (S (String.length (Text_Sql text))) text placeHolder
                mode
                {| scan_b := Text_Sql text; scan_buffer := ""; scan_state := 0;
                   scan_paraIndex := 1; scan_paramters := [] |} with
        | Some r => r
        | None => Panic "unreachable"
        end
  end.

(** ** Templates made of resolved placeholders (specification side)

    A template is read as a list of segments, a literal followed by a
    braced name, and a tail. *)

Fixpoint contains_byte (c : ascii) (s : string) : bool :=
  match s with
  | EmptyString => false
  | String a r => (Ascii.eqb a c || contains_byte c r)%bool
  end.

Fixpoint template (segs : list (string * string)) (tail : string) : string :=
  match segs with
  | [] => tail
  | (lit, raw) :: r => lit ++ "{" ++ raw ++ "}" ++ template r tail
  end.

(** The placeholder of the parameter called [name], the [k]-th of the
    statement. *)
Definition placeholder_text (d : Dialecter) (name : string) (k : Z) : string :=
  ParameterPlaceHolder d ++
  (if SupportNamedParameter d then name
   else if SupportIndexedParameter d then Itoa k
   else "").

Fixpoint render (d : Dialecter) (segs : list (string * string)) (k : Z)
    (tail : string) : string :=
  match segs with
  | [] => tail
  | (lit, raw) :: r =>
      lit ++ placeholder_text d (TrimSpace raw) k ++ render d r (k + 1) tail
  end.

Definition segment_ok (m : gmap string Parameter_) (seg : string * string)
    : Prop :=
  contains_byte "{" (fst seg) = false /\
  contains_byte "}" (snd seg) = false /\
  snd seg <> "" /\
  is_Some (m !! TrimSpace (snd seg)).

Definition segment_values (m : gmap string Parameter_)
    (segs : list (string * string)) : list GoValue :=
  flat_map (fun seg => match m !! TrimSpace (snd seg) with
                       | Some p => [Parameter_Value p]
                       | None => []
                       end) segs.


(** The counter after a placeholder: it moves in indexed mode only. *)
Definition next_index (d : Dialecter) (k : Z) : Z :=
  if SupportNamedParameter d then k
  else if SupportIndexedParameter d then int_incr k
  else k.

(** The text and the counter the loop has produced after the segments
    [segs], with the counter's wrap-around. *)
Fixpoint scanned_text (d : Dialecter) (segs : list (string * string)) (k : Z)
    : string :=
  match segs with
  | [] => ""
  | (lit, raw) :: r =>
      lit ++ placeholder_text d (TrimSpace raw) k
          ++ scanned_text d r (next_index d k)
  end.

Fixpoint scanned_index (d : Dialecter) (segs : list (string * string)) (k : Z)
    : Z :=
  match segs with
  | [] => k
  | _ :: r => scanned_index d r (next_index d k)
  end.

(* ===================================================================== *)
(** * The statement writer and the keywords *)
(* ===================================================================== *)

(** Modelled from the spec: the keyword constants of package ansi, which is
    not part of driver.go. *)
Module ansi.
Definition Null : string := "NULL".
Definition As : string := "AS".
Definition On : string := "ON".
Definition Select : string := "SELECT".
Definition Distinct : string := "DISTINCT".
Definition From : string := "FROM".
Definition Where : string := "WHERE".
Definition GroupBy : string := "GROUP BY".
Definition Having : string := "HAVING".
Definition OrderBy : string := "ORDER BY".
Definition Limit : string := "LIMIT".
Definition InsertInto : string := "INSERT INTO".
Definition Values : string := "VALUES".
Definition Update : string := "UPDATE".
Definition Set_ : string := "SET".
Definition Delete : string := "DELETE".
Definition Equals : string := "=".
Definition WildcardAll : string := "*".
Definition StatementSplit : string := ";".
Definition Blank : string := " ".
Definition Comma : string := ",".
Definition LineBreak : string := LF.
Definition OpenParentheses : string := "(".
Definition CloseParentheses : string := ")".
End ansi.

(** Modelled from the spec: [sqlWriter], declared outside driver.go: an
    append-only text accumulator with helpers for punctuation and white
    space.  [Print] writes its operands one after the other (they are all
    strings at every call of driver.go) and [PrintSplit] writes them
    separated by its first argument. *)
Module sqlWriter.
Definition t : Type := string.
Definition empty : t := "".
Definition WriteString (w : t) (s : string) : t := w ++ s.
Definition Print (w : t) (l : list string) : t := w ++ String.concat "" l.
Definition PrintSplit (w : t) (split : string) (l : list string) : t :=
  w ++ String.concat split l.
Definition Comma (w : t) : t := w ++ ansi.Comma.
Definition Blank (w : t) : t := w ++ ansi.Blank.
Definition LineBreak (w : t) : t := w ++ ansi.LineBreak.
Definition OpenParentheses (w : t) : t := w ++ ansi.OpenParentheses.
Definition CloseParentheses (w : t) : t := w ++ ansi.CloseParentheses.
Definition String_ (w : t) : string := w.
End sqlWriter.

(* ===================================================================== *)
(** * The procedure call compiler *)
(* ===================================================================== *)

(** Modelled from the spec: the [Procedure] node, declared outside
    driver.go: a name and an ordered list of parameters. *)
Record Procedure : Type := mkProcedure {
  Procedure_Name : string;
  Procedure_Parameters : list Parameter_
}.

(** Modelled from the spec: [Procedure.ReturnParameterName], declared
    outside driver.go: the name of the parameter of direction Return, the
    empty string when there is none. *)
Fixpoint ReturnParameterName_of (l : list Parameter_) : string :=
  match l with
  | [] => ""
  | p :: r =>
      if Dir_eqb (Parameter_Dir p) DirReturn then Parameter_Name p
      else ReturnParameterName_of r
  end.

Definition ReturnParameterName (sp : Procedure) : string :=
  ReturnParameterName_of (Procedure_Parameters sp).

Definition ErrProcedureEmpty : string :=
  "procedure is nil or name of procedure is empty".

(** The first loop: a [SET] statement for every InOut parameter. *)
Fixpoint procedure_inout (l : list Parameter_) (buffer : sqlWriter.t)
    (paramters : list GoValue) : sqlWriter.t * list GoValue :=
  match l with
  | [] => (buffer, paramters)
  | p :: r =>
      if Dir_eqb (Parameter_Dir p) DirInOut then
        procedure_inout r
          (sqlWriter.Print buffer
             ["SET @"; Parameter_Name p; " = ?; " ++ LF])
          (paramters ++ [Parameter_Value p])%list
      else procedure_inout r buffer paramters
  end.

(** The second loop: the arguments of the call; [i] is the index of the
    head of [l]. *)
Fixpoint procedure_arguments (i : nat) (l : list Parameter_)
    (buffer : sqlWriter.t) (paramters : list GoValue) (hasOut : bool)
    : sqlWriter.t * list GoValue * bool :=
  match l with
  | [] => (buffer, paramters, hasOut)
  | p :: r =>
      let buffer :=
        if (0 <? i)%nat then sqlWriter.WriteString buffer ", " else buffer in
      if Dir_eqb (Parameter_Dir p) DirIn then
        procedure_arguments (S i) r (sqlWriter.WriteString buffer "?")
          (paramters ++ [Parameter_Value p])%list hasOut
      else if Dir_eqb (Parameter_Dir p) DirInOut then
        procedure_arguments (S i) r
          (sqlWriter.Print buffer ["@"; Parameter_Name p]) paramters true
      else if Dir_eqb (Parameter_Dir p) DirOut then
        procedure_arguments (S i) r
          (sqlWriter.Print buffer ["@"; Parameter_Name p]) paramters true
      else procedure_arguments (S i) r buffer paramters hasOut
  end.

(** The third loop: the variables of the trailing [SELECT]. *)
Fixpoint procedure_outputs (l : list Parameter_) (buffer : sqlWriter.t)
    (delimit : bool) : sqlWriter.t :=
  match l with
  | [] => buffer
  | p :: r =>
      if (IsOut p || Dir_eqb (Parameter_Dir p) DirReturn)%bool then
        let buffer :=
          if delimit then sqlWriter.WriteString buffer ", " else buffer in
        procedure_outputs r (sqlWriter.Print buffer ["@"; Parameter_Name p])
          true
      else procedure_outputs r buffer delimit
  end.

Definition compileProcedure (c : AnsiDriver) (sp : option Procedure)
    (source : string) : Result :=
  match sp with
  | None => Err ErrProcedureEmpty
  | Some sp =>
      if String.eqb (Procedure_Name sp) "" then Err ErrProcedureEmpty
      else
        let l := Procedure_Parameters sp in
        let returnName := ReturnParameterName sp in
        let '(buffer, paramters) := procedure_inout l sqlWriter.empty [] in
        let buffer :=
          if String.eqb returnName "" then sqlWriter.WriteString buffer "CALL "
          else sqlWriter.WriteString buffer ("SET @" ++ returnName) in
        let buffer := sqlWriter.WriteString buffer (Procedure_Name sp) in
        let buffer := sqlWriter.WriteString buffer " ( " in
        let '(buffer, paramters, hasOut) :=
          procedure_arguments 0 l buffer paramters false in
        let buffer := sqlWriter.WriteString buffer " );" in
        let buffer :=
          if (hasOut || negb (String.eqb returnName ""))%bool then
            let buffer :=
              sqlWriter.WriteString buffer (LF ++ "SELECT ") in
            let buffer := procedure_outputs l buffer false in
            sqlWriter.WriteString buffer "; "
          else buffer in
        Ok (sqlWriter.String_ buffer) paramters
  end.

(* ===================================================================== *)
(** * The expression tree *)
(* ===================================================================== *)

(** Modelled from the spec: the node types, which are declared outside
    driver.go; they are given here with the fields that driver.go reads.
    A field the compiler tests against nil is an [option]; an interface
    value that holds a nil pointer is not modelled. *)

Inductive NodeType : Type :=
| NodeZero | NodeQuery | NodeInsert | NodeUpdate | NodeDelete | NodeText
| NodeProcedure | NodeTable | NodeColumn | NodeValue | NodeParameter
| NodeOutput | NodeCondition | NodeConditions | NodeAggregate | NodeSelect
| NodeFrom | NodeJoin | NodeWhere | NodeGroupBy | NodeHaving | NodeOrderBy
| NodeField | NodeNull | NodeSql | NodeOperator.

(** Modelled from the spec: [NodeType.String], the name of the kind. *)
Definition NodeType_String (n : NodeType) : string :=
  match n with
  | NodeZero => "Zero" | NodeQuery => "Query" | NodeInsert => "Insert"
  | NodeUpdate => "Update" | NodeDelete => "Delete" | NodeText => "Text"
  | NodeProcedure => "Procedure" | NodeTable => "Table"
  | NodeColumn => "Column" | NodeValue => "Value"
  | NodeParameter => "Parameter" | NodeOutput => "Output"
  | NodeCondition => "Condition" | NodeConditions => "Conditions"
  | NodeAggregate => "Aggregate" | NodeSelect => "Select"
  | NodeFrom => "From" | NodeJoin => "Join" | NodeWhere => "Where"
  | NodeGroupBy => "GroupBy" | NodeHaving => "Having"
  | NodeOrderBy => "OrderBy" | NodeField => "Field" | NodeNull => "Null"
  | NodeSql => "Sql" | NodeOperator => "Operator"
  end.

(** An operator is the text its [String] method returns. *)
Record Operator : Type := mkOperator { Operator_String : string }.

Definition Operator_eqb (a b : Operator) : bool :=
  String.eqb (Operator_String a) (Operator_String b).

(** Modelled from the spec: the operators the compiler names. *)
Module Op.
Definition In : Operator := mkOperator "IN".
Definition NotIn : Operator := mkOperator "NOT IN".
Definition OpenParentheses : Operator := mkOperator "(".
Definition CloseParentheses : Operator := mkOperator ")".
End Op.

(** Modelled from the spec: the sort direction of an order-by field. *)
Inductive Direction : Type := Asc | Desc.

Definition Direction_String (d : Direction) : string :=
  match d with Asc => "ASC" | Desc => "DESC" end.

Record Table : Type := mkTable { Table_Name : string; Table_Alias : string }.

(** A column is the text its [String] method returns. *)
Record Column : Type := mkColumn { Column_String : string }.

Record Value : Type := mkValue { Value_Value : GoValue }.

Section Nodes.
(** The type of expressions, which the nodes below contain. *)
Variable E : Type.

Record Condition : Type := mkCondition {
  Condition_Left : E;
  Condition_Op : Operator;
  Condition_Right : E
}.

Record Conditions : Type := mkConditions { Conditions_Conditions : list E }.

(** [Aggregate.Name] is a string type; its [String] is the name. *)
Record Aggregate : Type := mkAggregate {
  Aggregate_Name : string;
  Aggregate_Exp : E
}.

Record Field : Type := mkField { Field_Exp : E; Field_Alias : string }.

Record Select : Type := mkSelect { Select_Fields : list (option Field) }.

(** [Join.JoinType] is the text its [String] method returns. *)
Record Join : Type := mkJoin {
  Join_JoinType : string;
  Join_Right : option Table;
  Join_Conditions : option Conditions
}.

Record From : Type := mkFrom {
  From_Table : option Table;
  From_Tables : list (option Table);
  From_Joins : list (option Join)
}.

Record Where : Type := mkWhere { Where_Conditions : option Conditions }.

Record GroupBy : Type := mkGroupBy { GroupBy_Fields : list E }.

Record Having : Type := mkHaving { Having_Conditions : option Conditions }.

Record OrderByField : Type := mkOrderByField {
  OrderByField_Exp : E;
  OrderByField_Direction : Direction
}.

Record OrderBy : Type := mkOrderBy { OrderBy_Fields : list OrderByField }.

(** An element of [Sets] (the Go type is called Set). *)
Record SetItem : Type := mkSetItem { Set_Column : Column; Set_Value : E }.

Record Query : Type := mkQuery {
  Query_IsDistinct : bool;
  Query_Select : option Select;
  Query_From : option From;
  Query_Where : option Where;
  Query_GroupBy : option GroupBy;
  Query_Having : option Having;
  Query_OrderBy : option OrderBy;
  Query_Offset : Z;
  Query_Count : Z
}.

Record Insert : Type := mkInsert {
  Insert_Table : Table;
  Insert_Sets : list SetItem
}.

Record Update : Type := mkUpdate {
  Update_Table : Table;
  Update_Sets : list SetItem;
  Update_Where : option Where;
  Update_OrderBy : option OrderBy;
  Update_Count : Z
}.

Record Delete : Type := mkDelete {
  Delete_Table : Table;
  Delete_Where : option Where;
  Delete_OrderBy : option OrderBy;
  Delete_Count : Z
}.

(** Modelled from the spec: [Conditions.isEmpty] and [Where.isEmpty],
    declared outside driver.go: no condition sequence, or an empty one. *)
Definition Conditions_isEmpty (c : option Conditions) : bool :=
  match c with
  | None => true
  | Some c => match Conditions_Conditions c with [] => true | _ => false end
  end.

Definition Where_isEmpty (w : Where) : bool :=
  Conditions_isEmpty (Where_Conditions w).
End Nodes.

Arguments mkCondition {E}. Arguments Condition_Left {E}.
Arguments Condition_Op {E}. Arguments Condition_Right {E}.
Arguments mkConditions {E}. Arguments Conditions_Conditions {E}.
Arguments mkAggregate {E}. Arguments Aggregate_Name {E}.
Arguments Aggregate_Exp {E}.
Arguments mkField {E}. Arguments Field_Exp {E}. Arguments Field_Alias {E}.
Arguments mkSelect {E}. Arguments Select_Fields {E}.
Arguments mkJoin {E}. Arguments Join_JoinType {E}. Arguments Join_Right {E}.
Arguments Join_Conditions {E}.
Arguments mkFrom {E}. Arguments From_Table {E}. Arguments From_Tables {E}.
Arguments From_Joins {E}.
Arguments mkWhere {E}. Arguments Where_Conditions {E}.
Arguments mkGroupBy {E}. Arguments GroupBy_Fields {E}.
Arguments mkHaving {E}. Arguments Having_Conditions {E}.
Arguments mkOrderByField {E}. Arguments OrderByField_Exp {E}.
Arguments OrderByField_Direction {E}.
Arguments mkOrderBy {E}. Arguments OrderBy_Fields {E}.
Arguments mkSetItem {E}. Arguments Set_Column {E}. Arguments Set_Value {E}.
Arguments mkQuery {E}. Arguments Query_IsDistinct {E}.
Arguments Query_Select {E}. Arguments Query_From {E}.
Arguments Query_Where {E}. Arguments Query_GroupBy {E}.
Arguments Query_Having {E}. Arguments Query_OrderBy {E}.
Arguments Query_Offset {E}. Arguments Query_Count {E}.
Arguments mkInsert {E}. Arguments Insert_Table {E}. Arguments Insert_Sets {E}.
Arguments mkUpdate {E}. Arguments Update_Table {E}. Arguments Update_Sets {E}.
Arguments Update_Where {E}. Arguments Update_OrderBy {E}.
Arguments Update_Count {E}.
Arguments mkDelete {E}. Arguments Delete_Table {E}.
Arguments Delete_Where {E}. Arguments Delete_OrderBy {E}.
Arguments Delete_Count {E}.
Arguments Conditions_isEmpty {E}. Arguments Where_isEmpty {E}.

(** The [Expression] interface: one constructor for each kind of node, and
    [ENil] for the nil interface. *)
Inductive Expression : Type :=
| ENil
| EZero
| EText (t : Text)
| EProcedure (p : Procedure)
| EParameter (p : Parameter_)
| EOutput
| ENull
| ESql (s : string)
| EOperator (op : Operator)
| EQuery (q : Query Expression)
| EInsert (i : Insert Expression)
| EUpdate (u : Update Expression)
| EDelete (d : Delete Expression)
| EValue (v : Value)
| ETable (t : Table)
| EColumn (c : Column)
| ECondition (c : Condition Expression)
| EConditions (c : Conditions Expression)
| EAggregate (a : Aggregate Expression)
| ESelect (s : Select Expression)
| EFrom (f : From Expression)
| EJoin (j : Join Expression)
| EWhere (w : Where Expression)
| EGroupBy (g : GroupBy Expression)
| EHaving (h : Having Expression)
| EOrderBy (o : OrderBy Expression)
| EField (f : Field Expression).

(** [Expression.Node] *)
Definition Node (exp : Expression) : option NodeType :=
  match exp with
  | ENil => None
  | EZero => Some NodeZero
  | EText _ => Some NodeText
  | EProcedure _ => Some NodeProcedure
  | EParameter _ => Some NodeParameter
  | EOutput => Some NodeOutput
  | ENull => Some NodeNull
  | ESql _ => Some NodeSql
  | EOperator _ => Some NodeOperator
  | EQuery _ => Some NodeQuery
  | EInsert _ => Some NodeInsert
  | EUpdate _ => Some NodeUpdate
  | EDelete _ => Some NodeDelete
  | EValue _ => Some NodeValue
  | ETable _ => Some NodeTable
  | EColumn _ => Some NodeColumn
  | ECondition _ => Some NodeCondition
  | EConditions _ => Some NodeConditions
  | EAggregate _ => Some NodeAggregate
  | ESelect _ => Some NodeSelect
  | EFrom _ => Some NodeFrom
  | EJoin _ => Some NodeJoin
  | EWhere _ => Some NodeWhere
  | EGroupBy _ => Some NodeGroupBy
  | EHaving _ => Some NodeHaving
  | EOrderBy _ => Some NodeOrderBy
  | EField _ => Some NodeField
  end.

(** Modelled from the spec: the markers a condition sequence is compared
    with, which are declared outside driver.go. *)
Definition OpenParentheses : Expression := EOperator Op.OpenParentheses.
Definition CloseParentheses : Expression := EOperator Op.CloseParentheses.

Definition is_marker (m : Operator) (item : Expression) : bool :=
  match item with
  | EOperator op => Operator_eqb op m
  | _ => false
  end.

(* ===================================================================== *)
(** * The statement compiler *)
(* ===================================================================== *)

Definition _defaultCapicity : Z := 8.

(** The fields of [StatementCompiler] that a visit reads or writes ([exp]
    is never used and [source] is only stored).  [sc_w] is the text of the
    writer [w]: the record describes a compiler whose writer is set, as it
    is from the third statement of [Compile] on, and has no value for the
    nil writer. *)
Record StatementCompiler : Type := mkStatementCompiler {
  sc_Dialecter : Dialecter;
  sc_source : string;
  sc_w : sqlWriter.t;
  sc_args : list GoValue;
  sc_paraIndex : Z;
  sc_placeHolder : string
}.

(** [NewStatementCompiler] sets the dialect and an empty argument list; in
    Go the writer of the compiler it returns is nil, and a visit method
    called on it before [Compile] has set the writer panics.  The record
    has no nil writer, so the compiler is given here with the text of an
    empty writer; it is only used as the argument of
    [StatementCompiler_Compile], which replaces the writer, and no visit
    is started from it. *)
Definition NewStatementCompiler (dialecter : Dialecter) : StatementCompiler :=
  {| sc_Dialecter := dialecter; sc_source := ""; sc_w := sqlWriter.empty;
     sc_args := []; sc_paraIndex := 0; sc_placeHolder := "" |}.

(** A visit method updates the compiler in place, or panics. *)
Inductive Outcome : Type :=
| Done (sc : StatementCompiler)
| Panicked (msg : string).

Definition Visit : Type := StatementCompiler -> Outcome.

Definition skip : Visit := Done.

Definition panic (msg : string) : Visit := fun _ => Panicked msg.

Definition andThen (a b : Visit) : Visit :=
  fun sc => match a sc with
            | Done sc' => b sc'
            | Panicked msg => Panicked msg
            end.

Declare Scope visit_scope.
Delimit Scope visit_scope with visit.
Bind Scope visit_scope with Visit.
Notation "a ;; b" := (andThen a b)
  (at level 100, b at level 200, right associativity) : visit_scope.
Local Open Scope visit_scope.

(** [sc.w.m(...)] for a method [m] of the writer. *)
Definition onWriter (f : sqlWriter.t -> sqlWriter.t) : Visit :=
  fun sc =>
    Done {| sc_Dialecter := sc_Dialecter sc; sc_source := sc_source sc;
            sc_w := f (sc_w sc); sc_args := sc_args sc;
            sc_paraIndex := sc_paraIndex sc;
            sc_placeHolder := sc_placeHolder sc |}.

Definition WriteString (s : string) : Visit :=
  onWriter (fun w => sqlWriter.WriteString w s).
Definition Print (l : list string) : Visit :=
  onWriter (fun w => sqlWriter.Print w l).
Definition PrintSplit (split : string) (l : list string) : Visit :=
  onWriter (fun w => sqlWriter.PrintSplit w split l).
Definition Comma : Visit := onWriter sqlWriter.Comma.
Definition Blank : Visit := onWriter sqlWriter.Blank.
Definition LineBreak : Visit := onWriter sqlWriter.LineBreak.
Definition OpenParens : Visit := onWriter sqlWriter.OpenParentheses.
Definition CloseParens : Visit := onWriter sqlWriter.CloseParentheses.

Definition when (b : bool) (v : Visit) : Visit := if b then v else skip.

(** [for i := 0; i < len(l); i++ { body }], from index [i] on. *)
Section Loops.
Context {A : Type} (body : nat -> A -> Visit).

Fixpoint for_each (i : nat) (l : list A) : Visit :=
  match l with
  | [] => skip
  | x :: r => body i x ;; for_each (S i) r
  end.
End Loops.

Definition writeQuote (s : string) : Visit :=
  fun sc => WriteString (Quote (sc_Dialecter sc) s) sc.

Definition writeValue (v : GoValue) : Visit :=
  match v with
  | GNil => WriteString ansi.Null
  | _ =>
      fun sc =>
        let mode := mode_of (sc_Dialecter sc) in
        let p := sc_placeHolder sc in
        (* the writer and the counter after [switch mode] *)
        let '(w, paraIndex) :=
          match mode with
          | 0 => (sqlWriter.WriteString (sc_w sc) p, sc_paraIndex sc)
          | 1 =>
              let paraIndex := int_incr (sc_paraIndex sc) in
              (sqlWriter.WriteString (sc_w sc) (p ++ Itoa paraIndex), paraIndex)
          | 2 =>
              let paraIndex := int_incr (sc_paraIndex sc) in
              (sqlWriter.WriteString (sc_w sc) (p ++ Itoa paraIndex), paraIndex)
          | _ => (sc_w sc, sc_paraIndex sc)
          end in
        Done {| sc_Dialecter := sc_Dialecter sc; sc_source := sc_source sc;
                sc_w := w; sc_args := (sc_args sc ++ [v])%list;
                sc_paraIndex := paraIndex;
                sc_placeHolder := sc_placeHolder sc |}
  end.

Definition visitValue (v : option Value) : Visit :=
  match v with
  | None => WriteString ansi.Null
  | Some v =>
      match Value_Value v with
      | GNil => WriteString ansi.Null
      | x => writeValue x
      end
  end.

Definition visitColumn (c : Column) : Visit := WriteString (Column_String c).

Definition visitTable (t : option Table) : Visit :=
  match t with
  | None => skip
  | Some t =>
      let name := Table_Name t in
      let alias := Table_Alias t in
      if (String.eqb name "" && String.eqb alias "")%bool then skip
      else if (negb (String.eqb name "") && negb (String.eqb alias ""))%bool
      then Print [name; " "; ansi.As; " "; alias]
      else if String.eqb alias "" then WriteString name
      else if String.eqb name "" then WriteString alias
      else skip
  end.

(** [reflect.Indirect(reflect.ValueOf(v))]: the target of a non-nil
    pointer, the invalid value ([GNil]) for a nil pointer, [v] otherwise. *)
Definition reflect_Indirect (v : GoValue) : GoValue :=
  match v with
  | GPtr (Some x) => x
  | GPtr None => GNil
  | _ => v
  end.

(** The elements [rv.Index(i).Interface()] of a value whose kind is Slice
    or Array; [None] for any other kind. *)
Definition reflect_elements (rv : GoValue) : option (list GoValue) :=
  match rv with
  | GIntSlice l => Some (map GInt l)
  | GInt64Slice l => Some (map GInt64 l)
  | GFloat32Slice l => Some (map GFloat32 l)
  | GFloat64Slice l => Some (map GFloat64 l)
  | GStringSlice l => Some (map GString l)
  | GIfaceSlice l => Some l
  | GSeq l => Some l
  | _ => None
  end.

(** The body every loop of [visitSlice] shares: a comma before all
    elements but the first. *)
Definition slice_loop {A : Type} (emit : A -> Visit) (l : list A) : Visit :=
  for_each (fun i x => when (0 <? i)%nat Comma ;; emit x) 0%nat l.

Definition visitSlice (v : GoValue) : Visit :=
  match v with
  | GIntSlice l => slice_loop (fun x => WriteString (Itoa x)) l
  | GInt64Slice l => slice_loop (fun x => WriteString (Itoa x)) l
  | GFloat32Slice l => slice_loop (fun x => WriteString (float_text x)) l
  | GFloat64Slice l => slice_loop (fun x => WriteString (float_text x)) l
  | GStringSlice l => slice_loop (fun x => writeValue (GString x)) l
  | GIfaceSlice l => slice_loop writeValue l
  | _ =>
      match reflect_elements (reflect_Indirect v) with
      | Some l => slice_loop writeValue l
      | None => writeValue v
      end
  end.

(** [RawSqler.ToSql] of the three kinds that write themselves.
    Modelled from the spec: these kinds expose a direct string form. *)
Definition ToSql (exp : Expression) : string :=
  match exp with
  | ENull => ansi.Null
  | ESql s => s
  | EOperator op => Operator_String op
  | _ => ""
  end.

Definition is_nil (exp : Expression) : bool :=
  match exp with ENil => true | _ => false end.

(** The visit methods call one another through [visitExp]; they are given
    first, for any [visitExp], and the recursion is closed below. *)
Section Visitor.
Variable visitExp : Expression -> Visit.

Definition visitAggregate (a : option (Aggregate Expression)) : Visit :=
  match a with
  | None => skip
  | Some a =>
      if (is_nil (Aggregate_Exp a) || String.eqb (Aggregate_Name a) "")%bool
      then skip
      else WriteString (Aggregate_Name a) ;; OpenParens ;;
           visitExp (Aggregate_Exp a) ;; CloseParens
  end.

Definition visitIn (c : Condition Expression) : Visit :=
  visitExp (Condition_Left c) ;;
  Print [" "; Operator_String (Condition_Op c); " "] ;;
  OpenParens ;;
  match Condition_Right c with
  | EValue exp =>
      match Value_Value exp with
      | GNil => skip
      | v => visitSlice v
      end
  | _ => visitExp (Condition_Right c)
  end ;;
  CloseParens.

Definition visitCondition (c : option (Condition Expression)) : Visit :=
  match c with
  | None => skip
  | Some c =>
      let op := Operator_String (Condition_Op c) in
      if (is_nil (Condition_Right c) && is_nil (Condition_Left c))%bool then
        WriteString op
      else if is_nil (Condition_Left c) then
        Print [op; "("] ;; visitExp (Condition_Right c) ;; Print [")"]
      else if is_nil (Condition_Right c) then
        visitExp (Condition_Left c) ;; Print [" "; op]
      else if (Operator_eqb (Condition_Op c) Op.In
               || Operator_eqb (Condition_Op c) Op.NotIn)%bool then
        visitIn c
      else
        visitExp (Condition_Left c) ;; Print [" "; op; " "] ;;
        visitExp (Condition_Right c)
  end.

(** The loop of [visitConditions]; [i] is the index of the head of [l]
    and [deep] the current depth. *)
Fixpoint visitConditions_loop (i : nat) (deep : Z) (l : list Expression)
    : Visit :=
  match l with
  | [] => skip
  | item :: r =>
      if is_nil item then visitConditions_loop (S i) deep r
      else
        let deep1 :=
          if is_marker Op.CloseParentheses item then int_decr deep else deep in
        when (0 <? i)%nat LineBreak ;;
        when (0 <? deep1)
          (WriteString (Repeat (String (ascii_of_nat 9) "")
                          (Z.to_nat deep1))) ;;
        visitExp item ;;
        visitConditions_loop (S i)
          (if is_marker Op.OpenParentheses item then int_incr deep1 else deep1)
          r
  end.

Definition visitConditions (c : option (Conditions Expression)) : Visit :=
  match c with
  | None => skip
  | Some c => visitConditions_loop 0 0 (Conditions_Conditions c) ;; Blank
  end.

Definition visitJoin (j : option (Join Expression)) : Visit :=
  match j with
  | None => skip
  | Some j =>
      WriteString (Join_JoinType j) ;; Blank ;;
      visitTable (Join_Right j) ;; Blank ;;
      match Join_Conditions j with
      | Some cs =>
          when (negb (Conditions_isEmpty (Join_Conditions j)))
            (WriteString ansi.On ;;
             for_each (fun _ item => Blank ;; visitExp item ;; Blank) 0%nat
               (Conditions_Conditions cs))
      | None => skip
      end
  end.

Definition visitFrom (f : option (From Expression)) : Visit :=
  match f with
  | None => skip
  | Some f =>
      Print [LF; ansi.From; " "] ;;
      match From_Table f with
      | Some t => visitTable (Some t)
      | None => skip
      end ;;
      for_each
        (fun i t =>
           when (match From_Table f with Some _ => true | None => (0 <? i)%nat end)
             Comma ;;
           visitTable t)
        0%nat (From_Tables f) ;;
      for_each (fun _ j => LineBreak ;; visitJoin j) 0%nat (From_Joins f) ;;
      Blank
  end.

Definition visitWhere (where_ : option (Where Expression)) : Visit :=
  match where_ with
  | None => skip
  | Some where_ =>
      if Where_isEmpty where_ then skip
      else Print [LF; ansi.Where; LF] ;;
           visitConditions (Where_Conditions where_)
  end.

Definition visitField (f : option (Field Expression)) : Visit :=
  match f with
  | None => skip
  | Some f =>
      visitExp (Field_Exp f) ;;
      when (negb (String.eqb (Field_Alias f) ""))
        (Print [" "; ansi.As; " "] ;; writeQuote (Field_Alias f))
  end.

Definition visitSelect (slt : option (Select Expression)) : Visit :=
  match slt with
  | None => WriteString ansi.WildcardAll
  | Some slt =>
      match Select_Fields slt with
      | [] => WriteString ansi.WildcardAll
      | fields =>
          for_each (fun i f => when (0 <? i)%nat Comma ;; visitField f) 0%nat
            fields ;;
          Blank
      end
  end.

Definition visitHaving (having : option (Having Expression)) : Visit :=
  match having with
  | None => skip
  | Some having =>
      if Conditions_isEmpty (Having_Conditions having) then skip
      else Print [LF; ansi.Having; LF] ;;
           visitConditions (Having_Conditions having)
  end.

Definition visitGroupBy (groupBy : option (GroupBy Expression)) : Visit :=
  match groupBy with
  | None => skip
  | Some groupBy =>
      match GroupBy_Fields groupBy with
      | [] => skip
      | fields =>
          LineBreak ;; WriteString ansi.GroupBy ;; Blank ;;
          for_each (fun i item => when (0 <? i)%nat Comma ;; visitExp item)
            0%nat fields ;;
          Blank
      end
  end.

Definition visitOrderBy (orderBy : option (OrderBy Expression)) : Visit :=
  match orderBy with
  | None => skip
  | Some orderBy =>
      match OrderBy_Fields orderBy with
      | [] => skip
      | fields =>
          LineBreak ;; WriteString ansi.OrderBy ;; Blank ;;
          for_each
            (fun i item =>
               when (0 <? i)%nat Comma ;;
               visitExp (OrderByField_Exp item) ;; Blank ;;
               WriteString
                 (Direction_String (OrderByField_Direction item)))
            0%nat fields ;;
          Blank
      end
  end.

Definition groupBy_present (g : option (GroupBy Expression)) : bool :=
  match g with
  | Some g => match GroupBy_Fields g with [] => false | _ => true end
  | None => false
  end.

Definition visitQuery (query : Query Expression) : Visit :=
  WriteString ansi.Select ;; Blank ;;
  when (Query_IsDistinct query) (WriteString ansi.Distinct ;; Blank) ;;
  visitSelect (Query_Select query) ;;
  visitFrom (Query_From query) ;;
  visitWhere (Query_Where query) ;;
  visitGroupBy (Query_GroupBy query) ;;
  when (groupBy_present (Query_GroupBy query))
    (visitHaving (Query_Having query)) ;;
  visitOrderBy (Query_OrderBy query) ;;
  when ((0 <? Query_Offset query) || (0 <? Query_Count query))%bool
    (LineBreak ;;
     Print [ansi.Limit; " "; Itoa (Query_Offset query); ",";
            Itoa (Query_Count query)]) ;;
  WriteString ansi.StatementSplit.

Definition visitInsert (insert : Insert Expression) : Visit :=
  Print [ansi.InsertInto; ansi.Blank; Table_Name (Insert_Table insert)] ;;
  OpenParens ;;
  for_each (fun i set => when (0 <? i)%nat Comma ;;
                         visitColumn (Set_Column set))
    0%nat (Insert_Sets insert) ;;
  CloseParens ;;
  LineBreak ;; WriteString ansi.Values ;; OpenParens ;;
  for_each (fun i set => when (0 <? i)%nat Comma ;;
                         visitExp (Set_Value set))
    0%nat (Insert_Sets insert) ;;
  CloseParens ;;
  WriteString ansi.StatementSplit.

Definition visitUpdate (u : Update Expression) : Visit :=
  PrintSplit ansi.Blank
    [ansi.Update; Table_Name (Update_Table u); ansi.Set_; ansi.LineBreak] ;;
  for_each (fun i set => when (0 <? i)%nat Comma ;;
                         visitColumn (Set_Column set) ;;
                         WriteString ansi.Equals ;;
                         visitExp (Set_Value set))
    0%nat (Update_Sets u) ;;
  visitWhere (Update_Where u) ;;
  visitOrderBy (Update_OrderBy u) ;;
  when (0 <? Update_Count u)
    (LineBreak ;; PrintSplit " " [ansi.Limit; Itoa (Update_Count u)]) ;;
  WriteString ansi.StatementSplit.

Definition visitDelete (d : Delete Expression) : Visit :=
  PrintSplit ansi.Blank
    [ansi.Delete; ansi.From; Table_Name (Delete_Table d)] ;;
  visitWhere (Delete_Where d) ;;
  visitOrderBy (Delete_OrderBy d) ;;
  when (0 <? Delete_Count d)
    (LineBreak ;; PrintSplit " " [ansi.Limit; Itoa (Delete_Count d)]) ;;
  WriteString ansi.StatementSplit.
End Visitor.

Definition unsupported (exp : Expression) : Visit :=
  panic ("doesn't support this expression type:" ++
         match Node exp with Some n => NodeType_String n | None => "" end).

Fixpoint visitExp (exp : Expression) : Visit :=
  match exp with
  | ENil => skip
  | EZero => skip
  | EText _ | EProcedure _ | EParameter _ | EOutput => unsupported exp
  | ENull | ESql _ | EOperator _ => WriteString (ToSql exp)
  | EInsert i => visitInsert visitExp i
  | EQuery q => visitQuery visitExp q
  | EUpdate u => visitUpdate visitExp u
  | EDelete d => visitDelete visitExp d
  | EValue v => visitValue (Some v)
  | ETable t => visitTable (Some t)
  | EColumn c => visitColumn c
  | ECondition c => visitCondition visitExp (Some c)
  | EAggregate a => visitAggregate visitExp (Some a)
  | ESelect s => visitSelect visitExp (Some s)
  | EFrom f => visitFrom visitExp (Some f)
  | EJoin j => visitJoin visitExp (Some j)
  | EWhere w => visitWhere visitExp (Some w)
  | EGroupBy g => visitGroupBy visitExp (Some g)
  | EHaving h => visitHaving visitExp (Some h)
  | EOrderBy o => visitOrderBy visitExp (Some o)
  | EConditions _ | EField _ => skip
  end.

Definition ErrNilExpression : string := "compile expression is nil".
Definition PanicNilDereference : string :=
  "runtime error: invalid memory address or nil pointer dereference".

(** [StatementCompiler.Compile].  For a nil expression [err] is set, but
    the method goes on and calls [exp.Node()]. *)
Definition StatementCompiler_Compile (sc : StatementCompiler)
    (exp : Expression) (source : string) : Result :=
  let sc := {| sc_Dialecter := sc_Dialecter sc; sc_source := source;
               sc_w := sqlWriter.empty; sc_args := sc_args sc;
               sc_paraIndex := sc_paraIndex sc;
               sc_placeHolder := ParameterPlaceHolder (sc_Dialecter sc) |} in
  let run (v : Visit) : Result :=
    match v sc with
    | Done sc' => Ok (sqlWriter.String_ (sc_w sc')) (sc_args sc')
    | Panicked msg => Panic msg
    end in
  match exp with
  | ENil => Panic PanicNilDereference
  | EQuery q => run (visitQuery visitExp q)
  | EUpdate u => run (visitUpdate visitExp u)
  | EInsert i => run (visitInsert visitExp i)
  | EDelete d => run (visitDelete visitExp d)
  | _ => Err ("doesn't support expression type:" ++
              match Node exp with Some n => NodeType_String n | None => "" end)
  end.

(** [AnsiDriver.Compile] *)
Definition Compile (c : AnsiDriver) (source : string) (exp : Expression)
    : Result :=
  match exp with
  | ENil => Err ErrNilExpression
  | EText t => compileText c (Some t) source
  | EProcedure p => compileProcedure c (Some p) source
  | EQuery _ | EUpdate _ | EInsert _ | EDelete _ =>
      StatementCompiler_Compile (NewStatementCompiler (Dialecter_ c)) exp source
  | _ => Err ("compile expression does support type:" ++
              match Node exp with Some n => NodeType_String n | None => "" end)
  end.

(* ===================================================================== *)
(** * The tree seen from outside the compiler (specification side) *)
(* ===================================================================== *)

(** ** Sub-expressions

    [X_foldr f x a] folds [f] over the expressions a node [x] contains, in
    the order of the fields ([Select], [From], [Where], [GroupBy],
    [Having], [OrderBy] for a query). *)
Section Children.
Context {E A : Type} (f : E -> A -> A).

Definition option_foldr {X : Type} (g : X -> A -> A) (o : option X) (a : A)
    : A :=
  match o with Some x => g x a | None => a end.

Definition Condition_foldr (c : Condition E) (a : A) : A :=
  f (Condition_Left c) (f (Condition_Right c) a).
Definition Conditions_foldr (c : Conditions E) (a : A) : A :=
  fold_right f a (Conditions_Conditions c).
Definition Aggregate_foldr (x : Aggregate E) (a : A) : A :=
  f (Aggregate_Exp x) a.
Definition Field_foldr (x : Field E) (a : A) : A := f (Field_Exp x) a.
Definition Select_foldr (s : Select E) (a : A) : A :=
  fold_right (option_foldr Field_foldr) a (Select_Fields s).
Definition Join_foldr (j : Join E) (a : A) : A :=
  option_foldr Conditions_foldr (Join_Conditions j) a.
Definition From_foldr (x : From E) (a : A) : A :=
  fold_right (option_foldr Join_foldr) a (From_Joins x).
Definition Where_foldr (w : Where E) (a : A) : A :=
  option_foldr Conditions_foldr (Where_Conditions w) a.
Definition GroupBy_foldr (g : GroupBy E) (a : A) : A :=
  fold_right f a (GroupBy_Fields g).
Definition Having_foldr (h : Having E) (a : A) : A :=
  option_foldr Conditions_foldr (Having_Conditions h) a.
Definition OrderBy_foldr (o : OrderBy E) (a : A) : A :=
  fold_right (fun item => f (OrderByField_Exp item)) a (OrderBy_Fields o).
Definition Sets_foldr (l : list (SetItem E)) (a : A) : A :=
  fold_right (fun set => f (Set_Value set)) a l.
Definition Query_foldr (q : Query E) (a : A) : A :=
  option_foldr Select_foldr (Query_Select q)
    (option_foldr From_foldr (Query_From q)
       (option_foldr Where_foldr (Query_Where q)
          (option_foldr GroupBy_foldr (Query_GroupBy q)
             (option_foldr Having_foldr (Query_Having q)
                (option_foldr OrderBy_foldr (Query_OrderBy q) a))))).
Definition Insert_foldr (i : Insert E) (a : A) : A :=
  Sets_foldr (Insert_Sets i) a.
Definition Update_foldr (u : Update E) (a : A) : A :=
  Sets_foldr (Update_Sets u)
    (option_foldr Where_foldr (Update_Where u)
       (option_foldr OrderBy_foldr (Update_OrderBy u) a)).
Definition Delete_foldr (d : Delete E) (a : A) : A :=
  option_foldr Where_foldr (Delete_Where d)
    (option_foldr OrderBy_foldr (Delete_OrderBy d) a).
End Children.

(** A fold over the expressions of a node is a fold over their list. *)
Definition foldr_ok {E X : Type}
    (g : forall A : Type, (E -> A -> A) -> X -> A -> A) : Prop :=
  forall (A : Type) (f : E -> A -> A) (x : X) (a : A),
    g A f x a = fold_right f a (g (list E) cons x []).

Definition foldr_children {A : Type} (f : Expression -> A -> A)
    (exp : Expression) (a : A) : A :=
  match exp with
  | EQuery q => Query_foldr f q a
  | EInsert i => Insert_foldr f i a
  | EUpdate u => Update_foldr f u a
  | EDelete d => Delete_foldr f d a
  | ECondition c => Condition_foldr f c a
  | EConditions c => Conditions_foldr f c a
  | EAggregate x => Aggregate_foldr f x a
  | ESelect s => Select_foldr f s a
  | EFrom x => From_foldr f x a
  | EJoin j => Join_foldr f j a
  | EWhere w => Where_foldr f w a
  | EGroupBy g => GroupBy_foldr f g a
  | EHaving h => Having_foldr f h a
  | EOrderBy o => OrderBy_foldr f o a
  | EField x => Field_foldr f x a
  | _ => a
  end.

(** The direct sub-expressions of a node, in that order. *)
Definition children (exp : Expression) : list Expression :=
  foldr_children cons exp [].

Fixpoint esize (exp : Expression) : nat :=
  S (foldr_children (fun c n => (esize c + n)%nat) exp 0%nat).

(** ** The literal leaves of a tree, in pre-order *)

(** The payloads of the [Value] leaves that hold one. *)
Fixpoint leaves (exp : Expression) : list GoValue :=
  match exp with
  | EValue v => match Value_Value v with GNil => [] | x => [x] end
  | _ => foldr_children (fun c acc => (leaves c ++ acc)%list) exp []
  end.

(** ** Trees the visitor walks leaf by leaf

    [visits_all exp] holds when the visit of the node [exp] itself hands
    every sub-expression to [visitExp] and binds a literal as one
    argument.  It fails for the kinds [visitExp] rejects, for the kinds it
    passes over ([Conditions] and [Field] met as expressions), for an
    aggregate without a name, for a query with a having clause and no
    group-by field, and for an [IN] or [NOT IN] whose right side is a
    literal sequence. *)

Definition is_sequence (v : GoValue) : bool :=
  match reflect_elements (reflect_Indirect v) with
  | Some _ => true
  | None => false
  end.

Definition is_in_list (c : Condition Expression) : bool :=
  (negb (is_nil (Condition_Left c)) && negb (is_nil (Condition_Right c))
   && (Operator_eqb (Condition_Op c) Op.In
       || Operator_eqb (Condition_Op c) Op.NotIn))%bool.

Definition visits_all (exp : Expression) : bool :=
  match exp with
  | EText _ | EProcedure _ | EParameter _ | EOutput => false
  | EConditions _ | EField _ => false
  | EAggregate a => negb (String.eqb (Aggregate_Name a) "")
  | ECondition c =>
      match Condition_Right c with
      | EValue v => negb (is_in_list c && is_sequence (Value_Value v))
      | _ => true
      end
  | EQuery q =>
      (groupBy_present (Query_GroupBy q)
       || match Query_Having q with
          | Some h => Conditions_isEmpty (Having_Conditions h)
          | None => true
          end)%bool
  | _ => true
  end.

Fixpoint plain (exp : Expression) : bool :=
  (visits_all exp
   && foldr_children (fun c acc => plain c && acc) exp true)%bool.

Definition is_statement (exp : Expression) : bool :=
  match exp with
  | EQuery _ | EInsert _ | EUpdate _ | EDelete _ => true
  | _ => false
  end.

(** ** What a visit adds *)

(** The compiler with nothing written and nothing bound yet ... *)
Definition reset (sc : StatementCompiler) : StatementCompiler :=
  {| sc_Dialecter := sc_Dialecter sc; sc_source := sc_source sc;
     sc_w := sqlWriter.empty; sc_args := [];
     sc_paraIndex := sc_paraIndex sc; sc_placeHolder := sc_placeHolder sc |}.

(** ... and [r], reached from it, put behind the text and the arguments
    of [sc]. *)
Definition glue (sc r : StatementCompiler) : StatementCompiler :=
  {| sc_Dialecter := sc_Dialecter r; sc_source := sc_source r;
     sc_w := sc_w sc ++ sc_w r; sc_args := (sc_args sc ++ sc_args r)%list;
     sc_paraIndex := sc_paraIndex r; sc_placeHolder := sc_placeHolder r |}.

(** The text a visit writes when it starts from [sc]. *)
Definition emitted (v : Visit) (sc : StatementCompiler) : string :=
  match v (reset sc) with
  | Done r => sc_w r
  | Panicked _ => ""
  end.

(** A dialect with named or indexed parameters numbers the placeholders
    of a statement. *)
Definition counts (d : Dialecter) : bool :=
  (SupportNamedParameter d || SupportIndexedParameter d)%bool.

(** The counter after [n] more bound arguments. *)
Definition advance (d : Dialecter) (k : Z) (n : nat) : Z :=
  if counts d then Nat.iter n int_incr k else k.

(** The placeholder of a literal of a statement when the counter has
    reached [k]. *)
Definition statement_placeholder (d : Dialecter) (token : string) (k : Z)
    : string :=
  token ++ (if counts d then Itoa k else "").

(** A visit is framed when it only appends to the text and to the
    arguments, reads neither, keeps the dialect, the token and the source,
    and moves the counter by the number of arguments it binds. *)
Definition framed (v : Visit) : Prop :=
  forall sc,
    match v (reset sc) with
    | Done r =>
        v sc = Done (glue sc r)
        /\ sc_Dialecter r = sc_Dialecter sc
        /\ sc_source r = sc_source sc
        /\ sc_placeHolder r = sc_placeHolder sc
        /\ sc_paraIndex r
           = advance (sc_Dialecter sc) (sc_paraIndex sc) (length (sc_args r))
    | Panicked msg => v sc = Panicked msg
    end.

(** A visit binds [l] when it returns and appends exactly [l] to the
    arguments. *)
Definition binds (v : Visit) (l : list GoValue) : Prop :=
  forall sc, exists sc', v sc = Done sc' /\ sc_args sc' = (sc_args sc ++ l)%list.

(** The compiler [sc] after the text [t] has been written. *)
Definition wrote (sc : StatementCompiler) (t : string) : StatementCompiler :=
  {| sc_Dialecter := sc_Dialecter sc; sc_source := sc_source sc;
     sc_w := sc_w sc ++ t; sc_args := sc_args sc;
     sc_paraIndex := sc_paraIndex sc; sc_placeHolder := sc_placeHolder sc |}.

(** The compiler [sc] after the values [l] have been bound and the text
    [t], which holds their placeholders, has been written. *)
Definition bound (sc : StatementCompiler) (t : string) (l : list GoValue)
    : StatementCompiler :=
  {| sc_Dialecter := sc_Dialecter sc; sc_source := sc_source sc;
     sc_w := sc_w sc ++ t; sc_args := (sc_args sc ++ l)%list;
     sc_paraIndex := advance (sc_Dialecter sc) (sc_paraIndex sc) (length l);
     sc_placeHolder := sc_placeHolder sc |}.

(** ** The shape of a compiled query (specification side) *)

Definition query_header (q : Query Expression) : string :=
  ansi.Select ++ ansi.Blank ++
  (if Query_IsDistinct q then ansi.Distinct ++ ansi.Blank else "").

Definition limit_clause (q : Query Expression) : string :=
  if ((0 <? Query_Offset q) || (0 <? Query_Count q))%bool then
    ansi.LineBreak ++ ansi.Limit ++ " " ++ Itoa (Query_Offset q) ++ "," ++
    Itoa (Query_Count q)
  else "".

(** The kinds [visitExp] rejects. *)
Definition rejected_kind (n : NodeType) : bool :=
  match n with
  | NodeText | NodeProcedure | NodeParameter | NodeOutput => true
  | _ => false
  end.

(** The placeholder of the [n]-th literal bound from the compiler [sc] on
    ([n] = 1 for the next one). *)
Definition nth_placeholder (sc : StatementCompiler) (n : nat) : string :=
  statement_placeholder (sc_Dialecter sc) (sc_placeHolder sc)
    (advance (sc_Dialecter sc) (sc_paraIndex sc) n).

(** The compiler at the first visit of a statement that [AnsiDriver.Compile]
    hands to a new [StatementCompiler]. *)
Definition compile_start (d : Dialecter) (source : string) : StatementCompiler :=
  {| sc_Dialecter := d; sc_source := source; sc_w := sqlWriter.empty;
     sc_args := []; sc_paraIndex := 0;
     sc_placeHolder := ParameterPlaceHolder d |}.

(* ===================================================================== *)
(** * Further definitions for the properties of the visitor *)
(* ===================================================================== *)

(** A visit returns when it does not panic, whatever the compiler it
    starts from. *)
Definition returns (v : Visit) : Prop :=
  forall sc, exists sc', v sc = Done sc'.

(** A tree is supported when none of its nodes is of a kind [visitExp]
    rejects. *)
Definition accepted (exp : Expression) : bool :=
  match Node exp with
  | Some n => negb (rejected_kind n)
  | None => true
  end.

Fixpoint supported (exp : Expression) : bool :=
  (accepted exp
   && foldr_children (fun c acc => supported c && acc) exp true)%bool.

(** The compiler [sc] with no argument bound yet. *)
Definition clear_args (sc : StatementCompiler) : StatementCompiler :=
  {| sc_Dialecter := sc_Dialecter sc; sc_source := sc_source sc;
     sc_w := sc_w sc; sc_args := [];
     sc_paraIndex := sc_paraIndex sc; sc_placeHolder := sc_placeHolder sc |}.

(** Two compilers agree on what a visit reads: the dialect, the source,
    the token and the counter. *)
Definition same_reading (a b : StatementCompiler) : Prop :=
  sc_Dialecter a = sc_Dialecter b
  /\ sc_source a = sc_source b
  /\ sc_placeHolder a = sc_placeHolder b
  /\ sc_paraIndex a = sc_paraIndex b.

(** ** The text of a run of literals (specification side) *)

Definition is_GNil (v : GoValue) : bool :=
  match v with GNil => true | _ => false end.

(** The values of [vs] that are bound: those that are not nil. *)
Definition bound_values (vs : list GoValue) : list GoValue :=
  List.filter (fun v => negb (is_GNil v)) vs.

(** The texts of the literals [vs], each behind its prefix, when they are
    written one after the other from the compiler [sc] after [k] values
    have been bound: [NULL] for nil, the next placeholder otherwise. *)
Fixpoint bound_texts (sc : StatementCompiler) (k : nat)
    (pvs : list (string * GoValue)) : list string :=
  match pvs with
  | [] => []
  | (p, v) :: r =>
      if is_GNil v then (p ++ ansi.Null) :: bound_texts sc k r
      else (p ++ nth_placeholder sc (S k)) :: bound_texts sc (S k) r
  end.

Definition literal_texts (sc : StatementCompiler) (vs : list GoValue)
    : list string :=
  bound_texts sc 0 (map (fun v => ("", v)) vs).

(** The set items of an insert or an update whose values are literals. *)
Definition literal_sets (cvs : list (Column * GoValue))
    : list (SetItem Expression) :=
  map (fun cv => mkSetItem (fst cv) (EValue (mkValue (snd cv)))) cvs.

(** The limiting clause of an update or a delete. *)
Definition count_clause (count : Z) : string :=
  if 0 <? count then ansi.LineBreak ++ ansi.Limit ++ " " ++ Itoa count else "".

(** The text of an insert of the literals [cvs] into the table [t], when
    the compiler [sc] writes it. *)
Definition insert_text (sc : StatementCompiler) (t : Table)
    (cvs : list (Column * GoValue)) : string :=
  ansi.InsertInto ++ ansi.Blank ++ Table_Name t ++ ansi.OpenParentheses
  ++ String.concat ansi.Comma (map (fun cv => Column_String (fst cv)) cvs)
  ++ ansi.CloseParentheses ++ ansi.LineBreak ++ ansi.Values
  ++ ansi.OpenParentheses
  ++ String.concat ansi.Comma (literal_texts sc (map snd cvs))
  ++ ansi.CloseParentheses ++ ansi.StatementSplit.

(** ** The two ways [visitSlice] treats a sequence (specification side) *)

(** The elements [visitSlice] hands to [writeValue] one by one: those of a
    [[]string], of a [[]interface{}], of any other slice or array read by
    reflection, and of any sequence behind a pointer.  [None] for the four
    numeric slices passed by value and for a value that is no sequence. *)
Definition bound_elements (v : GoValue) : option (list GoValue) :=
  match v with
  | GIntSlice _ | GInt64Slice _ | GFloat32Slice _ | GFloat64Slice _ => None
  | _ => reflect_elements (reflect_Indirect v)
  end.

(** The texts of the elements of a numeric slice passed by value. *)
Definition inlined_texts (v : GoValue) : option (list string) :=
  match v with
  | GIntSlice l | GInt64Slice l => Some (map Itoa l)
  | GFloat32Slice l | GFloat64Slice l => Some (map float_text l)
  | _ => None
  end.

(** ** The shape of an update and of a delete (specification side) *)

Definition update_head (t : Table) : string :=
  ansi.Update ++ ansi.Blank ++ Table_Name t ++ ansi.Blank ++ ansi.Set_
  ++ ansi.Blank ++ ansi.LineBreak.

Definition delete_head (t : Table) : string :=
  ansi.Delete ++ ansi.Blank ++ ansi.From ++ ansi.Blank ++ Table_Name t.

(** The assignments [c=p] of an update of literals. *)
Definition set_texts (sc : StatementCompiler) (cvs : list (Column * GoValue))
    : list string :=
  bound_texts sc 0
    (map (fun cv => (Column_String (fst cv) ++ ansi.Equals, snd cv)) cvs).

(** No condition: no [Where], or one whose sequence is absent or empty. *)
Definition no_where (w : option (Where Expression)) : bool :=
  match w with
  | None => true
  | Some w => Where_isEmpty w
  end.

(** No order: no [OrderBy], or one without fields. *)
Definition no_order (o : option (OrderBy Expression)) : bool :=
  match o with
  | None => true
  | Some o => match OrderBy_Fields o with [] => true | _ => false end
  end.

(** ** Clauses over tables and columns (specification side) *)

(** The text of an entry of a table list: nothing for a nil entry, the
    name or the alias when the other is empty, and [name AS alias]. *)
Definition table_text (t : option Table) : string :=
  match t with
  | None => ""
  | Some t =>
      if String.eqb (Table_Name t) "" then Table_Alias t
      else if String.eqb (Table_Alias t) "" then Table_Name t
      else Table_Name t ++ " " ++ ansi.As ++ " " ++ Table_Alias t
  end.

(** The tables of a [From]: [Table] when there is one, then [Tables]. *)
Definition from_tables (f : From Expression) : list (option Table) :=
  match From_Table f with
  | Some t => Some t :: From_Tables f
  | None => From_Tables f
  end.

(** A select list of columns, each with its alias (empty for none). *)
Definition column_fields (cas : list (Column * string))
    : list (option (Field Expression)) :=
  map (fun ca => Some (mkField (EColumn (fst ca)) (snd ca))) cas.

Definition field_text (d : Dialecter) (ca : Column * string) : string :=
  Column_String (fst ca)
  ++ (if String.eqb (snd ca) "" then ""
      else " " ++ ansi.As ++ " " ++ Quote d (snd ca)).

(** An order over columns. *)
Definition column_orders (cds : list (Column * Direction))
    : list (OrderByField Expression) :=
  map (fun cd => mkOrderByField (EColumn (fst cd)) (snd cd)) cds.

Definition order_text (cd : Column * Direction) : string :=
  Column_String (fst cd) ++ ansi.Blank ++ Direction_String (snd cd).

(** The text of a clause that is left out when it has no element. *)
Definition clause_text (keyword : string) (items : list string) : string :=
  match items with
  | [] => ""
  | _ => ansi.LineBreak ++ keyword ++ ansi.Blank
         ++ String.concat ansi.Comma items ++ ansi.Blank
  end.

(** A query over columns: a select list, a [From], a grouping and an
    ordering, without conditions. *)
Definition columns_query (distinct : bool) (cas : list (Column * string))
    (f : From Expression) (cs : list Column)
    (cds : list (Column * Direction)) (offset count : Z)
    : Query Expression :=
  mkQuery distinct (Some (mkSelect (column_fields cas))) (Some f) None
    (Some (mkGroupBy (map EColumn cs))) None
    (Some (mkOrderBy (column_orders cds))) offset count.

Definition select_text (d : Dialecter) (cas : list (Column * string))
    : string :=
  match cas with
  | [] => ansi.WildcardAll
  | _ => String.concat ansi.Comma (map (field_text d) cas) ++ ansi.Blank
  end.

Definition from_text (f : From Expression) : string :=
  LF ++ ansi.From ++ ansi.Blank
  ++ String.concat ansi.Comma (map table_text (from_tables f)) ++ ansi.Blank.

(* ===================================================================== *)
(** * The text and the arguments of a procedure call (specification side) *)
(* ===================================================================== *)

Definition is_InOut (p : Parameter_) : bool :=
  Dir_eqb (Parameter_Dir p) DirInOut.

Definition is_In (p : Parameter_) : bool :=
  Dir_eqb (Parameter_Dir p) DirIn.

(** The parameters the trailing [SELECT] reads back. *)
Definition is_selected (p : Parameter_) : bool :=
  (IsOut p || Dir_eqb (Parameter_Dir p) DirReturn)%bool.

Definition session_variable (p : Parameter_) : string :=
  "@" ++ Parameter_Name p.

(** The statement that sets the session variable of an InOut parameter. *)
Definition set_statement (p : Parameter_) : string :=
  "SET @" ++ Parameter_Name p ++ " = ?; " ++ LF.

(** The text that stands for a parameter between the parentheses of the
    call: nothing for a Return parameter. *)
Definition argument_text (p : Parameter_) : string :=
  match Parameter_Dir p with
  | DirIn => "?"
  | DirInOut | DirOut => session_variable p
  | DirReturn => ""
  end.

Definition procedure_text (sp : Procedure) : string :=
  let l := Procedure_Parameters sp in
  String.concat "" (map set_statement (List.filter is_InOut l))
  ++ (if String.eqb (ReturnParameterName sp) "" then "CALL "
      else "SET @" ++ ReturnParameterName sp)
  ++ Procedure_Name sp ++ " ( "
  ++ String.concat ", " (map argument_text l) ++ " );"
  ++ (if (existsb IsOut l || negb (String.eqb (ReturnParameterName sp) ""))%bool
      then LF ++ "SELECT "
           ++ String.concat ", "
                (map session_variable (List.filter is_selected l))
           ++ "; "
      else "").

Definition procedure_values (sp : Procedure) : list GoValue :=
  (map Parameter_Value (List.filter is_InOut (Procedure_Parameters sp))
   ++ map Parameter_Value (List.filter is_In (Procedure_Parameters sp)))%list.

(* ===================================================================== *)
(** * What two runs of the template compiler share (specification side) *)
(* ===================================================================== *)

(** Two states of the scanning loop that differ in the text written and
    in the counter only. *)
Definition same_scan (s s' : Scan) : Prop :=
  scan_b s = scan_b s' /\ scan_state s = scan_state s'
  /\ scan_paramters s = scan_paramters s'.

(** Two results that differ in the query only. *)
Definition same_binding (r r' : Result) : Prop :=
  match r, r' with
  | Ok _ args, Ok _ args' => args = args'
  | Err e, Err e' => e = e'
  | Panic msg, Panic msg' => msg = msg'
  | _, _ => False
  end.

(** A visit binds the same values, or panics alike, from two compilers
    that hold the same arguments. *)
Definition same_args (v : Visit) : Prop :=
  forall a b,
    sc_args a = sc_args b ->
    match v a, v b with
    | Done a', Done b' => sc_args a' = sc_args b'
    | Panicked msg, Panicked msg' => msg = msg'
    | _, _ => False
    end.

(** The errors of the template compiler. *)
Definition template_error (t : Text) (e : string) : Prop :=
  e = ErrTextEmpty \/ e = ErrMalformedTemplate
  \/ exists name, FindParameter t name = None /\ e = ErrUnknownParameter name.

(* ===================================================================== *)
(** * The registries *)
(* ===================================================================== *)

(** The three package variables [_compilers], [_schemaers] and
    [_dialecters].  The compilers driver.go makes are [AnsiDriver]s; it
    declares the interface [Schemaer] and implements none, so its values
    are left abstract. *)
Section Registry.
Variable Schemaer : Type.

Record Registries : Type := mkRegistries {
  _compilers : gmap string AnsiDriver;
  _schemaers : gmap string Schemaer;
  _dialecters : gmap string Dialecter
}.

(** A [Register] function updates the registries, or panics. *)
Inductive Registration : Type :=
| Registered (r : Registries)
| RegisterPanic (msg : string).

(** The value of a [Get] function, or the text of its error. *)
Inductive Lookup_ (V : Type) : Type :=
| Found (v : V)
| NotFound (err : string).

(** [RegisterCompiler]; a nil interface value is [None]. *)
Definition RegisterCompiler (driver : string) (compiler : option AnsiDriver)
    (r : Registries) : Registration :=
  match compiler with
  | None => RegisterPanic "register compiler is nil"
  | Some compiler =>
      Registered {| _compilers := <[driver := compiler]> (_compilers r);
                    _schemaers := _schemaers r;
                    _dialecters := _dialecters r |}
  end.

Definition GetCompiler (driver : string) (r : Registries)
    : Lookup_ AnsiDriver :=
  match _compilers r !! driver with
  | Some c => Found AnsiDriver c
  | None => NotFound AnsiDriver ("can not get compiler:" ++ driver)
  end.

Definition RegisterSchemaer (driver : string) (schemaer : option Schemaer)
    (r : Registries) : Registration :=
  match schemaer with
  | None => RegisterPanic "register schemaer is nil"
  | Some schemaer =>
      Registered {| _compilers := _compilers r;
                    _schemaers := <[driver := schemaer]> (_schemaers r);
                    _dialecters := _dialecters r |}
  end.

Definition GetSchemaer (driver : string) (r : Registries) : Lookup_ Schemaer :=
  match _schemaers r !! driver with
  | Some s => Found Schemaer s
  | None => NotFound Schemaer ("can not get schemaer:" ++ driver)
  end.

Definition RegisterDialecter (driver : string) (dialecter : option Dialecter)
    (r : Registries) : Registration :=
  match dialecter with
  | None => RegisterPanic "register dialecter is nil"
  | Some dialecter =>
      Registered {| _compilers := _compilers r;
                    _schemaers := _schemaers r;
                    _dialecters := <[driver := dialecter]> (_dialecters r) |}
  end.

Definition GetDialecter (driver : string) (r : Registries)
    : Lookup_ Dialecter :=
  match _dialecters r !! driver with
  | Some d => Found Dialecter d
  | None => NotFound Dialecter ("can not get dialecter:" ++ driver)
  end.

(** [DefaultDialecter] *)
Definition DefaultDialecter : Dialecter := AnsiDialecter.

(** One registration after another; a panic ends the sequence. *)
Definition and_then (a : Registration) (f : Registries -> Registration)
    : Registration :=
  match a with
  | Registered r => f r
  | RegisterPanic msg => RegisterPanic msg
  end.

(** [init], run on the registries as they are when the package is
    loaded. *)
Definition init (r : Registries) : Registration :=
  let ansi := AnsiDialecter in
  and_then (RegisterDialecter "ansi" (Some ansi) r) (fun r =>
  and_then (RegisterCompiler "ansi" (Some (NewAnsiDriver ansi)) r) (fun r =>
  let mysql := MysqlDialecter in
  and_then (RegisterDialecter "mysql" (Some mysql) r) (fun r =>
  and_then (RegisterCompiler "mysql" (Some (NewAnsiDriver mysql)) r) (fun r =>
  let postgres := PostgreSQLDialecter in
  and_then (RegisterDialecter "postgres" (Some postgres) r) (fun r =>
  RegisterCompiler "postgres" (Some (NewAnsiDriver postgres)) r))))).

(** The registries before [init]: the three maps as [make] returns them. *)
Definition no_registries : Registries :=
  {| _compilers := ∅; _schemaers := ∅; _dialecters := ∅ |}.

(** The names [init] registers, each with its dialect. *)
Definition builtin_dialecter (driver : string) : option Dialecter :=
  if String.eqb driver "ansi" then Some AnsiDialecter
  else if String.eqb driver "mysql" then Some MysqlDialecter
  else if String.eqb driver "postgres" then Some PostgreSQLDialecter
  else None.
End Registry.

Arguments RegisterCompiler {Schemaer}.
Arguments GetCompiler {Schemaer}.
Arguments RegisterSchemaer {Schemaer}.
Arguments GetSchemaer {Schemaer}.
Arguments RegisterDialecter {Schemaer}.
Arguments GetDialecter {Schemaer}.
Arguments init {Schemaer}.
Arguments no_registries {Schemaer}.
Arguments Registered {Schemaer}.
Arguments RegisterPanic {Schemaer}.
Arguments Found {V}.
Arguments NotFound {V}.

(* ===================================================================== *)
(** * Conditions made of comparisons (specification side) *)
(* ===================================================================== *)

(** An element of a flat sequence of conditions: the comparison of a
    column with a literal, or an operator that stands between two
    comparisons, a parenthesis for one. *)
Inductive WhereItem : Type :=
| Comparison (c : Column) (op : Operator) (v : GoValue)
| Connective (op : Operator).

Definition where_expression (it : WhereItem) : Expression :=
  match it with
  | Comparison c op v =>
      ECondition (mkCondition (EColumn c) op (EValue (mkValue v)))
  | Connective op => EOperator op
  end.

(** The comparison is no [IN] and no [NOT IN]. *)
Definition flat_item (it : WhereItem) : bool :=
  match it with
  | Comparison _ op _ =>
      negb (Operator_eqb op Op.In || Operator_eqb op Op.NotIn)
  | Connective _ => true
  end.

(** The values an element binds. *)
Definition item_values (it : WhereItem) : list GoValue :=
  match it with
  | Comparison _ _ v => if is_GNil v then [] else [v]
  | Connective _ => []
  end.

(** The text of an element, when the compiler [sc] writes it after [k]
    values have been bound. *)
Definition item_text (sc : StatementCompiler) (k : nat) (it : WhereItem)
    : string :=
  match it with
  | Comparison c op v =>
      Column_String c ++ " " ++ Operator_String op ++ " "
      ++ (if is_GNil v then ansi.Null else nth_placeholder sc (S k))
  | Connective op => Operator_String op
  end.

(** The depth at which an element is written, a closing parenthesis one
    level up, and the depth behind it, one level down behind an opening
    parenthesis. *)
Definition depth_at (deep : Z) (it : WhereItem) : Z :=
  if is_marker Op.CloseParentheses (where_expression it)
  then int_decr deep else deep.

Definition depth_after (deep : Z) (it : WhereItem) : Z :=
  if is_marker Op.OpenParentheses (where_expression it)
  then int_incr (depth_at deep it) else depth_at deep it.

(** The tabs in front of a line at depth [deep]. *)
Definition indent (deep : Z) : string :=
  if 0 <? deep then Repeat (String (ascii_of_nat 9) "") (Z.to_nat deep)
  else "".

(** The lines of the conditions [items], when the compiler [sc] writes them
    after [k] values have been bound, from the depth [deep] on. *)
Fixpoint where_texts (sc : StatementCompiler) (k : nat) (deep : Z)
    (items : list WhereItem) : list string :=
  match items with
  | [] => []
  | it :: r =>
      (indent (depth_at deep it) ++ item_text sc k it)
      :: where_texts sc (k + length (item_values it)) (depth_after deep it) r
  end.

Definition where_values (items : list WhereItem) : list GoValue :=
  flat_map item_values items.

Definition where_text (sc : StatementCompiler) (items : list WhereItem)
    : string :=
  match items with
  | [] => ""
  | _ => LF ++ ansi.Where ++ LF
         ++ String.concat ansi.LineBreak (where_texts sc 0 0 items)
         ++ ansi.Blank
  end.

(* ===================================================================== *)
(** * Joins on columns (specification side) *)
(* ===================================================================== *)

(** A condition between two columns. *)
Definition column_condition (c : Column * Operator * Column) : Expression :=
  ECondition (mkCondition (EColumn (fst (fst c))) (snd (fst c))
                (EColumn (snd c))).

Definition column_condition_text (c : Column * Operator * Column) : string :=
  Column_String (fst (fst c)) ++ " " ++ Operator_String (snd (fst c)) ++ " "
  ++ (if (Operator_eqb (snd (fst c)) Op.In
          || Operator_eqb (snd (fst c)) Op.NotIn)%bool
      then ansi.OpenParentheses ++ Column_String (snd c)
           ++ ansi.CloseParentheses
      else Column_String (snd c)).

(** A join whose conditions are conditions between columns. *)
Record ColumnJoin : Type := mkColumnJoin {
  ColumnJoin_Type : string;
  ColumnJoin_Right : option Table;
  ColumnJoin_On : list (Column * Operator * Column)
}.

Definition column_join (j : ColumnJoin) : option (Join Expression) :=
  Some (mkJoin (ColumnJoin_Type j) (ColumnJoin_Right j)
          (Some (mkConditions (map column_condition (ColumnJoin_On j))))).

Definition join_text (j : ColumnJoin) : string :=
  ColumnJoin_Type j ++ ansi.Blank ++ table_text (ColumnJoin_Right j)
  ++ ansi.Blank
  ++ match ColumnJoin_On j with
     | [] => ""
     | on => ansi.On
             ++ String.concat ""
                  (map (fun c => ansi.Blank ++ column_condition_text c
                                 ++ ansi.Blank) on)
     end.

(** The [From] clause: the tables, then every join on a line of its own. *)
Definition from_joins_text (f : From Expression) (js : list ColumnJoin)
    : string :=
  LF ++ ansi.From ++ ansi.Blank
  ++ String.concat ansi.Comma (map table_text (from_tables f))
  ++ String.concat "" (map (fun j => ansi.LineBreak ++ join_text j) js)
  ++ ansi.Blank.

(* ===================================================================== *)
(** * The clauses a query holds (specification side) *)
(* ===================================================================== *)

(** The elements of a sequence of conditions; none when it is nil. *)
Definition conditions_of (c : option (Conditions Expression))
    : list Expression :=
  match c with
  | Some c => Conditions_Conditions c
  | None => []
  end.

Definition query_fields (q : Query Expression)
    : list (option (Field Expression)) :=
  match Query_Select q with
  | Some s => Select_Fields s
  | None => []
  end.

Definition query_where (q : Query Expression) : list Expression :=
  match Query_Where q with
  | Some w => conditions_of (Where_Conditions w)
  | None => []
  end.

Definition query_group (q : Query Expression) : list Expression :=
  match Query_GroupBy q with
  | Some g => GroupBy_Fields g
  | None => []
  end.

Definition query_having (q : Query Expression) : list Expression :=
  match Query_Having q with
  | Some h => conditions_of (Having_Conditions h)
  | None => []
  end.

Definition query_order (q : Query Expression)
    : list (OrderByField Expression) :=
  match Query_OrderBy q with
  | Some o => OrderBy_Fields o
  | None => []
  end.

(** A clause is present when it has an element. *)
Definition present {A : Type} (l : list A) : bool :=
  match l with
  | [] => false
  | _ => true
  end.

(** The text of a clause: nothing when the clause is absent, and
    otherwise its keyword, a body and a blank. *)
Definition clause_shape (is_present : bool) (keyword text : string) : Prop :=
  if is_present then exists body, text = keyword ++ body ++ ansi.Blank
  else text = "".

(** The select list: [*] without fields, a body and a blank otherwise. *)
Definition select_shape (q : Query Expression) (text : string) : Prop :=
  if present (query_fields q) then exists body, text = body ++ ansi.Blank
  else text = ansi.WildcardAll.

(** The [From] clause is present when the query has a [From]. *)
Definition from_shape (q : Query Expression) (text : string) : Prop :=
  clause_shape (match Query_From q with Some _ => true | None => false end)
    (LF ++ ansi.From ++ ansi.Blank) text.
(* ===================================================================== *)
(** * Facts about strings *)
(* ===================================================================== *)

Lemma sapp_assoc (a b c : string) : (a ++ b) ++ c = a ++ (b ++ c).
Proof. induction a as [|x a IH]; simpl; [reflexivity | now rewrite IH]. Qed.

Lemma sapp_nil_r (s : string) : s ++ "" = s.
Proof. induction s as [|x s IH]; simpl; [reflexivity | now rewrite IH]. Qed.

Lemma length_sapp (a b : string) :
  String.length (a ++ b) = (String.length a + String.length b)%nat.
Proof. induction a as [|x a IH]; simpl; [reflexivity | now rewrite IH]. Qed.

Lemma string_take_app (lit rest : string) :
  string_take (String.length lit) (lit ++ rest) = lit.
Proof.
  induction lit as [|x lit IH]; simpl.
  - now destruct rest.
  - now rewrite IH.
Qed.

Lemma string_drop_app (lit rest : string) :
  string_drop (String.length lit) (lit ++ rest) = rest.
Proof. induction lit as [|x lit IH]; simpl; [reflexivity | exact IH]. Qed.

Lemma length_string_drop (n : nat) (s : string) :
  String.length (string_drop n s) = (String.length s - n)%nat.
Proof.
  revert s; induction n as [|n IH]; intros [|a r]; simpl; try reflexivity.
  apply IH.
Qed.

Lemma IndexByte_range (c : ascii) (s : string) :
  IndexByte s c = -1 \/ 0 <= IndexByte s c < Z.of_nat (String.length s).
Proof.
  induction s as [|a r IH]; simpl; [now left|].
  destruct (Ascii.eqb a c); [right; lia|].
  destruct (IndexByte r c <? 0) eqn:E; [now left|].
  apply Z.ltb_ge in E. right. lia.
Qed.

Lemma IndexByte_absent (c : ascii) (s : string) :
  contains_byte c s = false -> IndexByte s c = -1.
Proof.
  induction s as [|a r IH]; simpl; [reflexivity|].
  intros H. apply orb_false_iff in H as [Ha Hr].
  rewrite Ha, (IH Hr). reflexivity.
Qed.

Lemma IndexByte_first (c : ascii) (lit rest : string) :
  contains_byte c lit = false ->
  IndexByte (lit ++ String c rest) c = Z.of_nat (String.length lit).
Proof.
  induction lit as [|a r IH]; simpl.
  - intros _. now rewrite Ascii.eqb_refl.
  - intros H. apply orb_false_iff in H as [Ha Hr].
    rewrite Ha, (IH Hr).
    destruct (Z.of_nat (String.length r) <? 0) eqn:E.
    + apply Z.ltb_lt in E. lia.
    + lia.
Qed.

Lemma slice_to_first (lit rest : string) (c : ascii) :
  slice_to (lit ++ String c rest) (Z.of_nat (String.length lit)) = lit.
Proof. unfold slice_to. rewrite Nat2Z.id. apply string_take_app. Qed.

Lemma slice_from_first (lit rest : string) (c : ascii) :
  slice_from (lit ++ String c rest) (Z.of_nat (String.length lit) + 1) = rest.
Proof.
  unfold slice_from.
  replace (Z.to_nat (Z.of_nat (String.length lit) + 1))
    with (String.length (lit ++ String c "")) by (rewrite length_sapp; simpl; lia).
  replace (lit ++ String c rest) with ((lit ++ String c "") ++ rest)
    by (rewrite sapp_assoc; reflexivity).
  apply string_drop_app.
Qed.

Lemma int_incr_small (k : Z) : - 2 ^ 63 <= k < 2 ^ 63 - 1 -> int_incr k = k + 1.
Proof.
  intros H. unfold int_incr, int_wrap.
  rewrite Z.mod_small; lia.
Qed.

(* ===================================================================== *)
(** * Facts about the scanning loop *)
(* ===================================================================== *)

Lemma mode_of_cases (d : Dialecter) :
  mode_of d = 0 \/ mode_of d = 1 \/ mode_of d = 2.
Proof.
  unfold mode_of.
  destruct (SupportNamedParameter d), (SupportIndexedParameter d); auto.
Qed.

(** A turn that stays in the loop removes at least one byte of [b]. *)
Lemma compileText_step_shrinks text ph mode s s' :
  compileText_step text ph mode s = inl s' ->
  (String.length (scan_b s') < String.length (scan_b s))%nat.
Proof.
  unfold compileText_step. intros H.
  assert (Hdrop : forall c, 0 <= IndexByte (scan_b s) c ->
            (String.length (slice_from (scan_b s) (IndexByte (scan_b s) c + 1))
             < String.length (scan_b s))%nat).
  { intros c Hc. unfold slice_from. rewrite length_string_drop.
    destruct (IndexByte_range c (scan_b s)) as [E|E]; lia. }
  revert H. destruct (scan_state s =? 0).
  - destruct (IndexByte (scan_b s) "{" >=? 0) eqn:E; [|discriminate].
    intros [= <-]. simpl. apply Hdrop. lia.
  - destruct (IndexByte (scan_b s) "}" >? 0) eqn:E; [|discriminate].
    assert (0 <= IndexByte (scan_b s) "}") by lia.
    destruct (FindParameter text _); [|discriminate].
    destruct mode as [|[[m|m|]|[m|m|]|]|]; simpl; intros [= <-]; simpl; auto.
Qed.

Lemma compileText_loop_total text ph mode n s :
  (String.length (scan_b s) < n)%nat ->
  compileText_loop n text ph mode s <> None.
Proof.
  revert s; induction n as [|n IH]; intros s Hn; [lia|].
  simpl. destruct (compileText_step text ph mode s) as [s'|[e|]] eqn:E;
    try discriminate.
  apply IH. apply compileText_step_shrinks in E. lia.
Qed.

(** The loop returns within [len(b) + 1] turns. *)
Lemma compileText_loop_returns text ph mode s :
  exists r,
    compileText_loop (S (String.length (scan_b s))) text ph mode s = Some r.
Proof.
  destruct (compileText_loop (S (String.length (scan_b s))) text ph mode s)
    as [r|] eqn:E; [now exists r|].
  exfalso. revert E. apply compileText_loop_total. lia.
Qed.

Lemma compileText_loop_mono text ph mode n k s r :
  compileText_loop n text ph mode s = Some r ->
  compileText_loop (n + k) text ph mode s = Some r.
Proof.
  revert s; induction n as [|n IH]; intros s; [discriminate|].
  simpl. destruct (compileText_step text ph mode s) as [s'|[e|]]; auto.
Qed.

(** Whatever some number of turns computes, [len(b) + 1] turns compute. *)
Lemma compileText_loop_enough text ph mode n s r :
  compileText_loop n text ph mode s = Some r ->
  compileText_loop (S (String.length (scan_b s))) text ph mode s = Some r.
Proof.
  intros H.
  destruct (compileText_loop (S (String.length (scan_b s))) text ph mode s)
    as [r'|] eqn:E.
  - apply (compileText_loop_mono _ _ _ _ (S (String.length (scan_b s)))) in H.
    apply (compileText_loop_mono _ _ _ _ n) in E.
    rewrite Nat.add_comm in E. congruence.
  - exfalso. revert E. apply compileText_loop_total. lia.
Qed.

(** ** The two turns that consume one resolved placeholder *)

Lemma compileText_step_open text ph mode buffer k ps lit rest :
  contains_byte "{" lit = false ->
  compileText_step text ph mode (mkScan (lit ++ String "{" rest) buffer 0 k ps)
  = inl (mkScan rest (buffer ++ lit) 1 k ps).
Proof.
  intros Hlit. unfold compileText_step. simpl.
  rewrite (IndexByte_first _ _ _ Hlit).
  replace (Z.of_nat (String.length lit) >=? 0) with true
    by (symmetry; apply Z.geb_le; lia).
  now rewrite slice_to_first, slice_from_first.
Qed.

Lemma compileText_step_close d text buffer k ps raw rest p :
  contains_byte "}" raw = false ->
  raw <> "" ->
  FindParameter text (TrimSpace raw) = Some p ->
  compileText_step text (ParameterPlaceHolder d) (mode_of d)
    (mkScan (raw ++ String "}" rest) buffer 1 k ps)
  = inl (mkScan rest (buffer ++ placeholder_text d (TrimSpace raw) k) 0
           (next_index d k) (ps ++ [Parameter_Value p])).
Proof.
  intros Hraw Hne Hp. unfold compileText_step. simpl.
  rewrite (IndexByte_first _ _ _ Hraw).
  assert (0 < String.length raw)%nat by (destruct raw; simpl; [congruence|lia]).
  replace (Z.of_nat (String.length raw) >? 0) with true
    by (symmetry; apply Z.gtb_lt; lia).
  rewrite slice_to_first, slice_from_first, Hp.
  unfold mode_of, placeholder_text, next_index.
  destruct (SupportNamedParameter d); [now rewrite sapp_assoc|].
  destruct (SupportIndexedParameter d); [now rewrite sapp_assoc|].
  now rewrite sapp_nil_r.
Qed.

Lemma segment_values_cons m lit raw p segs :
  m !! TrimSpace raw = Some p ->
  segment_values m ((lit, raw) :: segs) = Parameter_Value p :: segment_values m segs.
Proof. intros H. unfold segment_values. simpl. now rewrite H. Qed.

(** Resolved segments take two turns each and leave the loop outside a
    brace, at the tail. *)
Lemma compileText_loop_segments d text segs :
  forall n tail buffer k ps,
    Forall (segment_ok (Text_Parameters text)) segs ->
    compileText_loop (2 * length segs + n) text (ParameterPlaceHolder d)
      (mode_of d) (mkScan (template segs tail) buffer 0 k ps)
    = compileText_loop n text (ParameterPlaceHolder d) (mode_of d)
        (mkScan tail (buffer ++ scanned_text d segs k) 0 (scanned_index d segs k)
           (ps ++ segment_values (Text_Parameters text) segs)).
Proof.
  induction segs as [|[lit raw] segs IH]; intros n tail buffer k ps Hok.
  - simpl. now rewrite sapp_nil_r, app_nil_r.
  - inversion Hok as [|? ? [Hlit [Hraw [Hne [p Hp]]]] Hrest]; subst.
    simpl in Hlit, Hraw, Hne, Hp.
    replace (2 * length ((lit, raw) :: segs) + n)%nat
      with (S (S (2 * length segs + n))) by (simpl; lia).
    cbn [template].
    change (lit ++ "{" ++ raw ++ "}" ++ template segs tail)
      with (lit ++ String "{" (raw ++ String "}" (template segs tail))).
    cbn [compileText_loop].
    rewrite (compileText_step_open _ _ _ _ _ _ _ _ Hlit).
    rewrite (compileText_step_close d text _ _ _ _ _ p Hraw Hne Hp).
    rewrite IH by assumption.
    rewrite (segment_values_cons _ _ _ _ _ Hp).
    cbn [scanned_text scanned_index].
    rewrite !sapp_assoc, <- app_assoc. reflexivity.
Qed.

Lemma next_index_small d k :
  - 2 ^ 63 <= k < 2 ^ 63 - 1 ->
  next_index d k = k \/ next_index d k = k + 1.
Proof.
  intros H. unfold next_index.
  destruct (SupportNamedParameter d); [now left|].
  destruct (SupportIndexedParameter d); [right|now left].
  now apply int_incr_small.
Qed.

Lemma placeholder_text_index d name k :
  SupportNamedParameter d = true \/ SupportIndexedParameter d = false ->
  forall k', placeholder_text d name k = placeholder_text d name k'.
Proof.
  unfold placeholder_text. intros [H|H] k'; rewrite H; [reflexivity|].
  destruct (SupportNamedParameter d); reflexivity.
Qed.

(** Without overflow of the counter the scanned text is [render]. *)
Lemma scanned_text_render d segs :
  forall k j tail,
    - 2 ^ 63 <= k -> k + Z.of_nat (length segs) < 2 ^ 63 ->
    (SupportNamedParameter d = false -> SupportIndexedParameter d = true ->
     k = j) ->
    scanned_text d segs k ++ tail = render d segs j tail.
Proof.
  induction segs as [|[lit raw] segs IH]; intros k j tail Hlo Hhi Hkj.
  - reflexivity.
  - cbn [scanned_text render]. rewrite !sapp_assoc.
    cbn [length] in Hhi.
    assert (Hph : placeholder_text d (TrimSpace raw) k
                  = placeholder_text d (TrimSpace raw) j).
    { destruct (SupportNamedParameter d) eqn:En;
        [apply placeholder_text_index; now left|].
      destruct (SupportIndexedParameter d) eqn:Ei;
        [now rewrite (Hkj eq_refl eq_refl)
        |apply placeholder_text_index; now right]. }
    rewrite Hph. do 2 f_equal.
    apply IH.
    + destruct (next_index_small d k) as [E|E]; lia.
    + destruct (next_index_small d k) as [E|E]; lia.
    + intros En Ei. unfold next_index. rewrite En, Ei.
      rewrite int_incr_small by lia. rewrite (Hkj En Ei). reflexivity.
Qed.

(** The result of the loop at a tail without an opening brace. *)
Lemma compileText_loop_tail text ph mode n tail buffer k ps :
  contains_byte "{" tail = false ->
  compileText_loop (S n) text ph mode (mkScan tail buffer 0 k ps)
  = Some (Ok (buffer ++ tail) ps).
Proof.
  intros H. cbn [compileText_loop]. unfold compileText_step. simpl.
  now rewrite (IndexByte_absent _ _ H).
Qed.

(** ... at an opening brace that no closing brace follows, or that a
    closing brace follows at once. *)
Lemma compileText_loop_unclosed text ph mode n lit rest buffer k ps :
  contains_byte "{" lit = false ->
  IndexByte rest "}" <= 0 ->
  compileText_loop (S (S n)) text ph mode
    (mkScan (lit ++ String "{" rest) buffer 0 k ps)
  = Some (Err ErrMalformedTemplate).
Proof.
  intros Hlit Hrest. cbn [compileText_loop].
  rewrite (compileText_step_open _ _ _ _ _ _ _ _ Hlit).
  unfold compileText_step. simpl.
  destruct (IndexByte rest "}" >? 0) eqn:E; [|reflexivity].
  apply Z.gtb_lt in E. lia.
Qed.

(** ... and at a braced name that the map does not hold. *)
Lemma compileText_loop_unknown text ph mode n lit raw rest buffer k ps :
  contains_byte "{" lit = false ->
  contains_byte "}" raw = false ->
  raw <> "" ->
  FindParameter text (TrimSpace raw) = None ->
  compileText_loop (S (S n)) text ph mode
    (mkScan (lit ++ String "{" (raw ++ String "}" rest)) buffer 0 k ps)
  = Some (Err (ErrUnknownParameter (TrimSpace raw))).
Proof.
  intros Hlit Hraw Hne Hp. cbn [compileText_loop].
  rewrite (compileText_step_open _ _ _ _ _ _ _ _ Hlit).
  unfold compileText_step. simpl.
  rewrite (IndexByte_first _ _ _ Hraw).
  assert (0 < String.length raw)%nat by (destruct raw; simpl; [congruence|lia]).
  replace (Z.of_nat (String.length raw) >? 0) with true
    by (symmetry; apply Z.gtb_lt; lia).
  now rewrite slice_to_first, Hp.
Qed.

(** [compileText] on a non-empty template with a non-empty map is what
    any number of turns of the loop computes. *)
Lemma compileText_by_loop d sql m source n r :
  sql <> "" ->
  size m <> 0%nat ->
  compileText_loop n (mkText sql m) (ParameterPlaceHolder d) (mode_of d)
    (mkScan sql "" 0 1 []) = Some r ->
  compileText (NewAnsiDriver d) (Some (mkText sql m)) source = r.
Proof.
  intros Hsql Hm Hloop. unfold compileText. cbn [Text_Sql Text_Parameters].
  destruct (String.eqb_spec sql ""); [contradiction|].
  destruct (Nat.eqb_spec (size m) 0); [contradiction|].
  cbn [NewAnsiDriver Dialecter_].
  apply compileText_loop_enough in Hloop. cbn [scan_b] in Hloop.
  now rewrite Hloop.
Qed.

Lemma segments_need_parameters (m : gmap string Parameter_) segs :
  Forall (segment_ok m) segs -> size m = 0%nat -> segs = [].
Proof.
  intros Hok Hm. apply map_size_empty_inv in Hm. subst m.
  destruct segs as [|seg segs]; [reflexivity|].
  inversion Hok as [|? ? [_ [_ [_ [p Hp]]]] _]; subst.
  rewrite lookup_empty in Hp. discriminate.
Qed.

(** A template of resolved placeholders compiles to [render]: every
    placeholder is replaced by the token of the dialect, followed by the
    trimmed name (named dialect) or by its position 1, 2, 3, ... (indexed
    dialect), and the values are bound in the order of the scan. *)
Lemma compileText_resolved d m segs tail source :
  Forall (segment_ok m) segs ->
  contains_byte "{" tail = false ->
  template segs tail <> "" ->
  Z.of_nat (length segs) < 2 ^ 63 - 1 ->
  compileText (NewAnsiDriver d) (Some (mkText (template segs tail) m)) source
  = Ok (render d segs 1 tail) (segment_values m segs).
Proof.
  intros Hok Htail Hne Hlen.
  destruct (Nat.eq_dec (size m) 0%nat) as [Hm|Hm].
  - rewrite (segments_need_parameters m segs Hok Hm) in *.
    unfold compileText. cbn [Text_Sql Text_Parameters template] in *.
    destruct (String.eqb_spec tail ""); [contradiction|].
    now rewrite Hm.
  - apply (compileText_by_loop d _ m source (2 * length segs + 1)%nat); try assumption.
    rewrite (compileText_loop_segments d (mkText (template segs tail) m) segs)
      by assumption.
    rewrite compileText_loop_tail by assumption.
    cbn [Text_Parameters app]. do 2 f_equal.
    cbn [String.append].
    apply scanned_text_render; lia.
Qed.

(** The same at an opening brace that is not closed. *)
Lemma compileText_unclosed d m segs lit rest source :
  size m <> 0%nat ->
  Forall (segment_ok m) segs ->
  contains_byte "{" lit = false ->
  IndexByte rest "}" <= 0 ->
  compileText (NewAnsiDriver d)
    (Some (mkText (template segs (lit ++ "{" ++ rest)) m)) source
  = Err ErrMalformedTemplate.
Proof.
  intros Hm Hok Hlit Hrest.
  apply (compileText_by_loop d _ m source (2 * length segs + 2)%nat); try assumption.
  - destruct segs as [|[l r] segs]; cbn [template];
      [destruct lit|destruct l]; discriminate.
  - rewrite (compileText_loop_segments d (mkText _ m) segs) by assumption.
    now apply compileText_loop_unclosed.
Qed.

(** The same at a braced name that the map does not hold. *)
Lemma compileText_unknown d m segs lit raw rest source :
  size m <> 0%nat ->
  Forall (segment_ok m) segs ->
  contains_byte "{" lit = false ->
  contains_byte "}" raw = false ->
  raw <> "" ->
  m !! TrimSpace raw = None ->
  compileText (NewAnsiDriver d)
    (Some (mkText (template segs (lit ++ "{" ++ raw ++ "}" ++ rest)) m)) source
  = Err (ErrUnknownParameter (TrimSpace raw)).
Proof.
  intros Hm Hok Hlit Hraw Hne Hp.
  apply (compileText_by_loop d _ m source (2 * length segs + 2)%nat); try assumption.
  - destruct segs as [|[l r] segs]; cbn [template];
      [destruct lit|destruct l]; discriminate.
  - rewrite (compileText_loop_segments d (mkText _ m) segs) by assumption.
    now apply compileText_loop_unknown.
Qed.

(* ===================================================================== *)
(** * Facts about sub-expressions *)
(* ===================================================================== *)

Section FoldrSpec.
Context {E : Type}.

Lemma foldr_ok_acc {X : Type} g (Hg : @foldr_ok E X g) (x : X) (l : list E) :
  g (list E) cons x l = (g (list E) cons x [] ++ l)%list.
Proof.
  rewrite (Hg _ cons x l).
  induction (g (list E) cons x []) as [|c r IH]; simpl; [reflexivity|].
  now rewrite IH.
Qed.

Lemma foldr_ok_one {X : Type} (p : X -> E) :
  foldr_ok (fun A f x a => f (p x) a).
Proof. intros A f x a. reflexivity. Qed.

Lemma foldr_ok_option {X : Type} g :
  @foldr_ok E X g -> foldr_ok (fun A f => option_foldr (g A f)).
Proof. intros Hg A f [x|] a; simpl; [apply Hg|reflexivity]. Qed.

Lemma foldr_ok_list {X : Type} g :
  @foldr_ok E X g -> foldr_ok (fun A f l a => fold_right (g A f) a l).
Proof.
  intros Hg A f l a. induction l as [|x l IH]; simpl; [reflexivity|].
  rewrite (foldr_ok_acc g Hg x), fold_right_app, <- IH. apply Hg.
Qed.

Lemma foldr_ok_field {X Y : Type} (p : X -> Y) g :
  @foldr_ok E Y g -> foldr_ok (fun A f x a => g A f (p x) a).
Proof. intros Hg A f x a. apply Hg. Qed.

Lemma foldr_ok_pair {X : Type} g h :
  @foldr_ok E X g -> @foldr_ok E X h ->
  foldr_ok (fun A f x a => g A f x (h A f x a)).
Proof.
  intros Hg Hh A f x a.
  rewrite (foldr_ok_acc g Hg x), fold_right_app, <- (Hh A f x a). apply Hg.
Qed.
End FoldrSpec.

Lemma Conditions_foldr_ok {E} :
  foldr_ok (fun A f => @Conditions_foldr E A f).
Proof.
  apply (foldr_ok_field (@Conditions_Conditions E)
           (fun A f l a => fold_right f a l)).
  apply (foldr_ok_list (fun A f x a => f x a)). exact (foldr_ok_one (fun x => x)).
Qed.

Lemma Condition_foldr_ok {E} : foldr_ok (fun A f => @Condition_foldr E A f).
Proof.
  apply (foldr_ok_pair (fun A f (c : Condition E) a => f (Condition_Left c) a)
           (fun A f c a => f (Condition_Right c) a));
    apply foldr_ok_one.
Qed.

Lemma Aggregate_foldr_ok {E} : foldr_ok (fun A f => @Aggregate_foldr E A f).
Proof. exact (foldr_ok_one (@Aggregate_Exp E)). Qed.

Lemma Field_foldr_ok {E} : foldr_ok (fun A f => @Field_foldr E A f).
Proof. exact (foldr_ok_one (@Field_Exp E)). Qed.

Lemma Select_foldr_ok {E} : foldr_ok (fun A f => @Select_foldr E A f).
Proof.
  apply (foldr_ok_field (@Select_Fields E)
           (fun A f l a => fold_right (option_foldr (Field_foldr f)) a l)).
  apply (foldr_ok_list (fun A f => option_foldr (Field_foldr f))).
  apply (foldr_ok_option (fun A f => @Field_foldr E A f)), Field_foldr_ok.
Qed.

Lemma Join_foldr_ok {E} : foldr_ok (fun A f => @Join_foldr E A f).
Proof.
  apply (foldr_ok_field (@Join_Conditions E)
           (fun A f => option_foldr (Conditions_foldr f))).
  apply (foldr_ok_option (fun A f => @Conditions_foldr E A f)),
    Conditions_foldr_ok.
Qed.

Lemma From_foldr_ok {E} : foldr_ok (fun A f => @From_foldr E A f).
Proof.
  apply (foldr_ok_field (@From_Joins E)
           (fun A f l a => fold_right (option_foldr (Join_foldr f)) a l)).
  apply (foldr_ok_list (fun A f => option_foldr (Join_foldr f))).
  apply (foldr_ok_option (fun A f => @Join_foldr E A f)), Join_foldr_ok.
Qed.

Lemma Where_foldr_ok {E} : foldr_ok (fun A f => @Where_foldr E A f).
Proof.
  apply (foldr_ok_field (@Where_Conditions E)
           (fun A f => option_foldr (Conditions_foldr f))).
  apply (foldr_ok_option (fun A f => @Conditions_foldr E A f)),
    Conditions_foldr_ok.
Qed.

Lemma Having_foldr_ok {E} : foldr_ok (fun A f => @Having_foldr E A f).
Proof.
  apply (foldr_ok_field (@Having_Conditions E)
           (fun A f => option_foldr (Conditions_foldr f))).
  apply (foldr_ok_option (fun A f => @Conditions_foldr E A f)),
    Conditions_foldr_ok.
Qed.

Lemma GroupBy_foldr_ok {E} : foldr_ok (fun A f => @GroupBy_foldr E A f).
Proof.
  apply (foldr_ok_field (@GroupBy_Fields E) (fun A f l a => fold_right f a l)).
  apply (foldr_ok_list (fun A f x a => f x a)). exact (foldr_ok_one (fun x => x)).
Qed.

Lemma OrderBy_foldr_ok {E} : foldr_ok (fun A f => @OrderBy_foldr E A f).
Proof.
  apply (foldr_ok_field (@OrderBy_Fields E)
           (fun A f l a =>
              fold_right (fun item => f (OrderByField_Exp item)) a l)).
  apply (foldr_ok_list (fun A f (item : OrderByField E) a =>
                          f (OrderByField_Exp item) a)).
  apply foldr_ok_one.
Qed.

Lemma Sets_foldr_ok {E} : foldr_ok (fun A f => @Sets_foldr E A f).
Proof.
  apply (foldr_ok_list (fun A f (set : SetItem E) a => f (Set_Value set) a)).
  apply foldr_ok_one.
Qed.

Lemma option_clause_ok {E X Y : Type} (p : X -> option Y) g :
  @foldr_ok E Y g -> foldr_ok (fun A f x a => option_foldr (g A f) (p x) a).
Proof.
  intros Hg.
  apply (foldr_ok_field p (fun A f => option_foldr (g A f))).
  now apply foldr_ok_option.
Qed.

Lemma Query_foldr_ok {E} : foldr_ok (fun A f => @Query_foldr E A f).
Proof.
  unfold Query_foldr.
  apply (foldr_ok_pair
           (fun A f q a => option_foldr (Select_foldr f) (Query_Select q) a)).
  { apply (option_clause_ok _ (fun A f => @Select_foldr E A f)), Select_foldr_ok. }
  apply (foldr_ok_pair
           (fun A f q a => option_foldr (From_foldr f) (Query_From q) a)).
  { apply (option_clause_ok _ (fun A f => @From_foldr E A f)), From_foldr_ok. }
  apply (foldr_ok_pair
           (fun A f q a => option_foldr (Where_foldr f) (Query_Where q) a)).
  { apply (option_clause_ok _ (fun A f => @Where_foldr E A f)), Where_foldr_ok. }
  apply (foldr_ok_pair
           (fun A f q a => option_foldr (GroupBy_foldr f) (Query_GroupBy q) a)).
  { apply (option_clause_ok _ (fun A f => @GroupBy_foldr E A f)),
      GroupBy_foldr_ok. }
  apply (foldr_ok_pair
           (fun A f q a => option_foldr (Having_foldr f) (Query_Having q) a)).
  { apply (option_clause_ok _ (fun A f => @Having_foldr E A f)),
      Having_foldr_ok. }
  apply (option_clause_ok _ (fun A f => @OrderBy_foldr E A f)), OrderBy_foldr_ok.
Qed.

Lemma Insert_foldr_ok {E} : foldr_ok (fun A f => @Insert_foldr E A f).
Proof.
  apply (foldr_ok_field (@Insert_Sets E) (fun A f => @Sets_foldr E A f)),
    Sets_foldr_ok.
Qed.

Lemma Update_foldr_ok {E} : foldr_ok (fun A f => @Update_foldr E A f).
Proof.
  unfold Update_foldr.
  apply (foldr_ok_pair (fun A f u a => Sets_foldr f (Update_Sets u) a)).
  { apply (foldr_ok_field (@Update_Sets E) (fun A f => @Sets_foldr E A f)),
      Sets_foldr_ok. }
  apply (foldr_ok_pair
           (fun A f u a => option_foldr (Where_foldr f) (Update_Where u) a)).
  { apply (option_clause_ok _ (fun A f => @Where_foldr E A f)), Where_foldr_ok. }
  apply (option_clause_ok _ (fun A f => @OrderBy_foldr E A f)), OrderBy_foldr_ok.
Qed.

Lemma Delete_foldr_ok {E} : foldr_ok (fun A f => @Delete_foldr E A f).
Proof.
  unfold Delete_foldr.
  apply (foldr_ok_pair
           (fun A f d a => option_foldr (Where_foldr f) (Delete_Where d) a)).
  { apply (option_clause_ok _ (fun A f => @Where_foldr E A f)), Where_foldr_ok. }
  apply (option_clause_ok _ (fun A f => @OrderBy_foldr E A f)), OrderBy_foldr_ok.
Qed.

Lemma foldr_children_spec {A : Type} (f : Expression -> A -> A) exp a :
  foldr_children f exp a = fold_right f a (children exp).
Proof.
  unfold children.
  destruct exp; try reflexivity; cbn [foldr_children];
    first [ apply (Query_foldr_ok A f) | apply (Insert_foldr_ok A f)
          | apply (Update_foldr_ok A f) | apply (Delete_foldr_ok A f)
          | apply (Conditions_foldr_ok A f) | apply (Select_foldr_ok A f)
          | apply (From_foldr_ok A f) | apply (Join_foldr_ok A f)
          | apply (Where_foldr_ok A f) | apply (GroupBy_foldr_ok A f)
          | apply (Having_foldr_ok A f) | apply (OrderBy_foldr_ok A f) ].
Qed.

Lemma esize_unfold exp :
  esize exp = S (fold_right (fun c n => (esize c + n)%nat) 0%nat (children exp)).
Proof. rewrite <- foldr_children_spec. destruct exp; reflexivity. Qed.

Lemma esize_children exp c : In c (children exp) -> (esize c < esize exp)%nat.
Proof.
  rewrite (esize_unfold exp).
  generalize (children exp) as l. intros l H.
  induction l as [|x l IH]; cbn [fold_right In] in *; [contradiction|].
  destruct H as [->|H]; [lia|].
  specialize (IH H). lia.
Qed.

(** Induction on the tree: a property that holds for a node whenever it
    holds for its sub-expressions holds for every node. *)
Lemma Expression_children_ind (P : Expression -> Prop) :
  (forall exp, Forall P (children exp) -> P exp) -> forall exp, P exp.
Proof.
  intros Hstep exp.
  remember (esize exp) as n eqn:Hn.
  revert exp Hn. induction n as [n IH] using lt_wf_ind. intros exp Hn.
  apply Hstep. apply List.Forall_forall. intros c Hc.
  apply (IH (esize c)); [|reflexivity].
  subst n. now apply esize_children.
Qed.

Lemma fold_right_flat_map {X Y : Type} (f : X -> list Y) (l : list X) :
  fold_right (fun c acc => (f c ++ acc)%list) [] l = flat_map f l.
Proof. induction l as [|x l IH]; simpl; [reflexivity|now rewrite IH]. Qed.

Lemma fold_right_forallb {X : Type} (f : X -> bool) (l : list X) :
  fold_right (fun c acc => (f c && acc)%bool) true l = forallb f l.
Proof. induction l as [|x l IH]; simpl; [reflexivity|now rewrite IH]. Qed.

Lemma leaves_children exp :
  leaves exp
  = match exp with
    | EValue v => match Value_Value v with GNil => [] | x => [x] end
    | _ => flat_map leaves (children exp)
    end.
Proof.
  destruct exp; cbn [leaves]; try reflexivity;
    rewrite foldr_children_spec; apply fold_right_flat_map.
Qed.

Lemma plain_children exp :
  plain exp = (visits_all exp && forallb plain (children exp))%bool.
Proof.
  destruct exp; cbn [plain]; rewrite foldr_children_spec, fold_right_forallb;
    reflexivity.
Qed.

(** The sub-expressions of a node with optional clauses, clause by
    clause. *)
Section KidsAcc.
Context {E : Type}.
Implicit Types l : list E.

Lemma Select_kids_acc (s : option (Select E)) l :
  option_foldr (Select_foldr cons) s l
  = (option_foldr (Select_foldr cons) s [] ++ l)%list.
Proof.
  apply (foldr_ok_acc (fun A f => option_foldr (Select_foldr f))).
  apply (foldr_ok_option (fun A f => @Select_foldr E A f)), Select_foldr_ok.
Qed.

Lemma From_kids_acc (s : option (From E)) l :
  option_foldr (From_foldr cons) s l
  = (option_foldr (From_foldr cons) s [] ++ l)%list.
Proof.
  apply (foldr_ok_acc (fun A f => option_foldr (From_foldr f))).
  apply (foldr_ok_option (fun A f => @From_foldr E A f)), From_foldr_ok.
Qed.

Lemma Where_kids_acc (s : option (Where E)) l :
  option_foldr (Where_foldr cons) s l
  = (option_foldr (Where_foldr cons) s [] ++ l)%list.
Proof.
  apply (foldr_ok_acc (fun A f => option_foldr (Where_foldr f))).
  apply (foldr_ok_option (fun A f => @Where_foldr E A f)), Where_foldr_ok.
Qed.

Lemma GroupBy_kids_acc (s : option (GroupBy E)) l :
  option_foldr (GroupBy_foldr cons) s l
  = (option_foldr (GroupBy_foldr cons) s [] ++ l)%list.
Proof.
  apply (foldr_ok_acc (fun A f => option_foldr (GroupBy_foldr f))).
  apply (foldr_ok_option (fun A f => @GroupBy_foldr E A f)), GroupBy_foldr_ok.
Qed.

Lemma Having_kids_acc (s : option (Having E)) l :
  option_foldr (Having_foldr cons) s l
  = (option_foldr (Having_foldr cons) s [] ++ l)%list.
Proof.
  apply (foldr_ok_acc (fun A f => option_foldr (Having_foldr f))).
  apply (foldr_ok_option (fun A f => @Having_foldr E A f)), Having_foldr_ok.
Qed.

Lemma Sets_kids_acc (s : list (SetItem E)) l :
  Sets_foldr cons s l = (Sets_foldr cons s [] ++ l)%list.
Proof.
  apply (foldr_ok_acc (fun A f => @Sets_foldr E A f)), Sets_foldr_ok.
Qed.

Lemma Join_kids_acc (s : option (Join E)) l :
  option_foldr (Join_foldr cons) s l
  = (option_foldr (Join_foldr cons) s [] ++ l)%list.
Proof.
  apply (foldr_ok_acc (fun A f => option_foldr (Join_foldr f))).
  apply (foldr_ok_option (fun A f => @Join_foldr E A f)), Join_foldr_ok.
Qed.

Lemma Field_kids_acc (s : option (Field E)) l :
  option_foldr (Field_foldr cons) s l
  = (option_foldr (Field_foldr cons) s [] ++ l)%list.
Proof. destruct s; reflexivity. Qed.
End KidsAcc.

(* ===================================================================== *)
(** * Every visit is framed *)
(* ===================================================================== *)

Lemma glue_assoc sc r1 r2 : glue (glue sc r1) r2 = glue sc (glue r1 r2).
Proof.
  unfold glue. cbn [sc_w sc_args sc_Dialecter sc_source sc_paraIndex
                    sc_placeHolder].
  now rewrite sapp_assoc, app_assoc.
Qed.

Lemma advance_add d k n m :
  advance d (advance d k n) m = advance d k (n + m).
Proof.
  unfold advance. destruct (counts d); [|reflexivity].
  rewrite Nat.add_comm. symmetry. apply Nat.iter_add.
Qed.

Lemma advance_0 d k : advance d k 0 = k.
Proof. unfold advance. now destruct (counts d). Qed.

Lemma framed_skip : framed skip.
Proof.
  intros sc. unfold skip, glue, reset. cbn.
  rewrite sapp_nil_r, app_nil_r, advance_0. now destruct sc.
Qed.

Lemma framed_panic msg : framed (panic msg).
Proof. intros sc. reflexivity. Qed.

Lemma framed_append (t : string) : framed (onWriter (fun w => w ++ t)).
Proof.
  intros sc. unfold onWriter, glue, reset. cbn.
  rewrite app_nil_r, advance_0. auto.
Qed.

Lemma framed_seq (a b : Visit) : framed a -> framed b -> framed (a ;; b)%visit.
Proof.
  intros Ha Hb sc. unfold andThen.
  specialize (Ha sc). destruct (a (reset sc)) as [r1|msg].
  - destruct Ha as [Ea [Hd [Hs [Hp Hk]]]]. rewrite Ea.
    pose proof (Hb r1) as H1. pose proof (Hb (glue sc r1)) as H2.
    change (reset (glue sc r1)) with (reset r1) in H2.
    destruct (b (reset r1)) as [r2|msg].
    + destruct H1 as [E1 [Hd1 [Hs1 [Hp1 Hk1]]]].
      destruct H2 as [E2 _]. rewrite E1, E2, glue_assoc.
      cbn [glue sc_Dialecter sc_source sc_placeHolder sc_paraIndex sc_args].
      repeat split; try congruence.
      rewrite Hk1, Hd, Hk, advance_add, length_app. reflexivity.
    + now rewrite H1, H2.
  - now rewrite Ha.
Qed.

Lemma framed_when (b : bool) (v : Visit) : framed v -> framed (when b v).
Proof. destruct b; [auto|intros _; apply framed_skip]. Qed.

Lemma framed_for_each {A : Type} (body : nat -> A -> Visit) (l : list A) :
  (forall i x, In x l -> framed (body i x)) ->
  forall i, framed (for_each body i l).
Proof.
  induction l as [|x l IH]; intros H i; cbn [for_each].
  - apply framed_skip.
  - apply framed_seq; [apply H; now left|].
    apply IH. intros j y Hy. apply H. now right.
Qed.

Lemma framed_WriteString s : framed (WriteString s).
Proof. exact (framed_append s). Qed.
Lemma framed_Print l : framed (Print l).
Proof. exact (framed_append (String.concat "" l)). Qed.
Lemma framed_PrintSplit split l : framed (PrintSplit split l).
Proof. exact (framed_append (String.concat split l)). Qed.
Lemma framed_Comma : framed Comma.
Proof. exact (framed_append ansi.Comma). Qed.
Lemma framed_Blank : framed Blank.
Proof. exact (framed_append ansi.Blank). Qed.
Lemma framed_LineBreak : framed LineBreak.
Proof. exact (framed_append ansi.LineBreak). Qed.
Lemma framed_OpenParens : framed OpenParens.
Proof. exact (framed_append ansi.OpenParentheses). Qed.
Lemma framed_CloseParens : framed CloseParens.
Proof. exact (framed_append ansi.CloseParentheses). Qed.

Lemma framed_writeQuote s : framed (writeQuote s).
Proof.
  intros sc. unfold writeQuote.
  exact (framed_append (Quote (sc_Dialecter sc) s) sc).
Qed.

Lemma counts_mode d :
  (counts d = false /\ mode_of d = 0)
  \/ (counts d = true /\ (mode_of d = 1 \/ mode_of d = 2)).
Proof.
  unfold counts, mode_of.
  destruct (SupportNamedParameter d), (SupportIndexedParameter d); cbn; auto.
Qed.

(** What [writeValue] does with a value that is not nil. *)
Lemma writeValue_bound (v : GoValue) (sc : StatementCompiler) :
  v <> GNil ->
  writeValue v sc
  = Done {| sc_Dialecter := sc_Dialecter sc; sc_source := sc_source sc;
            sc_w := sc_w sc ++ statement_placeholder (sc_Dialecter sc)
                                 (sc_placeHolder sc)
                                 (int_incr (sc_paraIndex sc));
            sc_args := (sc_args sc ++ [v])%list;
            sc_paraIndex := advance (sc_Dialecter sc) (sc_paraIndex sc) 1;
            sc_placeHolder := sc_placeHolder sc |}.
Proof.
  intros Hv. unfold statement_placeholder, advance.
  destruct (counts_mode (sc_Dialecter sc)) as [[Hc Hm]|[Hc [Hm|Hm]]];
    destruct v; try congruence; unfold writeValue; rewrite Hc, Hm;
    unfold sqlWriter.WriteString; cbn [Nat.iter];
    rewrite ?sapp_nil_r; reflexivity.
Qed.

Lemma framed_writeValue v : framed (writeValue v).
Proof.
  destruct (match v with GNil => true | _ => false end) eqn:E.
  - destruct v; try discriminate. apply framed_WriteString.
  - assert (Hv : v <> GNil) by (intros ->; discriminate).
    intros sc. rewrite !(writeValue_bound v _ Hv).
    unfold glue, reset. cbn. auto.
Qed.

Lemma framed_visitValue v : framed (visitValue v).
Proof.
  destruct v as [v|]; cbn [visitValue]; [|apply framed_WriteString].
  destruct (Value_Value v) eqn:E;
    first [apply framed_WriteString | apply framed_writeValue].
Qed.

Lemma framed_visitColumn c : framed (visitColumn c).
Proof. apply framed_WriteString. Qed.

Lemma framed_visitTable t : framed (visitTable t).
Proof.
  destruct t as [t|]; cbn [visitTable]; [|apply framed_skip].
  repeat match goal with
         | |- framed (if ?b then _ else _) => destruct b
         end;
    first [apply framed_skip | apply framed_Print | apply framed_WriteString].
Qed.

Lemma framed_slice_loop {A : Type} (emit : A -> Visit) (l : list A) :
  (forall x, framed (emit x)) -> framed (slice_loop emit l).
Proof.
  intros H. apply framed_for_each. intros i x _.
  apply framed_seq; [apply framed_when, framed_Comma|apply H].
Qed.

Lemma framed_visitSlice v : framed (visitSlice v).
Proof.
  destruct v; cbn [visitSlice reflect_Indirect reflect_elements];
    try (apply framed_slice_loop; intros x;
         first [apply framed_WriteString | apply framed_writeValue]);
    try apply framed_writeValue.
  destruct target as [x|]; [|apply framed_writeValue].
  destruct x; cbn [reflect_elements];
    first [ apply framed_slice_loop; intros y; apply framed_writeValue
          | apply framed_writeValue ].
Qed.

Create HintDb framed.
#[local] Hint Resolve framed_skip framed_panic framed_seq framed_when
  framed_WriteString framed_Print framed_PrintSplit framed_Comma framed_Blank
  framed_LineBreak framed_OpenParens framed_CloseParens framed_writeQuote
  framed_writeValue framed_visitValue framed_visitColumn framed_visitTable
  framed_visitSlice : framed.

Lemma fold_right_cons_nil {X : Type} (l : list X) : fold_right cons [] l = l.
Proof. induction l as [|x l IH]; simpl; [reflexivity|now rewrite IH]. Qed.

(** The visit of a node is framed when the visits of its sub-expressions
    are. *)
Section FramedNodes.
Variable visit : Expression -> Visit.

Let framed_at (c : Expression) : Prop := framed (visit c).

Lemma framed_visitAggregate a :
  Forall framed_at (option_foldr (Aggregate_foldr cons) a []) ->
  framed (visitAggregate visit a).
Proof.
  destruct a as [a|]; cbn; [|auto with framed].
  intros H. inversion H; subst.
  destruct (_ || _)%bool; auto 10 with framed.
Qed.

Lemma framed_visitIn c :
  Forall framed_at (Condition_foldr cons c []) -> framed (visitIn visit c).
Proof.
  unfold Condition_foldr, visitIn. intros H.
  inversion H as [|? ? Hl H']; subst. inversion H' as [|? ? Hr _]; subst.
  apply framed_seq; [exact Hl|].
  repeat (apply framed_seq; auto with framed).
  destruct (Condition_Right c); auto with framed.
  destruct (Value_Value v); auto with framed.
Qed.

Lemma framed_visitCondition c :
  Forall framed_at (option_foldr (Condition_foldr cons) c []) ->
  framed (visitCondition visit c).
Proof.
  destruct c as [c|]; cbn [option_foldr visitCondition]; [|auto with framed].
  intros H. pose proof (framed_visitIn c H) as Hin.
  unfold Condition_foldr in H.
  inversion H as [|? ? Hl H']; subst. inversion H' as [|? ? Hr _]; subst.
  repeat match goal with
         | |- framed (if ?b then _ else _) => destruct b
         end; auto 10 with framed.
Qed.

Lemma framed_visitConditions_loop l :
  Forall framed_at l -> forall i deep, framed (visitConditions_loop visit i deep l).
Proof.
  induction 1 as [|item l Hitem Hl IH]; intros i deep;
    cbn [visitConditions_loop]; [auto with framed|].
  destruct (is_nil item); [apply IH|].
  repeat (apply framed_seq; auto with framed).
Qed.

Lemma Forall_kids_list {X : Type} (g : X -> list Expression -> list Expression)
    (P : Expression -> Prop) (l : list X) :
  (forall x k, g x k = (g x [] ++ k)%list) ->
  Forall P (fold_right g [] l) ->
  forall x, In x l -> Forall P (g x []).
Proof.
  intros Hacc. induction l as [|y l IH]; cbn [fold_right In]; [contradiction|].
  rewrite Hacc. intros H x [->|Hx].
  - apply Forall_app in H. tauto.
  - apply Forall_app in H. apply IH; tauto.
Qed.

Lemma framed_visitConditions c :
  Forall framed_at (option_foldr (Conditions_foldr cons) c []) ->
  framed (visitConditions visit c).
Proof.
  destruct c as [c|]; cbn [option_foldr visitConditions]; [|auto with framed].
  unfold Conditions_foldr.
  rewrite (fold_right_cons_nil (Conditions_Conditions c)).
  intros H. apply framed_seq; [|auto with framed].
  now apply framed_visitConditions_loop.
Qed.

Lemma framed_visitJoin j :
  Forall framed_at (option_foldr (Join_foldr cons) j []) ->
  framed (visitJoin visit j).
Proof.
  destruct j as [j|]; cbn [option_foldr visitJoin]; [|auto with framed].
  unfold Join_foldr. intros H.
  repeat (apply framed_seq; auto with framed).
  destruct (Join_Conditions j) as [cs|]; [|auto with framed].
  cbn [option_foldr] in H. unfold Conditions_foldr in H.
  rewrite fold_right_cons_nil in H.
  apply framed_when, framed_seq; [auto with framed|].
  apply framed_for_each. intros i x Hx.
  rewrite List.Forall_forall in H.
  repeat (apply framed_seq; auto with framed). now apply H.
Qed.

Lemma framed_visitFrom f :
  Forall framed_at (option_foldr (From_foldr cons) f []) ->
  framed (visitFrom visit f).
Proof.
  destruct f as [f|]; cbn [option_foldr visitFrom]; [|auto with framed].
  unfold From_foldr. intros H.
  apply framed_seq; [auto with framed|].
  apply framed_seq; [destruct (From_Table f); auto with framed|].
  apply framed_seq.
  { apply framed_for_each. intros i x _. auto with framed. }
  apply framed_seq; [|auto with framed].
  apply framed_for_each. intros i x Hx.
  apply framed_seq; [auto with framed|].
  apply framed_visitJoin.
  exact (Forall_kids_list _ _ _ Join_kids_acc H x Hx).
Qed.

Lemma framed_visitWhere w :
  Forall framed_at (option_foldr (Where_foldr cons) w []) ->
  framed (visitWhere visit w).
Proof.
  destruct w as [w|]; cbn [option_foldr visitWhere]; [|auto with framed].
  unfold Where_foldr. intros H.
  destruct (Where_isEmpty w); [auto with framed|].
  apply framed_seq; [auto with framed|]. now apply framed_visitConditions.
Qed.

Lemma framed_visitHaving h :
  Forall framed_at (option_foldr (Having_foldr cons) h []) ->
  framed (visitHaving visit h).
Proof.
  destruct h as [h|]; cbn [option_foldr visitHaving]; [|auto with framed].
  unfold Having_foldr. intros H.
  destruct (Conditions_isEmpty _); [auto with framed|].
  apply framed_seq; [auto with framed|]. now apply framed_visitConditions.
Qed.

Lemma framed_visitField f :
  Forall framed_at (option_foldr (Field_foldr cons) f []) ->
  framed (visitField visit f).
Proof.
  destruct f as [f|]; cbn [option_foldr visitField]; [|auto with framed].
  unfold Field_foldr. intros H. inversion H; subst.
  auto 10 with framed.
Qed.

Lemma framed_visitSelect s :
  Forall framed_at (option_foldr (Select_foldr cons) s []) ->
  framed (visitSelect visit s).
Proof.
  destruct s as [s|]; cbn [option_foldr visitSelect]; [|auto with framed].
  unfold Select_foldr. intros H.
  destruct (Select_Fields s) as [|f0 fields] eqn:E; [auto with framed|].
  rewrite <- E. rewrite <- E in H. clear E.
  apply framed_seq; [|auto with framed].
  apply framed_for_each. intros i x Hx.
  apply framed_seq; [auto with framed|].
  apply framed_visitField.
  exact (Forall_kids_list _ _ _ Field_kids_acc H x Hx).
Qed.

Lemma framed_visitGroupBy g :
  Forall framed_at (option_foldr (GroupBy_foldr cons) g []) ->
  framed (visitGroupBy visit g).
Proof.
  destruct g as [g|]; cbn [option_foldr visitGroupBy]; [|auto with framed].
  unfold GroupBy_foldr. rewrite fold_right_cons_nil. intros H.
  destruct (GroupBy_Fields g) as [|f0 fields] eqn:E; [auto with framed|].
  rewrite <- E. rewrite <- E in H. clear E.
  repeat (apply framed_seq; auto with framed).
  apply framed_for_each. intros i x Hx.
  rewrite List.Forall_forall in H.
  apply framed_seq; [auto with framed|]. now apply H.
Qed.

Lemma framed_visitOrderBy o :
  Forall framed_at (option_foldr (OrderBy_foldr cons) o []) ->
  framed (visitOrderBy visit o).
Proof.
  destruct o as [o|]; cbn [option_foldr visitOrderBy]; [|auto with framed].
  unfold OrderBy_foldr. intros H.
  destruct (OrderBy_Fields o) as [|f0 fields] eqn:E; [auto with framed|].
  rewrite <- E. rewrite <- E in H. clear E.
  repeat (apply framed_seq; auto with framed).
  apply framed_for_each. intros i x Hx.
  assert (Hx' := Forall_kids_list
                   (fun item => cons (OrderByField_Exp item)) _ _
                   (fun _ _ => eq_refl) H x Hx).
  inversion Hx'; subst.
  repeat (apply framed_seq; auto with framed).
Qed.

Lemma framed_Sets_values (body : nat -> SetItem Expression -> Visit) sets :
  (forall i set, framed_at (Set_Value set) -> framed (body i set)) ->
  Forall framed_at (Sets_foldr cons sets []) ->
  framed (for_each body 0 sets).
Proof.
  intros Hbody H. apply framed_for_each. intros i x Hx. apply Hbody.
  assert (Hx' := Forall_kids_list
                   (fun set => cons (Set_Value set)) _ _
                   (fun _ _ => eq_refl) H x Hx).
  now inversion Hx'.
Qed.

Lemma framed_visitQuery q :
  Forall framed_at (Query_foldr cons q []) -> framed (visitQuery visit q).
Proof.
  unfold Query_foldr, visitQuery. intros H.
  rewrite Select_kids_acc, From_kids_acc, Where_kids_acc, GroupBy_kids_acc,
    Having_kids_acc in H.
  repeat (apply Forall_app in H; destruct H as [? H]).
  repeat (apply framed_seq;
          auto 6 using framed_visitSelect, framed_visitFrom, framed_visitWhere,
            framed_visitGroupBy, framed_visitHaving, framed_visitOrderBy
            with framed).
Qed.

Lemma framed_visitInsert i :
  Forall framed_at (Insert_foldr cons i []) -> framed (visitInsert visit i).
Proof.
  unfold Insert_foldr, visitInsert. intros H.
  repeat (apply framed_seq; auto with framed).
  - apply framed_for_each. intros; auto with framed.
  - apply framed_Sets_values; [|assumption]. intros; auto with framed.
Qed.

Lemma framed_visitUpdate u :
  Forall framed_at (Update_foldr cons u []) -> framed (visitUpdate visit u).
Proof.
  unfold Update_foldr, visitUpdate. intros H.
  rewrite Sets_kids_acc, Where_kids_acc in H.
  repeat (apply Forall_app in H; destruct H as [? H]).
  repeat (apply framed_seq;
          auto 6 using framed_visitWhere, framed_visitOrderBy with framed).
  apply framed_Sets_values; [|assumption]. intros; auto 6 with framed.
Qed.

Lemma framed_visitDelete d :
  Forall framed_at (Delete_foldr cons d []) -> framed (visitDelete visit d).
Proof.
  unfold Delete_foldr, visitDelete. intros H.
  rewrite Where_kids_acc in H.
  repeat (apply Forall_app in H; destruct H as [? H]).
  repeat (apply framed_seq;
          auto 6 using framed_visitWhere, framed_visitOrderBy with framed).
Qed.
End FramedNodes.

(** Every visit of the compiler is framed. *)
Lemma framed_visitExp exp : framed (visitExp exp).
Proof.
  induction exp as [exp IH] using Expression_children_ind.
  unfold children in IH.
  destruct exp; cbn [visitExp foldr_children] in *;
    first [ apply framed_skip | apply framed_panic | apply framed_WriteString
          | apply framed_visitValue | apply framed_visitTable
          | apply framed_visitColumn
          | now apply framed_visitQuery | now apply framed_visitInsert
          | now apply framed_visitUpdate | now apply framed_visitDelete
          | now apply framed_visitCondition | now apply framed_visitAggregate
          | now apply framed_visitSelect | now apply framed_visitFrom
          | now apply framed_visitJoin | now apply framed_visitWhere
          | now apply framed_visitGroupBy | now apply framed_visitHaving
          | now apply framed_visitOrderBy ].
Qed.

(* ===================================================================== *)
(** * The arguments a plain tree binds *)
(* ===================================================================== *)

Lemma binds_eq (v : Visit) l l' : binds v l -> l = l' -> binds v l'.
Proof. now intros H <-. Qed.

Lemma binds_skip : binds skip [].
Proof. intros sc. exists sc. now rewrite app_nil_r. Qed.

Lemma binds_onWriter f : binds (onWriter f) [].
Proof.
  intros sc. eexists. split; [reflexivity|]. cbn. now rewrite app_nil_r.
Qed.

Lemma binds_writeQuote s : binds (writeQuote s) [].
Proof. intros sc. apply (binds_onWriter _ sc). Qed.

Lemma binds_seq (a b : Visit) l1 l2 :
  binds a l1 -> binds b l2 -> binds (a ;; b)%visit (l1 ++ l2).
Proof.
  intros Ha Hb sc. unfold andThen.
  destruct (Ha sc) as [sc1 [E1 A1]]. rewrite E1.
  destruct (Hb sc1) as [sc2 [E2 A2]]. exists sc2.
  split; [exact E2|]. now rewrite A2, A1, app_assoc.
Qed.

Lemma binds_seq_nil_l (a b : Visit) l :
  binds a [] -> binds b l -> binds (a ;; b)%visit l.
Proof. intros Ha Hb. exact (binds_seq a b [] l Ha Hb). Qed.

Lemma binds_seq_nil_r (a b : Visit) l :
  binds a l -> binds b [] -> binds (a ;; b)%visit l.
Proof.
  intros Ha Hb. apply (binds_eq _ (l ++ [])); [now apply binds_seq|].
  apply app_nil_r.
Qed.

Lemma binds_when (b : bool) (v : Visit) : binds v [] -> binds (when b v) [].
Proof. destruct b; [auto|intros _; apply binds_skip]. Qed.

Lemma binds_for_each_nil {A : Type} (body : nat -> A -> Visit) (l : list A) :
  (forall i x, binds (body i x) []) -> forall i, binds (for_each body i l) [].
Proof.
  intros H. induction l as [|x l IH]; intros i; cbn [for_each].
  - apply binds_skip.
  - apply binds_seq_nil_l; auto.
Qed.

Lemma binds_writeValue v :
  binds (writeValue v) (match v with GNil => [] | x => [x] end).
Proof.
  destruct (match v with GNil => true | _ => false end) eqn:E.
  - destruct v; try discriminate. apply binds_onWriter.
  - assert (Hv : v <> GNil) by (intros ->; discriminate).
    intros sc. rewrite (writeValue_bound v sc Hv). eexists.
    split; [reflexivity|]. cbn. now destruct v.
Qed.

Lemma binds_writeValue_bound v : v <> GNil -> binds (writeValue v) [v].
Proof.
  intros Hv. apply (binds_eq _ _ _ (binds_writeValue v)).
  destruct v; congruence.
Qed.

Lemma binds_visitValue v : binds (visitValue (Some v)) (leaves (EValue v)).
Proof.
  cbn [visitValue leaves].
  destruct (Value_Value v) eqn:E; cbv iota beta;
    first [apply binds_onWriter | apply binds_writeValue_bound; discriminate].
Qed.

Lemma binds_visitTable t : binds (visitTable t) [].
Proof.
  destruct t as [t|]; cbn [visitTable]; [|apply binds_skip].
  repeat match goal with
         | |- binds (if ?b then _ else _) _ => destruct b
         end;
    first [apply binds_skip | apply binds_onWriter].
Qed.

(** A literal that is not a sequence is bound as it is, also at the right
    of [IN]. *)
Lemma visitSlice_scalar v :
  is_sequence v = false -> visitSlice v = writeValue v.
Proof.
  unfold is_sequence. destruct v; cbn; try discriminate; try reflexivity.
  destruct target as [x|]; [|reflexivity].
  destruct (reflect_elements x); [discriminate|reflexivity].
Qed.

Create HintDb binds.
#[local] Hint Resolve binds_skip binds_onWriter binds_writeQuote binds_when
  binds_visitTable binds_seq_nil_l : binds.
#[local] Hint Extern 1 (binds (WriteString _) []) => apply binds_onWriter : binds.
#[local] Hint Extern 1 (binds (Print _) []) => apply binds_onWriter : binds.
#[local] Hint Extern 1 (binds (PrintSplit _ _) []) => apply binds_onWriter : binds.
#[local] Hint Extern 1 (binds Comma []) => apply binds_onWriter : binds.
#[local] Hint Extern 1 (binds Blank []) => apply binds_onWriter : binds.
#[local] Hint Extern 1 (binds LineBreak []) => apply binds_onWriter : binds.
#[local] Hint Extern 1 (binds OpenParens []) => apply binds_onWriter : binds.
#[local] Hint Extern 1 (binds CloseParens []) => apply binds_onWriter : binds.
#[local] Hint Extern 1 (binds (visitColumn _) []) => apply binds_onWriter : binds.

Ltac bnil := solve [auto with binds].

Section BindsNodes.
Variable visit : Expression -> Visit.

Let binds_at (c : Expression) : Prop := binds (visit c) (leaves c).

(** A loop over the nodes [l], each with the sub-expressions [g x]. *)
Lemma binds_for_each_kids {X : Type}
    (g : X -> list Expression -> list Expression)
    (body : nat -> X -> Visit) (l : list X) :
  (forall x k, g x k = (g x [] ++ k)%list) ->
  (forall i x, In x l -> Forall binds_at (g x []) ->
               binds (body i x) (flat_map leaves (g x []))) ->
  Forall binds_at (fold_right g [] l) ->
  forall i, binds (for_each body i l) (flat_map leaves (fold_right g [] l)).
Proof.
  intros Hacc. induction l as [|x l IH]; intros Hbody H i;
    cbn [for_each fold_right].
  - apply binds_skip.
  - cbn [fold_right] in H. rewrite Hacc in H. apply Forall_app in H.
    destruct H as [Hx Hl]. rewrite Hacc, flat_map_app.
    apply binds_seq.
    + apply Hbody; [now left|assumption].
    + apply IH; [|assumption]. intros j y Hy. apply Hbody. now right.
Qed.

Lemma binds_visitAggregate a :
  visits_all (EAggregate a) = true ->
  Forall binds_at (Aggregate_foldr cons a []) ->
  binds (visitAggregate visit (Some a))
    (flat_map leaves (Aggregate_foldr cons a [])).
Proof.
  cbn [visits_all visitAggregate]. unfold Aggregate_foldr.
  intros Hname H. inversion H as [|? ? He _]; subst.
  cbn [flat_map]. rewrite app_nil_r.
  destruct (String.eqb (Aggregate_Name a) ""); [discriminate|].
  rewrite orb_false_r.
  destruct (Aggregate_Exp a) eqn:E; cbn [is_nil];
    try apply binds_skip;
    do 2 (apply binds_seq_nil_l; [bnil|]);
    (apply binds_seq_nil_r; [exact He|bnil]).
Qed.

Lemma binds_visitIn c :
  visits_all (ECondition c) = true ->
  is_in_list c = true ->
  Forall binds_at (Condition_foldr cons c []) ->
  binds (visitIn visit c) (flat_map leaves (Condition_foldr cons c [])).
Proof.
  cbn [visits_all]. unfold Condition_foldr, visitIn.
  intros Hok Hin H.
  inversion H as [|? ? Hl H']; subst. inversion H' as [|? ? Hr _]; subst.
  cbn [flat_map]. rewrite app_nil_r.
  apply binds_seq; [exact Hl|].
  do 2 (apply binds_seq_nil_l; [bnil|]).
  apply binds_seq_nil_r; [|bnil].
  destruct (Condition_Right c) eqn:E; try exact Hr.
  rewrite Hin in Hok. cbn [andb] in Hok. apply negb_true_iff in Hok.
  cbn [leaves].
  destruct (Value_Value v) eqn:Ev; cbv iota beta;
    first [ apply binds_skip
          | rewrite (visitSlice_scalar _ Hok);
            apply binds_writeValue_bound; discriminate ].
Qed.

Lemma binds_visitCondition c :
  visits_all (ECondition c) = true ->
  Forall binds_at (Condition_foldr cons c []) ->
  binds (visitCondition visit (Some c))
    (flat_map leaves (Condition_foldr cons c [])).
Proof.
  intros Hok H. pose proof (binds_visitIn c Hok) as Hin.
  unfold is_in_list in Hin. cbn [visitCondition]. cbv zeta.
  unfold Condition_foldr in *.
  inversion H as [|? ? Hl H']; subst. inversion H' as [|? ? Hr _]; subst.
  cbn [flat_map] in *. rewrite app_nil_r in *.
  assert (Hnil : forall e, is_nil e = true -> leaves e = []).
  { intros e He. destruct e; try discriminate. reflexivity. }
  destruct (is_nil (Condition_Right c)) eqn:Er;
    destruct (is_nil (Condition_Left c)) eqn:El; cbn [andb negb] in *.
  - rewrite (Hnil _ Er), (Hnil _ El). cbn [app]. bnil.
  - rewrite (Hnil _ Er), app_nil_r.
    apply binds_seq_nil_r; [exact Hl|bnil].
  - rewrite (Hnil _ El). cbn [app].
    apply binds_seq_nil_l; [bnil|].
    apply binds_seq_nil_r; [exact Hr|bnil].
  - destruct (_ || _)%bool; [now apply Hin|].
    apply binds_seq; [exact Hl|].
    apply binds_seq_nil_l; [bnil|exact Hr].
Qed.

Lemma binds_visitConditions_loop l :
  Forall binds_at l ->
  forall i deep,
    binds (visitConditions_loop visit i deep l) (flat_map leaves l).
Proof.
  induction 1 as [|item l Hitem Hl IH]; intros i deep;
    cbn [visitConditions_loop flat_map]; [apply binds_skip|].
  destruct (is_nil item) eqn:E.
  - destruct item; try discriminate. apply IH.
  - do 2 (apply binds_seq_nil_l; [bnil|]).
    apply binds_seq; [exact Hitem|apply IH].
Qed.

Lemma binds_visitConditions c :
  Forall binds_at (option_foldr (Conditions_foldr cons) c []) ->
  binds (visitConditions visit c)
    (flat_map leaves (option_foldr (Conditions_foldr cons) c [])).
Proof.
  destruct c as [c|]; cbn [option_foldr visitConditions flat_map];
    [|intros _; apply binds_skip].
  unfold Conditions_foldr. rewrite fold_right_cons_nil. intros H.
  apply binds_seq_nil_r; [|bnil].
  now apply binds_visitConditions_loop.
Qed.

Lemma isEmpty_kids (c : option (Conditions Expression)) :
  Conditions_isEmpty c = true ->
  option_foldr (Conditions_foldr cons) c [] = [].
Proof.
  destruct c as [c|]; cbn; [|reflexivity].
  unfold Conditions_foldr. now destruct (Conditions_Conditions c).
Qed.

Lemma binds_visitJoin j :
  Forall binds_at (option_foldr (Join_foldr cons) j []) ->
  binds (visitJoin visit j)
    (flat_map leaves (option_foldr (Join_foldr cons) j [])).
Proof.
  destruct j as [j|]; cbn [option_foldr visitJoin flat_map];
    [|intros _; apply binds_skip].
  unfold Join_foldr. intros H.
  do 4 (apply binds_seq_nil_l; [bnil|]).
  destruct (Join_Conditions j) as [cs|] eqn:E; [|apply binds_skip].
  destruct (Conditions_isEmpty (Some cs)) eqn:Ee.
  - rewrite (isEmpty_kids _ Ee). apply binds_skip.
  - cbn [negb when option_foldr] in *.
    apply binds_seq_nil_l; [bnil|].
    unfold Conditions_foldr in *.
    apply (binds_for_each_kids cons); auto.
    intros i x _ Hx. inversion Hx; subst. cbn [flat_map].
    rewrite app_nil_r.
    apply binds_seq_nil_l; [bnil|].
    apply binds_seq_nil_r; auto with binds.
Qed.

Lemma binds_visitFrom f :
  Forall binds_at (option_foldr (From_foldr cons) f []) ->
  binds (visitFrom visit f)
    (flat_map leaves (option_foldr (From_foldr cons) f [])).
Proof.
  destruct f as [f|]; cbn [option_foldr visitFrom flat_map];
    [|intros _; apply binds_skip].
  unfold From_foldr. intros H.
  apply binds_seq_nil_l; [bnil|].
  apply binds_seq_nil_l; [destruct (From_Table f); auto with binds|].
  apply binds_seq_nil_l.
  { apply binds_for_each_nil. intros i x. auto with binds. }
  apply binds_seq_nil_r; [|bnil].
  apply (binds_for_each_kids (option_foldr (Join_foldr cons)));
    [apply Join_kids_acc| |assumption].
  intros i x _ Hx. apply binds_seq_nil_l; [bnil|].
  now apply binds_visitJoin.
Qed.

Lemma binds_visitWhere w :
  Forall binds_at (option_foldr (Where_foldr cons) w []) ->
  binds (visitWhere visit w)
    (flat_map leaves (option_foldr (Where_foldr cons) w [])).
Proof.
  destruct w as [w|]; cbn [option_foldr visitWhere flat_map];
    [|intros _; apply binds_skip].
  unfold Where_foldr, Where_isEmpty. intros H.
  destruct (Conditions_isEmpty (Where_Conditions w)) eqn:E.
  - rewrite (isEmpty_kids _ E). apply binds_skip.
  - apply binds_seq_nil_l; [bnil|].
    now apply binds_visitConditions.
Qed.

Lemma binds_visitHaving h :
  Forall binds_at (option_foldr (Having_foldr cons) h []) ->
  binds (visitHaving visit h)
    (flat_map leaves (option_foldr (Having_foldr cons) h [])).
Proof.
  destruct h as [h|]; cbn [option_foldr visitHaving flat_map];
    [|intros _; apply binds_skip].
  unfold Having_foldr. intros H.
  destruct (Conditions_isEmpty (Having_Conditions h)) eqn:E.
  - rewrite (isEmpty_kids _ E). apply binds_skip.
  - apply binds_seq_nil_l; [bnil|].
    now apply binds_visitConditions.
Qed.

Lemma binds_visitField f :
  Forall binds_at (option_foldr (Field_foldr cons) f []) ->
  binds (visitField visit f)
    (flat_map leaves (option_foldr (Field_foldr cons) f [])).
Proof.
  destruct f as [f|]; cbn [option_foldr visitField flat_map];
    [|intros _; apply binds_skip].
  unfold Field_foldr. intros H. inversion H; subst.
  cbn [flat_map]. rewrite app_nil_r. apply binds_seq_nil_r; [assumption|].
  apply binds_when. bnil.
Qed.

Lemma binds_visitSelect s :
  Forall binds_at (option_foldr (Select_foldr cons) s []) ->
  binds (visitSelect visit s)
    (flat_map leaves (option_foldr (Select_foldr cons) s [])).
Proof.
  destruct s as [s|]; cbn [option_foldr visitSelect flat_map];
    [|intros _; auto with binds].
  unfold Select_foldr. intros H.
  destruct (Select_Fields s) as [|f0 fields] eqn:E;
    [cbn [fold_right flat_map]; bnil|].
  rewrite <- E. rewrite <- E in H. clear E.
  apply binds_seq_nil_r; [|bnil].
  apply (binds_for_each_kids (option_foldr (Field_foldr cons)));
    [apply Field_kids_acc| |assumption].
  intros i x _ Hx. apply binds_seq_nil_l; [bnil|].
  now apply binds_visitField.
Qed.

Lemma binds_visitGroupBy g :
  Forall binds_at (option_foldr (GroupBy_foldr cons) g []) ->
  binds (visitGroupBy visit g)
    (flat_map leaves (option_foldr (GroupBy_foldr cons) g [])).
Proof.
  destruct g as [g|]; cbn [option_foldr visitGroupBy flat_map];
    [|intros _; apply binds_skip].
  unfold GroupBy_foldr. intros H.
  destruct (GroupBy_Fields g) as [|f0 fields] eqn:E; [apply binds_skip|].
  rewrite <- E. rewrite <- E in H. clear E.
  do 3 (apply binds_seq_nil_l; [bnil|]).
  apply binds_seq_nil_r; [|bnil].
  apply (binds_for_each_kids cons); auto.
  intros i x _ Hx. inversion Hx; subst. cbn [flat_map]. rewrite app_nil_r.
  apply binds_seq_nil_l; auto with binds.
Qed.

Lemma binds_visitOrderBy o :
  Forall binds_at (option_foldr (OrderBy_foldr cons) o []) ->
  binds (visitOrderBy visit o)
    (flat_map leaves (option_foldr (OrderBy_foldr cons) o [])).
Proof.
  destruct o as [o|]; cbn [option_foldr visitOrderBy flat_map];
    [|intros _; apply binds_skip].
  unfold OrderBy_foldr. intros H.
  destruct (OrderBy_Fields o) as [|f0 fields] eqn:E; [apply binds_skip|].
  rewrite <- E. rewrite <- E in H. clear E.
  do 3 (apply binds_seq_nil_l; [bnil|]).
  apply binds_seq_nil_r; [|bnil].
  apply (binds_for_each_kids (fun item => cons (OrderByField_Exp item)));
    auto.
  intros i x _ Hx. inversion Hx; subst. cbn [flat_map]. rewrite app_nil_r.
  apply binds_seq_nil_l; [bnil|].
  apply binds_seq_nil_r; [assumption|].
  apply binds_seq_nil_l; auto with binds.
Qed.

Lemma binds_Sets_values (body : nat -> SetItem Expression -> Visit) sets :
  (forall i set, binds_at (Set_Value set) ->
                 binds (body i set) (leaves (Set_Value set))) ->
  Forall binds_at (Sets_foldr cons sets []) ->
  binds (for_each body 0 sets) (flat_map leaves (Sets_foldr cons sets [])).
Proof.
  intros Hbody H.
  apply (binds_for_each_kids (fun set => cons (Set_Value set))); auto.
  intros i x _ Hx. inversion Hx; subst. cbn [flat_map]. rewrite app_nil_r.
  now apply Hbody.
Qed.
Lemma binds_visitQuery q :
  visits_all (EQuery q) = true ->
  Forall binds_at (Query_foldr cons q []) ->
  binds (visitQuery visit q) (flat_map leaves (Query_foldr cons q [])).
Proof.
  cbn [visits_all]. unfold Query_foldr, visitQuery. intros Hok H.
  rewrite Select_kids_acc, From_kids_acc, Where_kids_acc, GroupBy_kids_acc,
    Having_kids_acc in *.
  repeat (apply Forall_app in H; destruct H as [? H]).
  rewrite !flat_map_app.
  do 2 (apply binds_seq_nil_l; [bnil|]).
  apply binds_seq_nil_l; [apply binds_when; bnil|].
  apply binds_seq; [now apply binds_visitSelect|].
  apply binds_seq; [now apply binds_visitFrom|].
  apply binds_seq; [now apply binds_visitWhere|].
  apply binds_seq; [now apply binds_visitGroupBy|].
  apply binds_seq.
  { destruct (groupBy_present (Query_GroupBy q)); cbn [when orb] in *.
    - now apply binds_visitHaving.
    - destruct (Query_Having q) as [h|]; cbn [option_foldr flat_map];
        [|apply binds_skip].
      unfold Having_foldr. rewrite (isEmpty_kids _ Hok). apply binds_skip. }
  apply binds_seq_nil_r; [now apply binds_visitOrderBy|].
  apply binds_seq_nil_l; [apply binds_when; bnil|bnil].
Qed.

Lemma binds_visitInsert i :
  Forall binds_at (Insert_foldr cons i []) ->
  binds (visitInsert visit i) (flat_map leaves (Insert_foldr cons i [])).
Proof.
  unfold Insert_foldr, visitInsert. intros H.
  do 2 (apply binds_seq_nil_l; [bnil|]).
  apply binds_seq_nil_l.
  { apply binds_for_each_nil. intros j x. bnil. }
  do 4 (apply binds_seq_nil_l; [bnil|]).
  apply binds_seq_nil_r; [|bnil].
  apply binds_Sets_values; [|assumption].
  intros j set Hset. apply binds_seq_nil_l; [bnil|exact Hset].
Qed.

Lemma binds_visitUpdate u :
  Forall binds_at (Update_foldr cons u []) ->
  binds (visitUpdate visit u) (flat_map leaves (Update_foldr cons u [])).
Proof.
  unfold Update_foldr, visitUpdate. intros H.
  rewrite Sets_kids_acc, Where_kids_acc in *.
  repeat (apply Forall_app in H; destruct H as [? H]).
  rewrite !flat_map_app.
  apply binds_seq_nil_l; [bnil|].
  apply binds_seq.
  { apply binds_Sets_values; [|assumption].
    intros j set Hset. do 3 (apply binds_seq_nil_l; [bnil|]). exact Hset. }
  apply binds_seq; [now apply binds_visitWhere|].
  apply binds_seq_nil_r; [now apply binds_visitOrderBy|].
  apply binds_seq_nil_l; [apply binds_when; bnil|bnil].
Qed.

Lemma binds_visitDelete d :
  Forall binds_at (Delete_foldr cons d []) ->
  binds (visitDelete visit d) (flat_map leaves (Delete_foldr cons d [])).
Proof.
  unfold Delete_foldr, visitDelete. intros H.
  rewrite Where_kids_acc in *.
  repeat (apply Forall_app in H; destruct H as [? H]).
  rewrite !flat_map_app.
  apply binds_seq_nil_l; [bnil|].
  apply binds_seq; [now apply binds_visitWhere|].
  apply binds_seq_nil_r; [now apply binds_visitOrderBy|].
  apply binds_seq_nil_l; [apply binds_when; bnil|bnil].
Qed.
End BindsNodes.

(** The visit of a plain tree returns and binds the literals of the tree,
    in pre-order. *)
Lemma binds_visitExp exp :
  plain exp = true -> binds (visitExp exp) (leaves exp).
Proof.
  induction exp as [exp IH] using Expression_children_ind.
  intros Hp. rewrite plain_children in Hp.
  apply andb_true_iff in Hp. destruct Hp as [Hv Hk].
  assert (H : Forall (fun c => binds (visitExp c) (leaves c)) (children exp)).
  { rewrite forallb_forall in Hk. rewrite List.Forall_forall in *.
    intros c Hc. apply IH; auto. }
  clear IH Hk. rewrite leaves_children. unfold children in *.
  destruct exp; cbn [visitExp foldr_children flat_map] in *;
    try discriminate;
    first [ apply binds_skip | apply binds_onWriter | apply binds_visitTable
          | apply binds_visitValue
          | now apply binds_visitQuery | now apply binds_visitInsert
          | now apply binds_visitUpdate | now apply binds_visitDelete
          | now apply binds_visitCondition | now apply binds_visitAggregate
          | now apply (binds_visitSelect _ (Some _))
          | now apply (binds_visitFrom _ (Some _))
          | now apply (binds_visitJoin _ (Some _))
          | now apply (binds_visitWhere _ (Some _))
          | now apply (binds_visitGroupBy _ (Some _))
          | now apply (binds_visitHaving _ (Some _))
          | now apply (binds_visitOrderBy _ (Some _)) ].
Qed.

(* ===================================================================== *)
(** * Reading the result of a visit *)
(* ===================================================================== *)

Lemma andThen_done (a b : Visit) sc sc' :
  (a ;; b)%visit sc = Done sc' -> exists s, a sc = Done s /\ b s = Done sc'.
Proof.
  unfold andThen. destruct (a sc) as [s|msg]; [|discriminate].
  intros H. now exists s.
Qed.

Lemma andThen_step (a b : Visit) sc s :
  a sc = Done s -> (a ;; b)%visit sc = b s.
Proof. unfold andThen. now intros ->. Qed.

Lemma andThen_done3 (a b c k : Visit) sc sc' :
  (a ;; b ;; c ;; k)%visit sc = Done sc' ->
  exists s, (a ;; b ;; c)%visit sc = Done s /\ k s = Done sc'.
Proof.
  unfold andThen. destruct (a sc) as [s1|]; [|discriminate].
  destruct (b s1) as [s2|]; [|discriminate].
  destruct (c s2) as [s3|]; [|discriminate].
  intros H. now exists s3.
Qed.

Lemma WriteString_wrote (t : string) sc : WriteString t sc = Done (wrote sc t).
Proof. reflexivity. Qed.

Lemma onWriter_wrote (t : string) sc :
  onWriter (fun w => w ++ t) sc = Done (wrote sc t).
Proof. reflexivity. Qed.

Lemma wrote_wrote sc t u : wrote (wrote sc t) u = wrote sc (t ++ u).
Proof. unfold wrote. cbn. now rewrite sapp_assoc. Qed.

Lemma wrote_nil sc : wrote sc "" = sc.
Proof. unfold wrote. rewrite sapp_nil_r. now destruct sc. Qed.

(** A framed visit that returns has appended the text it emits. *)
Lemma framed_emitted (v : Visit) sc sc' :
  framed v -> v sc = Done sc' ->
  sc_w sc' = sc_w sc ++ emitted v sc
  /\ sc_Dialecter sc' = sc_Dialecter sc
  /\ sc_placeHolder sc' = sc_placeHolder sc
  /\ exists l, sc_args sc' = (sc_args sc ++ l)%list
               /\ sc_paraIndex sc'
                  = advance (sc_Dialecter sc) (sc_paraIndex sc) (length l).
Proof.
  intros Hv Hrun. specialize (Hv sc). unfold emitted.
  destruct (v (reset sc)) as [r|msg]; [|congruence].
  destruct Hv as [E [Hd [_ [Hp Hk]]]].
  rewrite E in Hrun. injection Hrun as <-. cbn.
  repeat split; try assumption. now exists (sc_args r).
Qed.

(** What a visit emits depends on the dialect, the token and the counter
    only. *)
Lemma emitted_wrote (v : Visit) sc t : emitted v (wrote sc t) = emitted v sc.
Proof. reflexivity. Qed.

Lemma Forall_framed_visitExp (l : list Expression) :
  Forall (fun c => framed (visitExp c)) l.
Proof. apply List.Forall_forall. intros c _. apply framed_visitExp. Qed.

Lemma writeValue_bound' (v : GoValue) (sc : StatementCompiler) :
  v <> GNil ->
  writeValue v sc
  = Done (bound sc (statement_placeholder (sc_Dialecter sc) (sc_placeHolder sc)
                      (int_incr (sc_paraIndex sc))) [v]).
Proof. intros Hv. now rewrite (writeValue_bound v sc Hv). Qed.

Lemma bound_bound sc t l u k :
  bound (bound sc t l) u k = bound sc (t ++ u) (l ++ k).
Proof.
  unfold bound. cbn. now rewrite sapp_assoc, app_assoc, advance_add, length_app.
Qed.

Lemma wrote_bound sc t l u : wrote (bound sc t l) u = bound sc (t ++ u) l.
Proof. unfold wrote, bound. cbn. now rewrite sapp_assoc. Qed.

Lemma bound_wrote sc t l u : bound (wrote sc u) t l = bound sc (u ++ t) l.
Proof. unfold wrote, bound. cbn. now rewrite sapp_assoc. Qed.

Lemma bound_nil sc t : bound sc t [] = wrote sc t.
Proof. unfold wrote, bound. cbn. now rewrite app_nil_r, advance_0. Qed.

(** The loop of [visitSlice] over literals that are written, not bound:
    they are separated by commas. *)
Lemma for_each_literals {A : Type} (text : A -> string) (l : list A) :
  forall i sc,
    for_each (fun i x => when (0 <? i)%nat Comma ;; WriteString (text x))%visit
      i l sc
    = Done (wrote sc
              (match l with
               | [] => ""
               | _ => (if (0 <? i)%nat then ansi.Comma else "")
                      ++ String.concat ansi.Comma (map text l)
               end)).
Proof.
  induction l as [|x l IH]; intros i sc; cbn [for_each].
  - unfold skip. now rewrite wrote_nil.
  - assert (Hw : when (0 <? i)%nat Comma sc
                 = Done (wrote sc (if (0 <? i)%nat then ansi.Comma else ""))).
    { destruct (0 <? i)%nat; cbn [when]; [reflexivity|].
      unfold skip. now rewrite wrote_nil. }
    erewrite andThen_step;
      [|erewrite andThen_step; [|exact Hw]; apply WriteString_wrote].
    rewrite IH, !wrote_wrote. do 2 f_equal.
    destruct l as [|y l]; cbn [map String.concat].
    + now rewrite ?sapp_nil_r.
    + change (0 <? S i)%nat with true. cbv iota. now rewrite ?sapp_assoc.
Qed.

Lemma slice_loop_literals {A : Type} (text : A -> string) (l : list A) sc :
  slice_loop (fun x => WriteString (text x)) l sc
  = Done (wrote sc (String.concat ansi.Comma (map text l))).
Proof.
  unfold slice_loop. rewrite (for_each_literals text l 0 sc).
  now destruct l.
Qed.

(** A loop whose body always returns returns. *)
Lemma for_each_returns {A : Type} (body : nat -> A -> Visit) (l : list A) :
  (forall j x sc, exists sc', body j x sc = Done sc') ->
  forall i sc, exists sc', for_each body i l sc = Done sc'.
Proof.
  intros Hbody. induction l as [|x l IH]; intros i sc; cbn [for_each].
  - now exists sc.
  - destruct (Hbody i x sc) as [s Hs].
    erewrite andThen_step by exact Hs. apply IH.
Qed.

(** The top-level compilation of a statement is its visit from
    [compile_start]. *)
Lemma Compile_statement (d : Dialecter) (source : string) (exp : Expression) :
  is_statement exp = true ->
  Compile (NewAnsiDriver d) source exp
  = match visitExp exp (compile_start d source) with
    | Done sc' => Ok (sc_w sc') (sc_args sc')
    | Panicked msg => Panic msg
    end.
Proof. destruct exp; try discriminate; reflexivity. Qed.

(* ===================================================================== *)
(** * The template text compiler: checked properties *)
(* ===================================================================== *)

Lemma template_snoc segs lit raw tail :
  template (segs ++ [(lit, raw)]) tail
  = template segs (lit ++ "{" ++ raw ++ "}" ++ tail).
Proof.
  induction segs as [|[l r] segs IH]; cbn [template app]; [reflexivity|].
  now rewrite IH.
Qed.

Lemma segment_values_app m a b :
  segment_values m (a ++ b) = (segment_values m a ++ segment_values m b)%list.
Proof. unfold segment_values. apply flat_map_app. Qed.

(** C6, the claim as stated fails: the ANSI placeholder is the token
    [" ? "], blanks included, so the compiled text is not
    ["select * from t where c > ?"]. *)
Lemma C6_ansi_text_counterexample :
  compileText (NewAnsiDriver AnsiDialecter)
    (Some (mkText "select * from t where c > {p}"
             {[ "p" := mkParameter "p" DirIn (GInt 1) ]})) ""
  <> Ok "select * from t where c > ?" [GInt 1].
Proof. vm_compute. discriminate. Qed.

(** C6 (amended): with [p] bound in the parameter map, the template
    ["select * from t where c > {p}"] compiles to
    ["select * from t where c >  ? "] under the ANSI dialect and to
    ["select * from t where c > $1"] under the PostgreSQL dialect, with the
    value of [p] as the only argument; and with a non-empty parameter map,
    a braced name that is reached by the scan and is not in the map makes
    the compilation fail with the unknown-parameter error that names it. *)
Theorem C6_template_example_and_unknown_parameter :
  forall (m : gmap string Parameter_) (source : string),
    (forall p, m !! "p" = Some p ->
       compileText (NewAnsiDriver AnsiDialecter)
         (Some (mkText "select * from t where c > {p}" m)) source
       = Ok "select * from t where c >  ? " [Parameter_Value p]
       /\ compileText (NewAnsiDriver PostgreSQLDialecter)
            (Some (mkText "select * from t where c > {p}" m)) source
          = Ok "select * from t where c > $1" [Parameter_Value p])
    /\ (forall d segs lit raw rest,
          size m <> 0%nat ->
          Forall (segment_ok m) segs ->
          contains_byte "{" lit = false ->
          contains_byte "}" raw = false ->
          raw <> "" ->
          m !! TrimSpace raw = None ->
          compileText (NewAnsiDriver d)
            (Some (mkText (template segs (lit ++ "{" ++ raw ++ "}" ++ rest)) m))
            source
          = Err (ErrUnknownParameter (TrimSpace raw))).
Proof.
  intros m source. split.
  - intros p Hp.
    assert (Hok : Forall (segment_ok m) [("select * from t where c > ", "p")]).
    { constructor; [|constructor].
      repeat split; try reflexivity; try discriminate.
      change (TrimSpace (snd ("select * from t where c > ", "p"))) with "p".
      now exists p. }
    change "select * from t where c > {p}"
      with (template [("select * from t where c > ", "p")] "").
    split.
    + rewrite (compileText_resolved AnsiDialecter m
                 [("select * from t where c > ", "p")] "" source Hok);
        try reflexivity; try discriminate.
      unfold segment_values. cbn [flat_map snd].
      change (TrimSpace "p") with "p". now rewrite Hp.
    + rewrite (compileText_resolved PostgreSQLDialecter m
                 [("select * from t where c > ", "p")] "" source Hok);
        try reflexivity; try discriminate.
      unfold segment_values. cbn [flat_map snd].
      change (TrimSpace "p") with "p". now rewrite Hp.
  - intros d segs lit raw rest. apply compileText_unknown.
Qed.

(** The example of C6 and an undeclared name, on a one-parameter map. *)
Lemma C6_template_example_witness :
  let m : gmap string Parameter_ := {[ "p" := mkParameter "p" DirIn (GInt 1) ]} in
  m !! "p" = Some (mkParameter "p" DirIn (GInt 1))
  /\ compileText (NewAnsiDriver AnsiDialecter)
       (Some (mkText "select * from t where c > {p}" m)) ""
     = Ok "select * from t where c >  ? " [GInt 1]
  /\ compileText (NewAnsiDriver PostgreSQLDialecter)
       (Some (mkText "select * from t where c > {p}" m)) ""
     = Ok "select * from t where c > $1" [GInt 1]
  /\ compileText (NewAnsiDriver AnsiDialecter)
       (Some (mkText "select * from t where c > {q}" m)) ""
     = Err (ErrUnknownParameter "q").
Proof.
  intros m.
  assert (Hp : m !! "p" = Some (mkParameter "p" DirIn (GInt 1)))
    by (vm_compute; reflexivity).
  destruct (C6_template_example_and_unknown_parameter m "") as [Hex Hunk].
  destruct (Hex _ Hp) as [Ha Hg].
  split; [exact Hp|]. split; [exact Ha|]. split; [exact Hg|].
  apply (Hunk AnsiDialecter [] "select * from t where c > " "q" "").
  - vm_compute. discriminate.
  - constructor.
  - reflexivity.
  - reflexivity.
  - discriminate.
  - vm_compute. reflexivity.
Defined.

(** C7, the claim as stated fails: the empty SQL string holds no
    placeholder, and its compilation is an error. *)
Lemma C7_empty_sql_counterexample :
  contains_byte "{" (Text_Sql (mkText "" ∅)) = false
  /\ compileText (NewAnsiDriver AnsiDialecter) (Some (mkText "" ∅)) ""
     = Err ErrTextEmpty.
Proof. split; reflexivity. Qed.

(** C7 (amended): for every template text whose SQL string is not empty
    and holds no opening brace, template compilation succeeds and returns
    the string unchanged, with an empty argument list. *)
Theorem C7_template_without_placeholder :
  forall (c : AnsiDriver) (t : Text) (source : string),
    Text_Sql t <> "" ->
    contains_byte "{" (Text_Sql t) = false ->
    compileText c (Some t) source = Ok (Text_Sql t) [].
Proof.
  intros [d] [sql m] source Hne Hfree. cbn [Text_Sql] in *.
  apply (compileText_resolved d m [] sql source); auto.
  cbn [length]. lia.
Qed.

(** C7 on the text [select 1]. *)
Lemma C7_template_without_placeholder_witness :
  Text_Sql (mkText "select 1" {[ "p" := mkParameter "p" DirIn (GInt 1) ]}) <> ""
  /\ contains_byte "{"
       (Text_Sql (mkText "select 1" {[ "p" := mkParameter "p" DirIn (GInt 1) ]}))
     = false
  /\ compileText (NewAnsiDriver PostgreSQLDialecter)
       (Some (mkText "select 1" {[ "p" := mkParameter "p" DirIn (GInt 1) ]})) ""
     = Ok "select 1" [].
Proof.
  split; [discriminate|]. split; [reflexivity|].
  apply (C7_template_without_placeholder (NewAnsiDriver PostgreSQLDialecter)
           (mkText "select 1" {[ "p" := mkParameter "p" DirIn (GInt 1) ]}) "").
  - discriminate.
  - reflexivity.
Defined.

(** C8, the claim as stated fails: with an empty parameter map the text is
    not scanned, and an unterminated brace passes through. *)
Lemma C8_no_parameters_counterexample :
  contains_byte "}" "p" = false
  /\ compileText (NewAnsiDriver AnsiDialecter)
       (Some (mkText "select * from t where c > {p" ∅)) ""
     = Ok "select * from t where c > {p" [].
Proof. split; reflexivity. Qed.

(** C8 (amended): for every template text with a non-empty parameter map
    in which the scan, after any number of resolved placeholders, meets an
    opening brace that no closing brace follows, template compilation
    fails with the malformed-template error. *)
Theorem C8_unterminated_brace :
  forall d (m : gmap string Parameter_) segs lit rest source,
    size m <> 0%nat ->
    Forall (segment_ok m) segs ->
    contains_byte "{" lit = false ->
    contains_byte "}" rest = false ->
    compileText (NewAnsiDriver d)
      (Some (mkText (template segs (lit ++ "{" ++ rest)) m)) source
    = Err ErrMalformedTemplate.
Proof.
  intros d m segs lit rest source Hm Hok Hlit Hrest.
  apply compileText_unclosed; try assumption.
  rewrite (IndexByte_absent _ _ Hrest). lia.
Qed.

(** C8 on a text with one resolved placeholder before the open brace. *)
Lemma C8_unterminated_brace_witness :
  let m : gmap string Parameter_ := {[ "p" := mkParameter "p" DirIn (GInt 1) ]} in
  size m <> 0%nat
  /\ Forall (segment_ok m) [("a = ", " p ")]
  /\ contains_byte "{" " and b = " = false
  /\ contains_byte "}" "p" = false
  /\ compileText (NewAnsiDriver AnsiDialecter)
       (Some (mkText "a = { p } and b = {p" m)) ""
     = Err ErrMalformedTemplate.
Proof.
  intros m.
  assert (Hm : size m <> 0%nat) by (vm_compute; discriminate).
  assert (Hok : Forall (segment_ok m) [("a = ", " p ")]).
  { constructor; [|constructor].
    repeat split; try reflexivity; try discriminate.
    exists (mkParameter "p" DirIn (GInt 1)). vm_compute. reflexivity. }
  split; [exact Hm|]. split; [exact Hok|].
  split; [reflexivity|]. split; [reflexivity|].
  exact (C8_unterminated_brace AnsiDialecter m [("a = ", " p ")] " and b = "
           "p" "" Hm Hok eq_refl eq_refl).
Defined.

(** C10, the claim as stated fails: with an empty parameter map the text
    is not scanned, and ["{}"] passes through. *)
Lemma C10_no_parameters_counterexample :
  compileText (NewAnsiDriver AnsiDialecter) (Some (mkText "select {}" ∅)) ""
  = Ok "select {}" []
  /\ compileText (NewAnsiDriver AnsiDialecter) (Some (mkText "select {}" ∅)) ""
     <> Err ErrMalformedTemplate.
Proof. split; [reflexivity|discriminate]. Qed.

(** C10 (amended): for every template text with a non-empty parameter map
    in which the scan, after any number of resolved placeholders, meets
    ["{}"], template compilation fails with the malformed-template error
    and no name is looked up; where it meets ["{ }"], the empty name is
    looked up: the compilation fails with the unknown-parameter error
    for the empty name when the map has no such parameter, and binds the
    value of that parameter when it has one. *)
Theorem C10_empty_braces :
  forall d (m : gmap string Parameter_) segs lit rest source,
    size m <> 0%nat ->
    Forall (segment_ok m) segs ->
    contains_byte "{" lit = false ->
    compileText (NewAnsiDriver d)
      (Some (mkText (template segs (lit ++ "{}" ++ rest)) m)) source
    = Err ErrMalformedTemplate
    /\ (m !! "" = None ->
        compileText (NewAnsiDriver d)
          (Some (mkText (template segs (lit ++ "{ }" ++ rest)) m)) source
        = Err (ErrUnknownParameter ""))
    /\ (forall p, m !! "" = Some p ->
        contains_byte "{" rest = false ->
        Z.of_nat (length segs) < 2 ^ 63 - 2 ->
        compileText (NewAnsiDriver d)
          (Some (mkText (template segs (lit ++ "{ }" ++ rest)) m)) source
        = Ok (render d (segs ++ [(lit, " ")]) 1 rest)
            (segment_values m segs ++ [Parameter_Value p])).
Proof.
  intros d m segs lit rest source Hm Hok Hlit. split; [|split].
  - apply (compileText_unclosed d m segs lit ("}" ++ rest)); try assumption.
    cbn. lia.
  - intros Hnone.
    apply (compileText_unknown d m segs lit " " rest source); try assumption.
    + reflexivity.
    + discriminate.
  - intros p Hp Hrest Hlen.
    change (lit ++ "{ }" ++ rest) with (lit ++ "{" ++ " " ++ "}" ++ rest).
    rewrite <- template_snoc.
    rewrite compileText_resolved.
    + rewrite segment_values_app. do 2 f_equal.
      unfold segment_values. cbn [flat_map snd].
      change (TrimSpace " ") with "". now rewrite Hp.
    + apply Forall_app. split; [assumption|].
      constructor; [|constructor].
      repeat split; try assumption; try reflexivity; try discriminate.
      cbn [snd]. change (TrimSpace " ") with "". now exists p.
    + assumption.
    + rewrite template_snoc.
      destruct segs as [|[l r] segs]; cbn [template];
        [destruct lit|destruct l]; discriminate.
    + rewrite length_app. cbn [length]. lia.
Qed.

(** C10 on the texts [c > {}] and [c > { }]. *)
Lemma C10_empty_braces_witness :
  let m : gmap string Parameter_ := {[ "p" := mkParameter "p" DirIn (GInt 1) ]} in
  size m <> 0%nat
  /\ Forall (segment_ok m) []
  /\ contains_byte "{" "c > " = false
  /\ compileText (NewAnsiDriver AnsiDialecter) (Some (mkText "c > {}" m)) ""
     = Err ErrMalformedTemplate
  /\ compileText (NewAnsiDriver AnsiDialecter) (Some (mkText "c > { }" m)) ""
     = Err (ErrUnknownParameter "").
Proof.
  intros m.
  assert (Hm : size m <> 0%nat) by (vm_compute; discriminate).
  destruct (C10_empty_braces AnsiDialecter m [] "c > " "" "" Hm
              (List.Forall_nil _) eq_refl) as [Ha [Hb _]].
  split; [exact Hm|]. split; [constructor|]. split; [reflexivity|].
  split; [exact Ha|]. apply Hb. vm_compute. reflexivity.
Defined.

(* ===================================================================== *)
(** * The statement compiler: checked properties *)
(* ===================================================================== *)

(** C1, the claim as stated fails: the condition [c IN ("a", "b")] has one
    literal leaf, whose payload is a sequence of two strings, and its
    compilation binds two arguments, the elements of the sequence. *)
Lemma C1_in_list_counterexample :
  let exp :=
    EDelete
      (mkDelete (mkTable "t" "")
         (Some (mkWhere (Some (mkConditions
            [ECondition
               (mkCondition (EColumn (mkColumn "c")) Op.In
                  (EValue (mkValue (GStringSlice ["a"; "b"]))))]))))
         None 0) in
  leaves exp = [GStringSlice ["a"; "b"]]
  /\ exists query,
       Compile (NewAnsiDriver AnsiDialecter) "" exp
       = Ok query [GString "a"; GString "b"].
Proof. split; [reflexivity|]. eexists. vm_compute. reflexivity. Qed.

(** C1 (amended): for every Query, Insert, Update or Delete tree that is
    plain (no Text, Procedure, Parameter or Output node; no Conditions or
    Field node standing as an expression; no aggregate without a name; no
    having clause in a query without a group-by field; no [IN] or [NOT IN]
    whose right side is a literal holding a sequence), the compilation
    succeeds and the returned argument list is the list of the payloads of
    the non-nil literal leaves of the tree, in pre-order: as many entries
    as leaves, in the order of the traversal. *)
Theorem C1_arguments_follow_the_leaves :
  forall (d : Dialecter) (source : string) (exp : Expression),
    is_statement exp = true ->
    plain exp = true ->
    exists query, Compile (NewAnsiDriver d) source exp = Ok query (leaves exp).
Proof.
  intros d source exp Hst Hplain.
  pose proof (binds_visitExp exp Hplain) as Hb.
  destruct exp; try discriminate; cbn [Compile StatementCompiler_Compile];
    cbn [visitExp] in Hb;
    match goal with
    | |- context [match ?v ?sc with _ => _ end] =>
        destruct (Hb sc) as [sc' [E A]]; rewrite E; cbn in A; rewrite A;
        eexists; reflexivity
    end.
Qed.

(** C1 on an update with two set values, one of them nil, and a condition. *)
Lemma C1_arguments_follow_the_leaves_witness :
  let exp :=
    EUpdate
      (mkUpdate (mkTable "t" "")
         [mkSetItem (mkColumn "a") (EValue (mkValue (GInt 1)));
          mkSetItem (mkColumn "b") (EValue (mkValue GNil))]
         (Some (mkWhere (Some (mkConditions
            [ECondition
               (mkCondition (EColumn (mkColumn "c")) (mkOperator "=")
                  (EValue (mkValue (GString "x"))))]))))
         None 0) in
  is_statement exp = true
  /\ plain exp = true
  /\ leaves exp = [GInt 1; GString "x"]
  /\ exists query,
       Compile (NewAnsiDriver PostgreSQLDialecter) "" exp = Ok query (leaves exp).
Proof.
  intros exp. split; [reflexivity|]. split; [reflexivity|].
  split; [reflexivity|].
  exact (C1_arguments_follow_the_leaves PostgreSQLDialecter "" exp
           eq_refl eq_refl).
Defined.

Lemma when_wrote (b : bool) (t : string) sc :
  when b (WriteString t) sc = Done (wrote sc (if b then t else "")).
Proof. destruct b; cbn [when]; [reflexivity|]. unfold skip. now rewrite wrote_nil. Qed.

Lemma Blank_wrote sc : Blank sc = Done (wrote sc ansi.Blank).
Proof. reflexivity. Qed.

Lemma LineBreak_wrote sc : LineBreak sc = Done (wrote sc ansi.LineBreak).
Proof. reflexivity. Qed.

Lemma Print_wrote l sc : Print l sc = Done (wrote sc (String.concat "" l)).
Proof. reflexivity. Qed.

Lemma query_header_wrote q sc :
  (WriteString ansi.Select ;; Blank ;;
   when (Query_IsDistinct q) (WriteString ansi.Distinct ;; Blank))%visit sc
  = Done (wrote sc (query_header q)).
Proof.
  unfold query_header.
  erewrite andThen_step by apply WriteString_wrote.
  erewrite andThen_step by apply Blank_wrote.
  destruct (Query_IsDistinct q); cbn [when].
  - erewrite andThen_step by apply WriteString_wrote.
    rewrite Blank_wrote, !wrote_wrote. reflexivity.
  - unfold skip. now rewrite wrote_wrote, sapp_nil_r.
Qed.

Lemma limit_clause_wrote q sc :
  when ((0 <? Query_Offset q) || (0 <? Query_Count q))%bool
    (LineBreak ;;
     Print [ansi.Limit; " "; Itoa (Query_Offset q); ",";
            Itoa (Query_Count q)])%visit sc
  = Done (wrote sc (limit_clause q)).
Proof.
  unfold limit_clause.
  destruct ((0 <? Query_Offset q) || (0 <? Query_Count q))%bool; cbn [when].
  - erewrite andThen_step by apply LineBreak_wrote.
    rewrite Print_wrote, wrote_wrote. reflexivity.
  - unfold skip. now rewrite wrote_nil.
Qed.

(** A framed visit that returns has written a text and bound values
    behind what the compiler held. *)
Lemma framed_bound (v : Visit) sc sc' :
  framed v -> v sc = Done sc' -> exists t l, sc' = bound sc t l.
Proof.
  intros Hv Hrun. specialize (Hv sc).
  destruct (v (reset sc)) as [r|msg]; [|congruence].
  destruct Hv as [E [Hd [Hs [Hp Hk]]]]. rewrite E in Hrun. injection Hrun as <-.
  exists (sc_w r), (sc_args r). unfold glue, bound. now rewrite Hd, Hs, Hp, Hk.
Qed.

(** One more visit of a sequence that has returned. *)
Ltac next_visit H s Hs := apply andThen_done in H as [s [Hs H]].

(** The compiler reached is the one the visit started from, with a text
    written and values bound; the text has the [body] given. *)
Ltac shape_with body :=
  eexists _, _; split; [reflexivity|]; exists body;
  cbn [String.concat]; rewrite ?sapp_assoc, ?sapp_nil_r; cbn [String.append];
  rewrite ?sapp_assoc; reflexivity.

(** The loops of the clauses are framed. *)
Lemma framed_fields_loop (fields : list (option (Field Expression))) i :
  framed (for_each (fun i f => when (0 <? i)%nat Comma ;;
                               visitField visitExp f)%visit i fields).
Proof.
  apply framed_for_each. intros j f _.
  apply framed_seq; [apply framed_when, framed_Comma|].
  apply framed_visitField, Forall_framed_visitExp.
Qed.

Lemma framed_items_loop (items : list Expression) i :
  framed (for_each (fun i item => when (0 <? i)%nat Comma ;;
                                  visitExp item)%visit i items).
Proof.
  apply framed_for_each. intros j f _.
  apply framed_seq; [apply framed_when, framed_Comma|apply framed_visitExp].
Qed.

Lemma framed_order_loop (fields : list (OrderByField Expression)) i :
  framed (for_each
            (fun i item =>
               when (0 <? i)%nat Comma ;;
               visitExp (OrderByField_Exp item) ;; Blank ;;
               WriteString (Direction_String (OrderByField_Direction item)))%visit
            i fields).
Proof.
  apply framed_for_each. intros j f _.
  apply framed_seq; [apply framed_when, framed_Comma|].
  apply framed_seq; [apply framed_visitExp|].
  apply framed_seq; [apply framed_Blank|apply framed_WriteString].
Qed.

(** The select list is [*] without fields, and ends with a blank
    otherwise. *)
Lemma visitSelect_shape (s : option (Select Expression)) sc sc' :
  visitSelect visitExp s sc = Done sc' ->
  exists t l,
    sc' = bound sc t l
    /\ if present (match s with Some s => Select_Fields s | None => [] end)
       then exists body, t = body ++ ansi.Blank
       else t = ansi.WildcardAll.
Proof.
  unfold visitSelect. destruct s as [s|].
  - destruct (Select_Fields s) as [|f fields] eqn:E; cbn [present].
    + intros [= <-]. exists ansi.WildcardAll, []. now rewrite bound_nil.
    + intros H. next_visit H s1 H1.
      apply framed_bound in H1 as [t [l ->]]; [|apply framed_fields_loop].
      rewrite Blank_wrote in H. injection H as <-.
      exists (t ++ ansi.Blank), l. rewrite wrote_bound. eauto.
  - cbn [present]. intros [= <-]. exists ansi.WildcardAll, [].
    now rewrite bound_nil.
Qed.

(** A [From] starts with its keyword and ends with a blank. *)
Lemma visitFrom_shape (f : option (From Expression)) sc sc' :
  visitFrom visitExp f sc = Done sc' ->
  exists t l,
    sc' = bound sc t l
    /\ clause_shape (match f with Some _ => true | None => false end)
         (LF ++ ansi.From ++ ansi.Blank) t.
Proof.
  unfold visitFrom, clause_shape. destruct f as [f|].
  - intros H. next_visit H s0 H0. rewrite Print_wrote in H0. injection H0 as <-.
    next_visit H s1 H1.
    apply framed_bound in H1 as [t1 [l1 ->]];
      [|destruct (From_Table f);
        [apply framed_visitTable|apply framed_skip]].
    next_visit H s2 H2.
    apply framed_bound in H2 as [t2 [l2 ->]].
    2:{ apply framed_for_each. intros j t _.
        apply framed_seq; [apply framed_when, framed_Comma|].
        apply framed_visitTable. }
    next_visit H s3 H3.
    apply framed_bound in H3 as [t3 [l3 ->]].
    2:{ apply framed_for_each. intros j t _.
        apply framed_seq; [apply framed_LineBreak|].
        apply framed_visitJoin, Forall_framed_visitExp. }
    rewrite Blank_wrote in H. injection H as <-.
    rewrite !bound_bound, bound_wrote, wrote_bound.
    unfold LF, ansi.From, ansi.Blank. shape_with (t1 ++ t2 ++ t3).
  - intros [= <-]. exists "", []. now rewrite bound_nil, wrote_nil.
Qed.

(** A sequence of conditions behind its keyword: nothing without
    conditions, and otherwise the keyword, the conditions and a blank. *)
Lemma conditions_shape (c : option (Conditions Expression)) (keyword : string)
    sc sc' :
  (if Conditions_isEmpty c then skip
   else Print [LF; keyword; LF] ;; visitConditions visitExp c)%visit sc
  = Done sc' ->
  exists t l,
    sc' = bound sc t l
    /\ clause_shape (present (conditions_of c)) (LF ++ keyword ++ LF) t.
Proof.
  unfold clause_shape, conditions_of, Conditions_isEmpty, skip.
  destruct c as [c|].
  - destruct (Conditions_Conditions c) as [|item items] eqn:E; cbn [present].
    + intros [= <-]. exists "", []. now rewrite bound_nil, wrote_nil.
    + intros H. next_visit H s0 H0. rewrite Print_wrote in H0.
      injection H0 as <-. unfold visitConditions in H.
      next_visit H s1 H1.
      apply framed_bound in H1 as [t [l ->]];
        [|apply framed_visitConditions_loop, Forall_framed_visitExp].
      rewrite Blank_wrote in H. injection H as <-.
      rewrite bound_wrote, wrote_bound.
      unfold LF, ansi.Blank. shape_with t.
  - cbn [present]. intros [= <-]. exists "", [].
    now rewrite bound_nil, wrote_nil.
Qed.

Lemma visitWhere_shape (w : option (Where Expression)) sc sc' :
  visitWhere visitExp w sc = Done sc' ->
  exists t l,
    sc' = bound sc t l
    /\ clause_shape
         (present (match w with
                   | Some w => conditions_of (Where_Conditions w)
                   | None => []
                   end))
         (LF ++ ansi.Where ++ LF) t.
Proof.
  unfold visitWhere. destruct w as [w|].
  - unfold Where_isEmpty. apply conditions_shape.
  - intros [= <-]. exists "", []. now rewrite bound_nil, wrote_nil.
Qed.

Lemma visitHaving_shape (h : option (Having Expression)) sc sc' :
  visitHaving visitExp h sc = Done sc' ->
  exists t l,
    sc' = bound sc t l
    /\ clause_shape
         (present (match h with
                   | Some h => conditions_of (Having_Conditions h)
                   | None => []
                   end))
         (LF ++ ansi.Having ++ LF) t.
Proof.
  unfold visitHaving. destruct h as [h|].
  - apply conditions_shape.
  - intros [= <-]. exists "", []. now rewrite bound_nil, wrote_nil.
Qed.

(** A clause made of a line break, a keyword, a blank, a loop over its
    fields and a blank. *)
Lemma fields_clause_shape (keyword : string) (loop : Visit) sc sc' :
  framed loop ->
  (LineBreak ;; WriteString keyword ;; Blank ;; loop ;; Blank)%visit sc
  = Done sc' ->
  exists t l,
    sc' = bound sc t l
    /\ exists body, t = (LF ++ keyword ++ ansi.Blank) ++ body ++ ansi.Blank.
Proof.
  intros Hloop H.
  next_visit H s0 H0. rewrite LineBreak_wrote in H0. injection H0 as <-.
  next_visit H s1 H1. rewrite WriteString_wrote in H1. injection H1 as <-.
  next_visit H s2 H2. rewrite Blank_wrote in H2. injection H2 as <-.
  next_visit H s3 H3. apply framed_bound in H3 as [t [l ->]]; [|exact Hloop].
  rewrite Blank_wrote in H. injection H as <-.
  rewrite !wrote_wrote, bound_wrote, wrote_bound.
  unfold ansi.LineBreak, LF, ansi.Blank. shape_with t.
Qed.

Lemma visitGroupBy_shape (g : option (GroupBy Expression)) sc sc' :
  visitGroupBy visitExp g sc = Done sc' ->
  exists t l,
    sc' = bound sc t l
    /\ clause_shape
         (present (match g with Some g => GroupBy_Fields g | None => [] end))
         (LF ++ ansi.GroupBy ++ ansi.Blank) t.
Proof.
  unfold visitGroupBy, clause_shape. destruct g as [g|].
  - destruct (GroupBy_Fields g) as [|f fields] eqn:E; cbn [present].
    + intros [= <-]. exists "", []. now rewrite bound_nil, wrote_nil.
    + apply fields_clause_shape, framed_items_loop.
  - cbn [present]. intros [= <-]. exists "", [].
    now rewrite bound_nil, wrote_nil.
Qed.

Lemma visitOrderBy_shape (o : option (OrderBy Expression)) sc sc' :
  visitOrderBy visitExp o sc = Done sc' ->
  exists t l,
    sc' = bound sc t l
    /\ clause_shape
         (present (match o with Some o => OrderBy_Fields o | None => [] end))
         (LF ++ ansi.OrderBy ++ ansi.Blank) t.
Proof.
  unfold visitOrderBy, clause_shape. destruct o as [o|].
  - destruct (OrderBy_Fields o) as [|f fields] eqn:E; cbn [present].
    + intros [= <-]. exists "", []. now rewrite bound_nil, wrote_nil.
    + apply fields_clause_shape, framed_order_loop.
  - cbn [present]. intros [= <-]. exists "", [].
    now rewrite bound_nil, wrote_nil.
Qed.

(** The test of [visitQuery] before the having clause: the group-by clause
    has a field. *)
Lemma groupBy_present_fields (q : Query Expression) :
  groupBy_present (Query_GroupBy q) = present (query_group q).
Proof.
  unfold groupBy_present, query_group.
  destruct (Query_GroupBy q) as [g|]; [|reflexivity].
  now destruct (GroupBy_Fields g).
Qed.



Lemma OpenParens_wrote sc : OpenParens sc = Done (wrote sc ansi.OpenParentheses).
Proof. reflexivity. Qed.

Lemma CloseParens_wrote sc :
  CloseParens sc = Done (wrote sc ansi.CloseParentheses).
Proof. reflexivity. Qed.

Lemma Comma_wrote sc : Comma sc = Done (wrote sc ansi.Comma).
Proof. reflexivity. Qed.

Lemma statement_placeholder_next d token k :
  statement_placeholder d token (int_incr k)
  = statement_placeholder d token (advance d k 1).
Proof. unfold statement_placeholder, advance. now destruct (counts d). Qed.

(** The next literal bound after [l]. *)
Lemma writeValue_after (v : GoValue) sc t l :
  v <> GNil ->
  writeValue v (bound sc t l)
  = Done (bound sc (t ++ nth_placeholder sc (S (length l))) (l ++ [v])).
Proof.
  intros Hv. rewrite (writeValue_bound' v _ Hv), bound_bound.
  do 3 f_equal. unfold nth_placeholder. cbn [bound sc_Dialecter sc_placeHolder
                                                sc_paraIndex].
  rewrite statement_placeholder_next, advance_add.
  now rewrite Nat.add_1_r.
Qed.

(** The head of an [IN] condition: the left side, the operator, the
    opening parenthesis. *)
Lemma visitIn_head (left right : Expression) (op : Operator) (k : Visit) sc sc1 :
  visitExp left sc = Done sc1 ->
  (visitExp left ;; Print [" "; Operator_String op; " "] ;; OpenParens ;; k)%visit
    sc
  = k (wrote sc1 (" " ++ Operator_String op ++ " " ++ "(")).
Proof.
  intros Hl.
  erewrite andThen_step by exact Hl.
  erewrite andThen_step by apply Print_wrote.
  erewrite andThen_step by apply OpenParens_wrote.
  rewrite wrote_wrote. do 2 f_equal.
  cbn [String.concat]. now rewrite !sapp_assoc.
Qed.

Lemma visitCondition_in (left : Expression) (op : Operator) (v : GoValue) :
  is_nil left = false ->
  op = Op.In \/ op = Op.NotIn ->
  v <> GNil ->
  visitCondition visitExp (Some (mkCondition left op (EValue (mkValue v))))
  = (visitExp left ;; Print [" "; Operator_String op; " "] ;; OpenParens ;;
     visitSlice v ;; CloseParens)%visit.
Proof.
  intros Hl Hop Hv. cbn [visitCondition Condition_Left Condition_Right
                           Condition_Op is_nil andb].
  rewrite Hl. cbv zeta.
  replace (Operator_eqb op Op.In || Operator_eqb op Op.NotIn)%bool with true
    by (destruct Hop as [->| ->]; reflexivity).
  unfold visitIn. cbn [Condition_Left Condition_Right Condition_Op Value_Value].
  destruct v; congruence.
Qed.


(** A condition without left side is written as its operator applied to
    its right side. *)
Lemma visitCondition_prefix (op : Operator) (v : GoValue) sc :
  v <> GNil ->
  visitCondition visitExp (Some (mkCondition ENil op (EValue (mkValue v)))) sc
  = Done (bound sc
            (Operator_String op ++ "(" ++ nth_placeholder sc 1 ++ ")") [v]).
Proof.
  intros Hv. cbn [visitCondition Condition_Left Condition_Right Condition_Op
                    is_nil andb visitExp].
  erewrite andThen_step by apply Print_wrote.
  assert (Hw : visitValue (Some (mkValue v)) = writeValue v)
    by (now destruct v).
  rewrite Hw, <- bound_nil.
  erewrite andThen_step by (apply writeValue_after, Hv).
  rewrite Print_wrote, wrote_bound. cbn [length app String.concat].
  do 2 f_equal. now rewrite !sapp_assoc, ?sapp_nil_r.
Qed.



(** C3, the claim as stated fails: a Parameter node met as the value of an
    insert makes the top-level compile call panic. *)
Lemma C3_unsupported_node_counterexample :
  exists msg : string,
    Compile (NewAnsiDriver AnsiDialecter) ""
      (EInsert (mkInsert (mkTable "t" "")
                  [mkSetItem (mkColumn "c")
                     (EParameter (mkParameter "p" DirIn (GInt 1)))]))
    = Panic msg.
Proof. eexists. reflexivity. Qed.

(** [StatementCompiler.Compile] called with a nil expression sets its
    error and goes on to [exp.Node()]: it panics. *)
Lemma StatementCompiler_Compile_nil (sc : StatementCompiler) (source : string) :
  StatementCompiler_Compile sc ENil source = Panic PanicNilDereference.
Proof. reflexivity. Qed.

(** C3 (amended): a nil expression passed to the top-level [Compile] of
    the driver returns the error "compile expression is nil"; a node of
    kind Text, Procedure, Parameter or Output reached by [visitExp] during
    statement compilation makes the visit panic with a message that names
    the kind, and the panic is what the top-level [Compile] call ends
    with (shown for such a node as the first value of an insert) instead
    of a returned error. *)
Theorem C3_nil_is_an_error_and_unsupported_nodes_panic :
  (forall (c : AnsiDriver) (source : string),
      Compile c source ENil = Err ErrNilExpression)
  /\ (forall (exp : Expression) (n : NodeType) (sc : StatementCompiler),
         Node exp = Some n ->
         rejected_kind n = true ->
         visitExp exp sc
         = Panicked ("doesn't support this expression type:"
                     ++ NodeType_String n))
  /\ (forall (d : Dialecter) (source : string) (t : Table) (col : Column)
             (exp : Expression) (n : NodeType) (rest : list (SetItem Expression)),
         Node exp = Some n ->
         rejected_kind n = true ->
         Compile (NewAnsiDriver d) source
           (EInsert (mkInsert t (mkSetItem col exp :: rest)))
         = Panic ("doesn't support this expression type:"
                  ++ NodeType_String n)).
Proof.
  assert (Hvisit : forall exp n sc,
             Node exp = Some n -> rejected_kind n = true ->
             visitExp exp sc
             = Panicked ("doesn't support this expression type:"
                         ++ NodeType_String n)).
  { intros exp n sc Hn Hr.
    destruct exp; cbn [Node] in Hn; try discriminate; injection Hn as <-;
      cbn in Hr; try discriminate; reflexivity. }
  split; [reflexivity|]. split; [exact Hvisit|].
  intros d source t col exp n rest Hn Hr.
  cbn [Compile StatementCompiler_Compile]. unfold visitInsert.
  erewrite andThen_step by apply Print_wrote.
  erewrite andThen_step by apply OpenParens_wrote.
  cbn [Insert_Sets Insert_Table].
  match goal with
  | |- context [andThen (for_each ?body 0%nat ?l) ?k ?s] =>
      destruct (for_each_returns body l) with (i := 0%nat) (sc := s)
        as [s' Hs']
  end.
  { intros i x s0. destruct (0 <? i)%nat; eexists; reflexivity. }
  erewrite andThen_step by exact Hs'.
  erewrite andThen_step by apply CloseParens_wrote.
  erewrite andThen_step by apply LineBreak_wrote.
  erewrite andThen_step by apply WriteString_wrote.
  erewrite andThen_step by apply OpenParens_wrote.
  cbn [for_each Nat.ltb Nat.leb when Set_Value].
  unfold andThen at 1 2 3. unfold skip.
  now rewrite (Hvisit exp n _ Hn Hr).
Qed.

(** C3 on the nil expression and on an Output node. *)
Lemma C3_nil_is_an_error_and_unsupported_nodes_panic_witness :
  Node EOutput = Some NodeOutput
  /\ rejected_kind NodeOutput = true
  /\ Compile (NewAnsiDriver MysqlDialecter) "" ENil = Err ErrNilExpression
  /\ visitExp EOutput (compile_start MysqlDialecter "")
     = Panicked "doesn't support this expression type:Output"
  /\ Compile (NewAnsiDriver MysqlDialecter) ""
       (EInsert (mkInsert (mkTable "t" "") [mkSetItem (mkColumn "c") EOutput]))
     = Panic "doesn't support this expression type:Output".
Proof.
  destruct C3_nil_is_an_error_and_unsupported_nodes_panic as [Ha [Hb Hc]].
  split; [reflexivity|]. split; [reflexivity|].
  split; [exact (Ha (NewAnsiDriver MysqlDialecter) "")|].
  split.
  - exact (Hb EOutput NodeOutput (compile_start MysqlDialecter "")
             eq_refl eq_refl).
  - exact (Hc MysqlDialecter "" (mkTable "t" "") (mkColumn "c") EOutput
             NodeOutput [] eq_refl eq_refl).
Defined.

Lemma advance_from_zero d n :
  Z.of_nat n < 2 ^ 63 ->
  advance d 0 n = if counts d then Z.of_nat n else 0.
Proof.
  unfold advance. destruct (counts d); [|reflexivity].
  induction n as [|n IH]; intros Hn; [reflexivity|].
  rewrite Nat.iter_succ, IH by lia. rewrite int_incr_small by lia. lia.
Qed.

(** Every visit leaves the compiler it started from with some text
    written and some values bound. *)
Lemma visitExp_bound exp sc sc' :
  visitExp exp sc = Done sc' -> exists t l, sc' = bound sc t l.
Proof.
  intros H. pose proof (framed_visitExp exp sc) as F.
  destruct (visitExp exp (reset sc)) as [r|msg]; [|congruence].
  destruct F as [E [Hd [Hs [Hp Hk]]]]. rewrite E in H. injection H as <-.
  exists (sc_w r), (sc_args r). unfold glue, bound. now rewrite Hd, Hs, Hp, Hk.
Qed.

(** C2, the claim as stated fails: in a statement a literal has no name,
    and under a dialect with named parameters its placeholder is the token
    followed by the counter: no name makes the placeholder of the literal
    7 the token followed by that name in every compiler state. *)
Lemma C2_named_statement_counterexample :
  let d := mkDialecter true false "@" (fun s => s) in
  ~ exists name : string,
      forall sc : StatementCompiler,
        sc_Dialecter sc = d ->
        sc_placeHolder sc = "@" ->
        exists sc',
          writeValue (GInt 7) sc = Done sc' /\ sc_w sc' = sc_w sc ++ "@" ++ name.
Proof.
  intros d [name H].
  destruct (H (mkStatementCompiler d "" "" [] 0 "@") eq_refl eq_refl)
    as [s0 [E0 W0]].
  destruct (H (mkStatementCompiler d "" "" [] 1 "@") eq_refl eq_refl)
    as [s1 [E1 W1]].
  vm_compute in E0. injection E0 as <-.
  vm_compute in E1. injection E1 as <-.
  cbn in W0, W1. congruence.
Qed.

(** C2 (amended): the form of a placeholder is fixed by the dialect and
    by the compiler.  In template compilation every placeholder is the
    token of the dialect followed by the name of the parameter when the
    dialect supports named parameters, else by 1, 2, 3, ... in the order
    of the scan when it supports indexed parameters, else by nothing
    ([render]).  In statement compilation every literal that is bound is
    written as the token of the compiler followed by the counter when the
    dialect supports named or indexed parameters, and as the token alone
    otherwise; every visit moves the counter by the number of literals it
    binds, so that from a counter at 0, where the top-level compilation
    of a statement starts, the n-th literal of the statement has the
    number n. *)
Theorem C2_placeholder_forms :
  (forall d (m : gmap string Parameter_) segs tail source,
      Forall (segment_ok m) segs ->
      contains_byte "{" tail = false ->
      template segs tail <> "" ->
      Z.of_nat (length segs) < 2 ^ 63 - 1 ->
      compileText (NewAnsiDriver d) (Some (mkText (template segs tail) m)) source
      = Ok (render d segs 1 tail) (segment_values m segs))
  /\ (forall (v : GoValue) (sc : StatementCompiler) (t : string)
             (l : list GoValue),
         v <> GNil ->
         writeValue v (bound sc t l)
         = Done (bound sc (t ++ nth_placeholder sc (S (length l))) (l ++ [v])))
  /\ (forall (exp : Expression) (sc sc' : StatementCompiler),
         visitExp exp sc = Done sc' -> exists t l, sc' = bound sc t l)
  /\ (forall (sc : StatementCompiler) (n : nat),
         sc_paraIndex sc = 0 ->
         Z.of_nat n < 2 ^ 63 ->
         nth_placeholder sc n
         = sc_placeHolder sc
           ++ (if (SupportNamedParameter (sc_Dialecter sc)
                   || SupportIndexedParameter (sc_Dialecter sc))%bool
               then Itoa (Z.of_nat n) else ""))
  /\ (forall (d : Dialecter) (source : string) (exp : Expression)
             (query : string) (args : list GoValue),
         is_statement exp = true ->
         Compile (NewAnsiDriver d) source exp = Ok query args ->
         sc_paraIndex (compile_start d source) = 0
         /\ sc_placeHolder (compile_start d source) = ParameterPlaceHolder d
         /\ visitExp exp (compile_start d source)
            = Done (bound (compile_start d source) query args)).
Proof.
  split; [|split; [|split; [|split]]].
  - intros d m segs tail source. apply compileText_resolved.
  - intros v sc t l. apply writeValue_after.
  - apply visitExp_bound.
  - intros sc n Hk Hn. unfold nth_placeholder, statement_placeholder.
    rewrite Hk, advance_from_zero by assumption.
    unfold counts. now destruct (_ || _)%bool.
  - intros d source exp query args Hst Hc.
    rewrite (Compile_statement d source exp Hst) in Hc.
    split; [reflexivity|]. split; [reflexivity|].
    destruct (visitExp exp (compile_start d source)) as [sc'|msg] eqn:E;
      [|discriminate].
    injection Hc as <- <-.
    destruct (visitExp_bound _ _ _ E) as [t [l ->]]. reflexivity.
Qed.

(** C2 on a template with two parameters under an indexed, a named and the ANSI dialect, and on the second literal of a statement. *)
Lemma C2_placeholder_forms_witness :
  let m : gmap string Parameter_ :=
    {[ "x" := mkParameter "x" DirIn (GInt 1);
       "y" := mkParameter "y" DirIn (GString "b") ]} in
  let named := mkDialecter true true ":" (fun s => s) in
  let sc := mkStatementCompiler PostgreSQLDialecter "" "" [] 0 "$" in
  compileText (NewAnsiDriver PostgreSQLDialecter)
    (Some (mkText "a = {x} and b = { y }" m)) ""
  = Ok "a = $1 and b = $2" [GInt 1; GString "b"]
  /\ compileText (NewAnsiDriver named)
       (Some (mkText "a = {x} and b = { y }" m)) ""
     = Ok "a = :x and b = :y" [GInt 1; GString "b"]
  /\ compileText (NewAnsiDriver AnsiDialecter)
       (Some (mkText "a = {x} and b = { y }" m)) ""
     = Ok "a =  ?  and b =  ? " [GInt 1; GString "b"]
  /\ writeValue (GString "b") (bound sc "a = $1 and b = " [GInt 1])
     = Done (bound sc "a = $1 and b = $2" [GInt 1; GString "b"])
  /\ nth_placeholder sc 2 = "$2".
Proof.
  intros m named sc.
  destruct C2_placeholder_forms as [Ht [Hw [_ [Hn _]]]].
  assert (Hok : Forall (segment_ok m) [("a = ", "x"); (" and b = ", " y ")]).
  { repeat constructor; try discriminate; cbn [snd]; eexists;
      vm_compute; reflexivity. }
  split; [|split; [|split; [|split]]].
  - exact (Ht PostgreSQLDialecter m [("a = ", "x"); (" and b = ", " y ")] "" ""
             Hok eq_refl ltac:(discriminate) ltac:(cbn; lia)).
  - exact (Ht named m [("a = ", "x"); (" and b = ", " y ")] "" ""
             Hok eq_refl ltac:(discriminate) ltac:(cbn; lia)).
  - exact (Ht AnsiDialecter m [("a = ", "x"); (" and b = ", " y ")] "" ""
             Hok eq_refl ltac:(discriminate) ltac:(cbn; lia)).
  - exact (Hw (GString "b") sc "a = $1 and b = " [GInt 1] ltac:(discriminate)).
  - exact (Hn sc 2%nat eq_refl ltac:(cbn; lia)).
Defined.

(* ===================================================================== *)
(** * The procedure call compiler: checked properties *)
(* ===================================================================== *)

(** What holds of the claim: a procedure with one In parameter and one Out
    parameter compiles to a [CALL] with one placeholder and one session
    variable, followed by the [SELECT] of that variable, and binds the
    value of the In parameter only. *)
Lemma compileProcedure_in_out (c : AnsiDriver) (name a b source : string)
    (va vb : GoValue) :
  name <> "" ->
  compileProcedure c
    (Some (mkProcedure name [mkParameter a DirIn va; mkParameter b DirOut vb]))
    source
  = Ok ("CALL " ++ name ++ " ( ?, @" ++ b ++ " );" ++ LF ++ "SELECT @" ++ b
        ++ "; ") [va].
Proof.
  intros Hname. unfold compileProcedure. cbn [Procedure_Name].
  destruct (String.eqb_spec name ""); [contradiction|].
  cbn. unfold sqlWriter.WriteString, sqlWriter.Print, sqlWriter.String_.
  cbn [String.concat]. f_equal.
  rewrite !sapp_assoc, ?sapp_nil_r. cbn. now rewrite ?sapp_assoc.
Qed.

(** C5: the code breaks the claim.  With a return parameter [r], the call
    of the procedure [f] is compiled to [SET @rf ( ... )]: the prefix is
    [SET @r] and the name of the procedure follows it at once, without
    the [ = ] of the claim; the rest is as the claim says (the value of
    the In parameter is the only argument and the return variable is
    selected at the end). *)
Theorem C5_return_prefix_lacks_assignment :
  let sp :=
    mkProcedure "f"
      [mkParameter "r" DirReturn GNil; mkParameter "a" DirIn (GInt 3)] in
  ReturnParameterName sp = "r"
  /\ compileProcedure (NewAnsiDriver MysqlDialecter) (Some sp) ""
     = Ok ("SET @rf ( , ? );" ++ LF ++ "SELECT @r; ") [GInt 3]
  /\ String.prefix "SET @r ="
       ("SET @rf ( , ? );" ++ LF ++ "SELECT @r; ") = false.
Proof. repeat split. Qed.

(* ===================================================================== *)
(** * Further properties of the statement compiler *)
(* ===================================================================== *)

Lemma supported_children exp :
  supported exp = (accepted exp && forallb supported (children exp))%bool.
Proof.
  destruct exp; cbn [supported];
    rewrite foldr_children_spec, fold_right_forallb; reflexivity.
Qed.

Lemma returns_skip : returns skip.
Proof. intros sc. now exists sc. Qed.

Lemma returns_onWriter f : returns (onWriter f).
Proof. intros sc. eexists. reflexivity. Qed.

Lemma returns_writeQuote s : returns (writeQuote s).
Proof. intros sc. eexists. reflexivity. Qed.

Lemma returns_seq (a b : Visit) : returns a -> returns b -> returns (a ;; b)%visit.
Proof.
  intros Ha Hb sc. destruct (Ha sc) as [s Hs].
  erewrite andThen_step by exact Hs. apply Hb.
Qed.

Lemma returns_when (b : bool) (v : Visit) : returns v -> returns (when b v).
Proof. destruct b; [auto|intros _; apply returns_skip]. Qed.

Lemma returns_for_each {A : Type} (body : nat -> A -> Visit) (l : list A) :
  (forall i x, In x l -> returns (body i x)) ->
  forall i, returns (for_each body i l).
Proof.
  induction l as [|x l IH]; intros H i; cbn [for_each].
  - apply returns_skip.
  - apply returns_seq; [apply H; now left|].
    apply IH. intros j y Hy. apply H. now right.
Qed.

Lemma returns_writeValue v : returns (writeValue v).
Proof.
  intros sc. destruct (binds_writeValue v sc) as [sc' [H _]]. now exists sc'.
Qed.

Lemma returns_visitValue v : returns (visitValue v).
Proof.
  destruct v as [v|]; cbn [visitValue]; [|apply returns_onWriter].
  destruct (Value_Value v);
    first [apply returns_onWriter | apply returns_writeValue].
Qed.

Lemma returns_visitTable t : returns (visitTable t).
Proof.
  intros sc. destruct (binds_visitTable t sc) as [sc' [H _]]. now exists sc'.
Qed.

Lemma returns_slice_loop {A : Type} (emit : A -> Visit) (l : list A) :
  (forall x, returns (emit x)) -> returns (slice_loop emit l).
Proof.
  intros H. apply returns_for_each. intros i x _.
  apply returns_seq; [apply returns_when, returns_onWriter|apply H].
Qed.

Lemma returns_visitSlice v : returns (visitSlice v).
Proof.
  destruct v; cbn [visitSlice reflect_Indirect reflect_elements];
    try (apply returns_slice_loop; intros x;
         first [apply returns_onWriter | apply returns_writeValue]);
    try apply returns_writeValue.
  destruct target as [x|]; [|apply returns_writeValue].
  destruct x; cbn [reflect_elements];
    first [ apply returns_slice_loop; intros y; apply returns_writeValue
          | apply returns_writeValue ].
Qed.

(** One step of the proof that a visit built from visits that return
    returns. *)
Ltac returns_step :=
  match goal with
  | H : ?P |- ?P => exact H
  | |- returns skip => apply returns_skip
  | |- returns (onWriter _) => apply returns_onWriter
  | |- returns (WriteString _) => apply returns_onWriter
  | |- returns (Print _) => apply returns_onWriter
  | |- returns (PrintSplit _ _) => apply returns_onWriter
  | |- returns Comma => apply returns_onWriter
  | |- returns Blank => apply returns_onWriter
  | |- returns LineBreak => apply returns_onWriter
  | |- returns OpenParens => apply returns_onWriter
  | |- returns CloseParens => apply returns_onWriter
  | |- returns (visitColumn _) => apply returns_onWriter
  | |- returns (writeQuote _) => apply returns_writeQuote
  | |- returns (writeValue _) => apply returns_writeValue
  | |- returns (visitValue _) => apply returns_visitValue
  | |- returns (visitTable _) => apply returns_visitTable
  | |- returns (visitSlice _) => apply returns_visitSlice
  | |- returns (andThen _ _) => apply returns_seq
  | |- returns (when _ _) => apply returns_when
  | |- returns (if ?b then _ else _) => destruct b
  end.

Section ReturnsNodes.
Variable visit : Expression -> Visit.

Let returns_at (c : Expression) : Prop := returns (visit c).

Lemma returns_visitCondition c :
  Forall returns_at (option_foldr (Condition_foldr cons) c []) ->
  returns (visitCondition visit c).
Proof.
  destruct c as [c|]; cbn [option_foldr visitCondition];
    [|intros _; apply returns_skip].
  unfold Condition_foldr. intros H.
  inversion H as [|? ? Hl H']; subst. inversion H' as [|? ? Hr _]; subst.
  cbv zeta. unfold visitIn.
  repeat returns_step.
  destruct (Condition_Right c); repeat returns_step.
  destruct (Value_Value v); repeat returns_step.
Qed.

Lemma returns_visitAggregate a :
  Forall returns_at (option_foldr (Aggregate_foldr cons) a []) ->
  returns (visitAggregate visit a).
Proof.
  destruct a as [a|]; cbn [option_foldr visitAggregate];
    [|intros _; apply returns_skip].
  unfold Aggregate_foldr. intros H. inversion H; subst.
  repeat returns_step.
Qed.

Lemma returns_visitConditions_loop l :
  Forall returns_at l ->
  forall i deep, returns (visitConditions_loop visit i deep l).
Proof.
  induction 1 as [|item l Hitem Hl IH]; intros i deep;
    cbn [visitConditions_loop]; [apply returns_skip|].
  destruct (is_nil item); [apply IH|].
  repeat returns_step. apply IH.
Qed.

Lemma returns_visitConditions c :
  Forall returns_at (option_foldr (Conditions_foldr cons) c []) ->
  returns (visitConditions visit c).
Proof.
  destruct c as [c|]; cbn [option_foldr visitConditions];
    [|intros _; apply returns_skip].
  unfold Conditions_foldr. rewrite fold_right_cons_nil. intros H.
  apply returns_seq; [|returns_step].
  now apply returns_visitConditions_loop.
Qed.

Lemma returns_visitJoin j :
  Forall returns_at (option_foldr (Join_foldr cons) j []) ->
  returns (visitJoin visit j).
Proof.
  destruct j as [j|]; cbn [option_foldr visitJoin];
    [|intros _; apply returns_skip].
  unfold Join_foldr. intros H. repeat returns_step.
  destruct (Join_Conditions j) as [cs|]; [|apply returns_skip].
  cbn [option_foldr] in H. unfold Conditions_foldr in H.
  rewrite fold_right_cons_nil in H. rewrite List.Forall_forall in H.
  repeat returns_step.
  apply returns_for_each. intros i x Hx. repeat returns_step. now apply H.
Qed.

Lemma returns_visitFrom f :
  Forall returns_at (option_foldr (From_foldr cons) f []) ->
  returns (visitFrom visit f).
Proof.
  destruct f as [f|]; cbn [option_foldr visitFrom];
    [|intros _; apply returns_skip].
  unfold From_foldr. intros H. repeat returns_step.
  - destruct (From_Table f); repeat returns_step.
  - apply returns_for_each. intros i x _. repeat returns_step.
  - apply returns_for_each. intros i x Hx. repeat returns_step.
    apply returns_visitJoin.
    exact (Forall_kids_list _ _ _ Join_kids_acc H x Hx).
Qed.

Lemma returns_visitWhere w :
  Forall returns_at (option_foldr (Where_foldr cons) w []) ->
  returns (visitWhere visit w).
Proof.
  destruct w as [w|]; cbn [option_foldr visitWhere];
    [|intros _; apply returns_skip].
  unfold Where_foldr. intros H. repeat returns_step.
  now apply returns_visitConditions.
Qed.

Lemma returns_visitHaving h :
  Forall returns_at (option_foldr (Having_foldr cons) h []) ->
  returns (visitHaving visit h).
Proof.
  destruct h as [h|]; cbn [option_foldr visitHaving];
    [|intros _; apply returns_skip].
  unfold Having_foldr. intros H. repeat returns_step.
  now apply returns_visitConditions.
Qed.

Lemma returns_visitField f :
  Forall returns_at (option_foldr (Field_foldr cons) f []) ->
  returns (visitField visit f).
Proof.
  destruct f as [f|]; cbn [option_foldr visitField];
    [|intros _; apply returns_skip].
  unfold Field_foldr. intros H. inversion H; subst. repeat returns_step.
Qed.

Lemma returns_visitSelect s :
  Forall returns_at (option_foldr (Select_foldr cons) s []) ->
  returns (visitSelect visit s).
Proof.
  destruct s as [s|]; cbn [option_foldr visitSelect];
    [|intros _; returns_step].
  unfold Select_foldr. intros H.
  destruct (Select_Fields s) as [|f0 fields] eqn:E; [returns_step|].
  rewrite <- E. rewrite <- E in H. clear E.
  apply returns_seq; [|returns_step].
  apply returns_for_each. intros i x Hx. repeat returns_step.
  apply returns_visitField.
  exact (Forall_kids_list _ _ _ Field_kids_acc H x Hx).
Qed.

Lemma returns_visitGroupBy g :
  Forall returns_at (option_foldr (GroupBy_foldr cons) g []) ->
  returns (visitGroupBy visit g).
Proof.
  destruct g as [g|]; cbn [option_foldr visitGroupBy];
    [|intros _; apply returns_skip].
  unfold GroupBy_foldr. rewrite fold_right_cons_nil. intros H.
  destruct (GroupBy_Fields g) as [|f0 fields] eqn:E; [apply returns_skip|].
  rewrite <- E. rewrite <- E in H. clear E.
  rewrite List.Forall_forall in H.
  repeat returns_step.
  apply returns_for_each. intros i x Hx. repeat returns_step. now apply H.
Qed.

Lemma returns_visitOrderBy o :
  Forall returns_at (option_foldr (OrderBy_foldr cons) o []) ->
  returns (visitOrderBy visit o).
Proof.
  destruct o as [o|]; cbn [option_foldr visitOrderBy];
    [|intros _; apply returns_skip].
  unfold OrderBy_foldr. intros H.
  destruct (OrderBy_Fields o) as [|f0 fields] eqn:E; [apply returns_skip|].
  rewrite <- E. rewrite <- E in H. clear E.
  repeat returns_step.
  apply returns_for_each. intros i x Hx.
  assert (Hx' := Forall_kids_list
                   (fun item => cons (OrderByField_Exp item)) _ _
                   (fun _ _ => eq_refl) H x Hx).
  inversion Hx'; subst. repeat returns_step.
Qed.

Lemma returns_Sets_values (body : nat -> SetItem Expression -> Visit) sets :
  (forall i set, returns_at (Set_Value set) -> returns (body i set)) ->
  Forall returns_at (Sets_foldr cons sets []) ->
  returns (for_each body 0 sets).
Proof.
  intros Hbody H. apply returns_for_each. intros i x Hx. apply Hbody.
  assert (Hx' := Forall_kids_list
                   (fun set => cons (Set_Value set)) _ _
                   (fun _ _ => eq_refl) H x Hx).
  now inversion Hx'.
Qed.

Lemma returns_visitQuery q :
  Forall returns_at (Query_foldr cons q []) -> returns (visitQuery visit q).
Proof.
  unfold Query_foldr, visitQuery. intros H.
  rewrite Select_kids_acc, From_kids_acc, Where_kids_acc, GroupBy_kids_acc,
    Having_kids_acc in H.
  repeat (apply Forall_app in H; destruct H as [? H]).
  repeat first
    [ returns_step
    | now apply returns_visitSelect | now apply returns_visitFrom
    | now apply returns_visitWhere | now apply returns_visitGroupBy
    | now apply returns_visitHaving | now apply returns_visitOrderBy ].
Qed.

Lemma returns_visitInsert i :
  Forall returns_at (Insert_foldr cons i []) -> returns (visitInsert visit i).
Proof.
  unfold Insert_foldr, visitInsert. intros H.
  repeat first
    [ returns_step
    | apply returns_Sets_values; [intros|assumption]
    | apply returns_for_each; intros ].
Qed.

Lemma returns_visitUpdate u :
  Forall returns_at (Update_foldr cons u []) -> returns (visitUpdate visit u).
Proof.
  unfold Update_foldr, visitUpdate. intros H.
  rewrite Sets_kids_acc, Where_kids_acc in H.
  repeat (apply Forall_app in H; destruct H as [? H]).
  repeat first
    [ returns_step
    | now apply returns_visitWhere | now apply returns_visitOrderBy
    | apply returns_Sets_values; [intros|assumption] ].
Qed.

Lemma returns_visitDelete d :
  Forall returns_at (Delete_foldr cons d []) -> returns (visitDelete visit d).
Proof.
  unfold Delete_foldr, visitDelete. intros H.
  rewrite Where_kids_acc in H.
  repeat (apply Forall_app in H; destruct H as [? H]).
  repeat first
    [ returns_step
    | now apply returns_visitWhere | now apply returns_visitOrderBy ].
Qed.
End ReturnsNodes.

Lemma returns_visitExp exp : supported exp = true -> returns (visitExp exp).
Proof.
  induction exp as [exp IH] using Expression_children_ind.
  intros Hs. rewrite supported_children in Hs.
  apply andb_true_iff in Hs. destruct Hs as [Ha Hk].
  assert (H : Forall (fun c => returns (visitExp c)) (children exp)).
  { rewrite forallb_forall in Hk. rewrite List.Forall_forall in *.
    intros c Hc. apply IH; auto. }
  clear IH Hk. unfold children in *.
  destruct exp; cbn [visitExp foldr_children] in *; try discriminate;
    first [ apply returns_skip | apply returns_onWriter
          | apply returns_visitTable | apply returns_visitValue
          | now apply returns_visitQuery | now apply returns_visitInsert
          | now apply returns_visitUpdate | now apply returns_visitDelete
          | now apply returns_visitCondition | now apply returns_visitAggregate
          | now apply returns_visitSelect | now apply returns_visitFrom
          | now apply returns_visitJoin | now apply returns_visitWhere
          | now apply returns_visitGroupBy | now apply returns_visitHaving
          | now apply returns_visitOrderBy ].
Qed.



Lemma same_reading_reset a b : same_reading a b -> reset a = reset b.
Proof.
  intros [Hd [Hs [Hp Hk]]]. unfold reset. now rewrite Hd, Hs, Hp, Hk.
Qed.

Lemma glue_bound sc r :
  sc_Dialecter r = sc_Dialecter sc ->
  sc_source r = sc_source sc ->
  sc_placeHolder r = sc_placeHolder sc ->
  sc_paraIndex r
  = advance (sc_Dialecter sc) (sc_paraIndex sc) (length (sc_args r)) ->
  glue sc r = bound sc (sc_w r) (sc_args r).
Proof. intros Hd Hs Hp Hk. unfold glue, bound. now rewrite Hd, Hs, Hp, Hk. Qed.

(** X2: a visit only appends, and what it appends does not depend on what
    the compiler holds.  From two compilers with the same dialect, source,
    token and counter, the visit of a tree either panics with the same
    message, or returns after writing the same text behind the text of
    each one and binding the same values behind the arguments of each
    one. *)
Theorem X2_visits_append_the_same :
  forall (exp : Expression) (a b : StatementCompiler),
    same_reading a b ->
    (exists t l, visitExp exp a = Done (bound a t l)
                 /\ visitExp exp b = Done (bound b t l))
    \/ (exists msg, visitExp exp a = Panicked msg
                    /\ visitExp exp b = Panicked msg).
Proof.
  intros exp a b Hab.
  pose proof (framed_visitExp exp a) as Fa.
  pose proof (framed_visitExp exp b) as Fb.
  rewrite <- (same_reading_reset a b Hab) in Fb.
  destruct (visitExp exp (reset a)) as [r|msg].
  - left. destruct Fa as [Ea [Hd [Hs [Hp Hk]]]].
    destruct Fb as [Eb [Hd' [Hs' [Hp' Hk']]]].
    exists (sc_w r), (sc_args r).
    rewrite Ea, Eb, !glue_bound by assumption. auto.
  - right. exists msg. auto.
Qed.

(** X2 on a condition visited from an empty compiler and from one that
    holds text and an argument. *)
Lemma X2_visits_append_the_same_witness :
  let a := compile_start PostgreSQLDialecter "" in
  let b :=
    {| sc_Dialecter := PostgreSQLDialecter; sc_source := "";
       sc_w := "x = $9 AND "; sc_args := [GInt 9]; sc_paraIndex := 0;
       sc_placeHolder := "$" |} in
  let exp :=
    ECondition (mkCondition (EColumn (mkColumn "c")) (mkOperator "=")
                  (EValue (mkValue (GInt 1)))) in
  same_reading a b
  /\ ((exists t l, visitExp exp a = Done (bound a t l)
                   /\ visitExp exp b = Done (bound b t l))
      \/ (exists msg, visitExp exp a = Panicked msg
                      /\ visitExp exp b = Panicked msg)).
Proof.
  intros a b exp.
  assert (H : same_reading a b) by (repeat split).
  split; [exact H|]. exact (X2_visits_append_the_same exp a b H).
Defined.

(** X3: [StatementCompiler.Compile] starts a new text but keeps the
    arguments the compiler holds: on a compiler that already holds
    arguments it returns the query it returns without them, and the new
    arguments behind the old ones (and the same error or panic). *)
Theorem X3_compile_keeps_earlier_arguments :
  forall (sc : StatementCompiler) (exp : Expression) (source : string),
    StatementCompiler_Compile sc exp source
    = match StatementCompiler_Compile (clear_args sc) exp source with
      | Ok query args => Ok query (sc_args sc ++ args)
      | r => r
      end.
Proof.
  intros sc exp source.
  assert (H : forall v : Visit, framed v ->
            forall d s l k p,
            match v (mkStatementCompiler d s "" l k p) with
            | Done sc' => Ok (sqlWriter.String_ (sc_w sc')) (sc_args sc')
            | Panicked msg => Panic msg
            end
            = match match v (mkStatementCompiler d s "" [] k p) with
                    | Done sc' => Ok (sqlWriter.String_ (sc_w sc')) (sc_args sc')
                    | Panicked msg => Panic msg
                    end with
              | Ok query args => Ok query (l ++ args)
              | r => r
              end).
  { intros v Fv d s l k p.
    pose proof (Fv (mkStatementCompiler d s "" l k p)) as F0.
    change (reset (mkStatementCompiler d s "" l k p))
      with (mkStatementCompiler d s "" [] k p) in F0.
    pose proof (Fv (mkStatementCompiler d s "" [] k p)) as F1.
    change (reset (mkStatementCompiler d s "" [] k p))
      with (mkStatementCompiler d s "" [] k p) in F1.
    destruct (v (mkStatementCompiler d s "" [] k p)) as [r|msg].
    - destruct F0 as [-> _]. reflexivity.
    - now rewrite F0. }
  destruct exp; cbn [StatementCompiler_Compile clear_args sc_Dialecter
                       sc_args sc_paraIndex]; try reflexivity;
    apply H.
  - apply framed_visitQuery, Forall_framed_visitExp.
  - apply framed_visitInsert, Forall_framed_visitExp.
  - apply framed_visitUpdate, Forall_framed_visitExp.
  - apply framed_visitDelete, Forall_framed_visitExp.
Qed.

(* ===================================================================== *)
(** * Runs of literals: value lists, set lists and sequences *)
(* ===================================================================== *)

Lemma writeValue_nil_after sc t l :
  writeValue GNil (bound sc t l) = Done (bound sc (t ++ ansi.Null) l).
Proof.
  cbn [writeValue]. rewrite WriteString_wrote, wrote_bound. reflexivity.
Qed.

Lemma Comma_when_bound (b : bool) sc t l :
  when b Comma (bound sc t l)
  = Done (bound sc (t ++ (if b then ansi.Comma else "")) l).
Proof.
  destruct b; cbn [when].
  - now rewrite Comma_wrote, wrote_bound.
  - unfold skip. now rewrite sapp_nil_r.
Qed.

Lemma WriteString_bound s sc t l :
  WriteString s (bound sc t l) = Done (bound sc (t ++ s) l).
Proof. now rewrite WriteString_wrote, wrote_bound. Qed.

Lemma andThen_ext (a b b' : Visit) :
  (forall s, b s = b' s) -> forall s, (a ;; b)%visit s = (a ;; b')%visit s.
Proof. intros H s. unfold andThen. destruct (a s); [apply H|reflexivity]. Qed.

(** A comma (or none), a prefix and a literal. *)
Lemma literal_bound (b : bool) (p : string) (v : GoValue) sc t l0 :
  (when b Comma ;; WriteString p ;; writeValue v)%visit (bound sc t l0)
  = Done (if is_GNil v
          then bound sc (t ++ (if b then ansi.Comma else "") ++ p ++ ansi.Null) l0
          else bound sc (t ++ (if b then ansi.Comma else "") ++ p
                           ++ nth_placeholder sc (S (length l0)))
                 (l0 ++ [v])).
Proof.
  erewrite andThen_step by apply Comma_when_bound.
  erewrite andThen_step by apply WriteString_bound.
  destruct (is_GNil v) eqn:En.
  - destruct v; try discriminate.
    rewrite writeValue_nil_after. now rewrite !sapp_assoc.
  - rewrite writeValue_after by (intros E; rewrite E in En; discriminate).
    now rewrite !sapp_assoc.
Qed.

Lemma bound_values_cons (v : GoValue) (vs : list GoValue) :
  bound_values (v :: vs)
  = if is_GNil v then bound_values vs else v :: bound_values vs.
Proof. unfold bound_values. cbn [List.filter]. now destruct (is_GNil v). Qed.

Lemma bound_values_app (vs ws : list GoValue) :
  bound_values (vs ++ ws) = (bound_values vs ++ bound_values ws)%list.
Proof. apply List.filter_app. Qed.

Lemma concat_sep_cons (sep s : string) (l : list string) :
  String.concat sep (s :: l)
  = s ++ match l with
         | [] => ""
         | _ => sep ++ String.concat sep l
         end.
Proof. destruct l; cbn [String.concat]; now rewrite ?sapp_nil_r. Qed.

Lemma concat_empty_cons (s : string) (l : list string) :
  String.concat "" (s :: l) = s ++ String.concat "" l.
Proof. rewrite concat_sep_cons. now destruct l. Qed.

(** The first text of a list joined by commas, then the others. *)
Lemma concat_comma_cons (s : string) (l : list string) :
  String.concat ansi.Comma (s :: l)
  = s ++ match l with
         | [] => ""
         | _ => ansi.Comma ++ String.concat ansi.Comma l
         end.
Proof. destruct l; cbn [String.concat]; now rewrite ?sapp_nil_r. Qed.

(** A loop that writes, for every element, a comma (but for the first), a
    prefix and a literal. *)
Lemma for_each_bound {A : Type} (emit : A -> Visit) (pre : A -> string)
    (val : A -> GoValue) :
  (forall x s, emit x s = (WriteString (pre x) ;; writeValue (val x))%visit s) ->
  forall (l : list A) (i : nat) sc t l0,
    for_each (fun i x => when (0 <? i)%nat Comma ;; emit x)%visit i l
      (bound sc t l0)
    = Done (bound sc
              (t ++ match l with
                    | [] => ""
                    | _ => (if (0 <? i)%nat then ansi.Comma else "")
                           ++ String.concat ansi.Comma
                                (bound_texts sc (length l0)
                                   (map (fun x => (pre x, val x)) l))
                    end)
              (l0 ++ bound_values (map val l))).
Proof.
  intros Hemit. induction l as [|x l IH]; intros i sc t l0; cbn [for_each].
  - unfold skip. now rewrite sapp_nil_r, app_nil_r.
  - assert (Hbody : (when (0 <? i)%nat Comma ;; emit x)%visit (bound sc t l0)
                    = (when (0 <? i)%nat Comma ;; WriteString (pre x) ;;
                       writeValue (val x))%visit (bound sc t l0)).
    { apply andThen_ext, Hemit. }
    erewrite andThen_step by (rewrite Hbody; apply literal_bound).
    cbn [map bound_texts]. rewrite bound_values_cons.
    destruct (is_GNil (val x)) eqn:En; rewrite IH, concat_comma_cons.
    + do 2 f_equal. rewrite !sapp_assoc. do 3 f_equal.
      destruct l as [|y l]; [reflexivity|]. cbn [map bound_texts].
      now destruct (is_GNil (val y)).
    + rewrite <- app_assoc. cbn [app].
      rewrite length_app. cbn [length]. rewrite Nat.add_1_r.
      do 2 f_equal. rewrite !sapp_assoc. do 3 f_equal.
      destruct l as [|y l]; [reflexivity|]. cbn [map bound_texts].
      now destruct (is_GNil (val y)).
Qed.

Lemma for_each_bound_first {A : Type} (emit : A -> Visit) (pre : A -> string)
    (val : A -> GoValue) (l : list A) sc t l0 :
  (forall x s, emit x s = (WriteString (pre x) ;; writeValue (val x))%visit s) ->
  for_each (fun i x => when (0 <? i)%nat Comma ;; emit x)%visit 0 l
    (bound sc t l0)
  = Done (bound sc
            (t ++ String.concat ansi.Comma
                    (bound_texts sc (length l0)
                       (map (fun x => (pre x, val x)) l)))
            (l0 ++ bound_values (map val l))).
Proof.
  intros H. rewrite (for_each_bound emit pre val H). now destruct l.
Qed.

Lemma slice_loop_bound (l : list GoValue) sc :
  slice_loop writeValue l sc
  = Done (bound sc (String.concat ansi.Comma (literal_texts sc l))
            (bound_values l)).
Proof.
  unfold slice_loop, literal_texts.
  rewrite <- (wrote_nil sc) at 1. rewrite <- bound_nil.
  rewrite (for_each_bound_first writeValue (fun _ => "") (fun v => v)).
  - now rewrite map_id.
  - intros x s.
    now rewrite (andThen_step _ _ s _ (WriteString_wrote "" s)), wrote_nil.
Qed.

Lemma for_each_map {A B : Type} (f : A -> B) (body : nat -> B -> Visit)
    (l : list A) :
  forall i sc,
    for_each body i (map f l) sc = for_each (fun i x => body i (f x)) i l sc.
Proof.
  induction l as [|x l IH]; intros i sc; cbn [map for_each]; [reflexivity|].
  unfold andThen. destruct (body i (f x) sc); [apply IH|reflexivity].
Qed.

(** The visit of a literal is [writeValue] of its value. *)
Lemma visitExp_literal (v : GoValue) sc :
  visitExp (EValue (mkValue v)) sc
  = (WriteString "" ;; writeValue v)%visit sc.
Proof.
  rewrite (andThen_step _ _ sc _ (WriteString_wrote "" sc)), wrote_nil.
  now destruct v.
Qed.

Lemma literal_texts_map {A : Type} (val : A -> GoValue) (l : list A) sc :
  bound_texts sc 0 (map (fun x => ("", val x)) l)
  = literal_texts sc (map val l).
Proof. unfold literal_texts. now rewrite map_map. Qed.

(** The two lists of an insert of literals. *)
Lemma visitInsert_literals (t : Table) (cvs : list (Column * GoValue)) sc :
  visitInsert visitExp (mkInsert t (literal_sets cvs)) sc
  = Done (bound sc (insert_text sc t cvs) (bound_values (map snd cvs))).
Proof.
  unfold visitInsert, insert_text.
  cbn [Insert_Table Insert_Sets].
  erewrite andThen_step by apply Print_wrote.
  erewrite andThen_step by apply OpenParens_wrote.
  erewrite andThen_step.
  2:{ unfold literal_sets. rewrite for_each_map.
      cbn [Set_Column Set_Value fst snd]. unfold visitColumn.
      apply (for_each_literals (fun cv : Column * GoValue => Column_String (fst cv))). }
  erewrite andThen_step by apply CloseParens_wrote.
  erewrite andThen_step by apply LineBreak_wrote.
  erewrite andThen_step by apply WriteString_wrote.
  erewrite andThen_step by apply OpenParens_wrote.
  rewrite !wrote_wrote.
  erewrite andThen_step.
  2:{ unfold literal_sets. rewrite for_each_map.
      cbn [Set_Column Set_Value fst snd].
      rewrite <- bound_nil.
      apply (for_each_bound_first
               (fun cv : Column * GoValue => visitExp (EValue (mkValue (snd cv))))
               (fun _ => "") snd).
      intros x s. apply visitExp_literal. }
  erewrite andThen_step by (rewrite <- wrote_bound; apply CloseParens_wrote).
  rewrite WriteString_wrote, !wrote_bound. cbn [length app].
  rewrite literal_texts_map. f_equal. f_equal.
  cbn [String.concat]. rewrite !sapp_assoc.
  destruct cvs; cbn [map]; now rewrite ?sapp_assoc.
Qed.

(** X4: an insert of literals compiles, under every dialect, to
    [INSERT INTO t(c1,...,cn)], a line break and [VALUES(p1,...,pn);],
    where [pi] is [NULL] when the i-th value is nil and the next
    placeholder otherwise; the arguments are the values that are not nil,
    in the order of the columns. *)
Theorem X4_insert_of_literals :
  forall (d : Dialecter) (source : string) (t : Table)
         (cvs : list (Column * GoValue)),
    Compile (NewAnsiDriver d) source (EInsert (mkInsert t (literal_sets cvs)))
    = Ok (insert_text (compile_start d source) t cvs)
         (bound_values (map snd cvs)).
Proof.
  intros d source t cvs.
  rewrite Compile_statement by reflexivity.
  cbn [visitExp]. rewrite visitInsert_literals. reflexivity.
Qed.

(** X5: [visitSlice] binds the elements of a [[]string], of a
    [[]interface{}], of a slice or array read by reflection and of any
    sequence behind a pointer: it writes, separated by commas, [NULL] for
    an element that is nil and the next placeholder for any other, and
    binds the elements that are not nil, in sequence order. *)
Theorem X5_sequences_are_bound :
  forall (v : GoValue) (l : list GoValue) (sc : StatementCompiler),
    bound_elements v = Some l ->
    visitSlice v sc
    = Done (bound sc (String.concat ansi.Comma (literal_texts sc l))
              (bound_values l)).
Proof.
  intros v l sc H.
  assert (E : visitSlice v sc = slice_loop writeValue l sc).
  { destruct v; cbn in H; try discriminate; cbn [visitSlice].
    - injection H as <-. unfold slice_loop. now rewrite for_each_map.
    - now injection H as <-.
    - now injection H as <-.
    - cbn [reflect_Indirect]. destruct target as [x|]; cbn in H |- *;
        [|discriminate]. now rewrite H. }
  rewrite E. apply slice_loop_bound.
Qed.

(** X5 on a [[]interface{}] that holds a nil. *)
Lemma X5_sequences_are_bound_witness :
  let v := GIfaceSlice [GInt 1; GNil; GString "a"] in
  let sc := compile_start PostgreSQLDialecter "" in
  bound_elements v = Some [GInt 1; GNil; GString "a"]
  /\ visitSlice v sc = Done (bound sc "$1,NULL,$2" [GInt 1; GString "a"]).
Proof.
  intros v sc. split; [reflexivity|].
  exact (X5_sequences_are_bound v [GInt 1; GNil; GString "a"] sc eq_refl).
Defined.

Lemma bound_values_numbers {A : Type} (box : A -> GoValue) (l : list A) :
  (forall x, is_GNil (box x) = false) ->
  bound_values (map box l) = map box l.
Proof.
  intros H. induction l as [|x l IH]; [reflexivity|].
  cbn [map]. now rewrite bound_values_cons, H, IH.
Qed.

(** X6: a numeric slice ([[]int], [[]int64], [[]float32], [[]float64])
    passed by value is written into the text, its elements separated by
    commas, and nothing is bound; the same slice passed by pointer is
    bound element by element, one placeholder and one argument for each. *)
Theorem X6_numeric_slices_by_value_and_by_pointer :
  forall (v : GoValue) (texts : list string) (sc : StatementCompiler),
    inlined_texts v = Some texts ->
    visitSlice v sc = Done (wrote sc (String.concat ansi.Comma texts))
    /\ exists els : list GoValue,
         reflect_elements v = Some els
         /\ length els = length texts
         /\ visitSlice (GPtr (Some v)) sc
            = Done (bound sc (String.concat ansi.Comma (literal_texts sc els))
                      els).
Proof.
  intros v texts sc H.
  destruct v; cbn in H; try discriminate; injection H as <-;
    (split; [cbn [visitSlice]; apply slice_loop_literals|]).
  - exists (map GInt l). split; [reflexivity|].
    split; [now rewrite !length_map|].
    cbn [visitSlice reflect_Indirect reflect_elements].
    rewrite slice_loop_bound. now rewrite bound_values_numbers.
  - exists (map GInt64 l). split; [reflexivity|].
    split; [now rewrite !length_map|].
    cbn [visitSlice reflect_Indirect reflect_elements].
    rewrite slice_loop_bound. now rewrite bound_values_numbers.
  - exists (map GFloat32 l). split; [reflexivity|].
    split; [now rewrite !length_map|].
    cbn [visitSlice reflect_Indirect reflect_elements].
    rewrite slice_loop_bound. now rewrite bound_values_numbers.
  - exists (map GFloat64 l). split; [reflexivity|].
    split; [now rewrite !length_map|].
    cbn [visitSlice reflect_Indirect reflect_elements].
    rewrite slice_loop_bound. now rewrite bound_values_numbers.
Qed.

(** X6 on a [[]int64]. *)
Lemma X6_numeric_slices_by_value_and_by_pointer_witness :
  let v := GInt64Slice [7; 8] in
  let sc := compile_start PostgreSQLDialecter "" in
  inlined_texts v = Some ["7"; "8"]
  /\ visitSlice v sc = Done (wrote sc "7,8")
  /\ exists els : list GoValue,
       reflect_elements v = Some els
       /\ length els = 2%nat
       /\ visitSlice (GPtr (Some v)) sc
          = Done (bound sc (String.concat "," (literal_texts sc els)) els).
Proof.
  intros v sc. split; [reflexivity|].
  exact (X6_numeric_slices_by_value_and_by_pointer v ["7"; "8"] sc eq_refl).
Defined.

Lemma PrintSplit_wrote split l sc :
  PrintSplit split l sc = Done (wrote sc (String.concat split l)).
Proof. reflexivity. Qed.

Lemma count_clause_wrote (count : Z) sc :
  when (0 <? count)
    (LineBreak ;; PrintSplit " " [ansi.Limit; Itoa count])%visit sc
  = Done (wrote sc (count_clause count)).
Proof.
  unfold count_clause. destruct (0 <? count); cbn [when].
  - erewrite andThen_step by apply LineBreak_wrote.
    rewrite PrintSplit_wrote, wrote_wrote. reflexivity.
  - unfold skip. now rewrite wrote_nil.
Qed.

(** The end of an update and of a delete: the count and the semicolon. *)
Lemma statement_tail_wrote (count : Z) sc :
  (when (0 <? count)
     (LineBreak ;; PrintSplit " " [ansi.Limit; Itoa count]) ;;
   WriteString ansi.StatementSplit)%visit sc
  = Done (wrote sc (count_clause count ++ ansi.StatementSplit)).
Proof.
  erewrite andThen_step by apply count_clause_wrote.
  now rewrite WriteString_wrote, wrote_wrote.
Qed.

(** The assignments of an update of literals. *)
Lemma visitUpdate_sets (cvs : list (Column * GoValue)) sc t :
  for_each (fun i set => when (0 <? i)%nat Comma ;;
                         visitColumn (Set_Column set) ;;
                         WriteString ansi.Equals ;;
                         visitExp (Set_Value set))%visit
    0%nat (literal_sets cvs) (wrote sc t)
  = Done (bound sc (t ++ String.concat ansi.Comma (set_texts sc cvs))
            (bound_values (map snd cvs))).
Proof.
  unfold literal_sets. rewrite for_each_map. cbn [Set_Column Set_Value].
  rewrite <- bound_nil.
  rewrite (for_each_bound_first
             (fun cv : Column * GoValue =>
                visitColumn (fst cv) ;; WriteString ansi.Equals ;;
                visitExp (EValue (mkValue (snd cv))))%visit
             (fun cv => Column_String (fst cv) ++ ansi.Equals) snd).
  - reflexivity.
  - intros x s. unfold visitColumn.
    erewrite andThen_step by apply WriteString_wrote.
    erewrite andThen_step by apply WriteString_wrote.
    erewrite (andThen_step (WriteString _)) by apply WriteString_wrote.
    rewrite wrote_wrote. now destruct (snd x).
Qed.

Lemma andThen_two (a b c : Visit) sc :
  (a ;; b ;; c)%visit sc
  = match (a ;; b)%visit sc with
    | Done s => c s
    | Panicked msg => Panicked msg
    end.
Proof. unfold andThen. now destruct (a sc). Qed.

(** X7: an update of literals writes [UPDATE t SET ], a line break and the
    assignments [c=p] separated by commas, where [p] is [NULL] for a nil
    value and the next placeholder otherwise, and binds the values that
    are not nil, in the order of the assignments, before anything the
    conditions or the order bind; the statement ends with the limit, when
    the count is positive, and a semicolon. *)
Theorem X7_update_of_literals :
  forall (t : Table) (cvs : list (Column * GoValue))
         (w : option (Where Expression)) (o : option (OrderBy Expression))
         (count : Z) (sc : StatementCompiler),
    visitUpdate visitExp (mkUpdate t (literal_sets cvs) w o count) sc
    = match (visitWhere visitExp w ;; visitOrderBy visitExp o)%visit
              (bound sc
                 (update_head t ++ String.concat ansi.Comma (set_texts sc cvs))
                 (bound_values (map snd cvs))) with
      | Done s => Done (wrote s (count_clause count ++ ansi.StatementSplit))
      | Panicked msg => Panicked msg
      end.
Proof.
  intros t cvs w o count sc. unfold visitUpdate.
  cbn [Update_Table Update_Sets Update_Where Update_OrderBy Update_Count].
  erewrite andThen_step by apply PrintSplit_wrote.
  erewrite andThen_step by apply visitUpdate_sets.
  change (String.concat ansi.Blank
            [ansi.Update; Table_Name t; ansi.Set_; ansi.LineBreak])
    with (ansi.Update ++ ansi.Blank ++ Table_Name t ++ ansi.Blank
          ++ ansi.Set_ ++ ansi.Blank ++ ansi.LineBreak).
  fold (update_head t).
  rewrite andThen_two.
  destruct ((visitWhere visitExp w ;; visitOrderBy visitExp o)%visit _)
    as [s|]; [|reflexivity].
  apply statement_tail_wrote.
Qed.

Lemma visitWhere_none (w : option (Where Expression)) sc :
  no_where w = true -> visitWhere visitExp w sc = Done sc.
Proof.
  destruct w as [w|]; cbn [no_where visitWhere]; [|reflexivity].
  now intros ->.
Qed.

Lemma visitOrderBy_none (o : option (OrderBy Expression)) sc :
  no_order o = true -> visitOrderBy visitExp o sc = Done sc.
Proof.
  destruct o as [o|]; cbn [no_order visitOrderBy]; [|reflexivity].
  now destruct (OrderBy_Fields o).
Qed.

(** X8: a delete without conditions and without order compiles, under
    every dialect, to [DELETE FROM t], the limit when the count is
    positive, and a semicolon, with no argument: an absent [Where], and
    one whose conditions are absent or empty, write no [WHERE] at all. *)
Theorem X8_delete_without_conditions :
  forall (d : Dialecter) (source : string) (t : Table)
         (w : option (Where Expression)) (o : option (OrderBy Expression))
         (count : Z),
    no_where w = true ->
    no_order o = true ->
    Compile (NewAnsiDriver d) source (EDelete (mkDelete t w o count))
    = Ok (delete_head t ++ count_clause count ++ ansi.StatementSplit) [].
Proof.
  intros d source t w o count Hw Ho.
  rewrite Compile_statement by reflexivity.
  cbn [visitExp]. unfold visitDelete.
  cbn [Delete_Table Delete_Where Delete_OrderBy Delete_Count].
  erewrite andThen_step by apply PrintSplit_wrote.
  erewrite andThen_step by (apply visitWhere_none, Hw).
  erewrite andThen_step by (apply visitOrderBy_none, Ho).
  rewrite statement_tail_wrote, wrote_wrote. cbn [wrote sc_w sc_args compile_start].
  unfold sqlWriter.empty, delete_head. cbn [String.concat].
  now rewrite ?sapp_assoc.
Qed.

(** X8 on a delete whose [Where] holds an empty sequence of conditions. *)
Lemma X8_delete_without_conditions_witness :
  let w := Some (mkWhere (Some (mkConditions []))) in
  no_where w = true
  /\ no_order None = true
  /\ Compile (NewAnsiDriver AnsiDialecter) "" 
       (EDelete (mkDelete (mkTable "t" "") w None 5))
     = Ok ("DELETE FROM t" ++ LF ++ "LIMIT 5;") [].
Proof.
  intros w. split; [reflexivity|]. split; [reflexivity|].
  exact (X8_delete_without_conditions AnsiDialecter "" (mkTable "t" "") w None 5
           eq_refl eq_refl).
Defined.

(* ===================================================================== *)
(** * Clauses over tables and columns *)
(* ===================================================================== *)

(** A loop that writes a text for every element, behind a comma for all
    but the first (and for the first too when [lead] is set); the text may
    depend on the dialect. *)
Lemma for_each_separated_in {A : Type} (lead : bool) (emit : A -> Visit)
    (text : Dialecter -> A -> string) :
  (forall x sc, emit x sc = Done (wrote sc (text (sc_Dialecter sc) x))) ->
  forall (l : list A) (i : nat) sc,
    for_each (fun i x => when (lead || (0 <? i)%nat) Comma ;; emit x)%visit
      i l sc
    = Done (wrote sc
              (match l with
               | [] => ""
               | _ => (if (lead || (0 <? i)%nat)%bool then ansi.Comma else "")
                      ++ String.concat ansi.Comma
                           (map (text (sc_Dialecter sc)) l)
               end)).
Proof.
  intros Hemit. induction l as [|x l IH]; intros i sc; cbn [for_each].
  - unfold skip. now rewrite wrote_nil.
  - erewrite andThen_step.
    2:{ erewrite andThen_step by apply (when_wrote _ ansi.Comma).
        apply Hemit. }
    rewrite IH, !wrote_wrote. cbn [wrote sc_Dialecter]. do 2 f_equal.
    cbn [map]. rewrite concat_comma_cons, ?sapp_assoc. do 2 f_equal.
    destruct l as [|y l]; [reflexivity|].
    change (0 <? S i)%nat with true. now rewrite orb_true_r.
Qed.

Lemma for_each_separated {A : Type} (lead : bool) (emit : A -> Visit)
    (text : A -> string) :
  (forall x sc, emit x sc = Done (wrote sc (text x))) ->
  forall (l : list A) (i : nat) sc,
    for_each (fun i x => when (lead || (0 <? i)%nat) Comma ;; emit x)%visit
      i l sc
    = Done (wrote sc
              (match l with
               | [] => ""
               | _ => (if (lead || (0 <? i)%nat)%bool then ansi.Comma else "")
                      ++ String.concat ansi.Comma (map text l)
               end)).
Proof.
  intros Hemit. apply (for_each_separated_in lead emit (fun _ => text) Hemit).
Qed.

Lemma visitTable_wrote (t : option Table) sc :
  visitTable t sc = Done (wrote sc (table_text t)).
Proof.
  destruct t as [[name alias]|]; cbn [visitTable table_text Table_Name Table_Alias].
  - destruct (String.eqb_spec name ""), (String.eqb_spec alias "");
      subst; cbn [andb negb]; unfold skip; rewrite ?wrote_nil; reflexivity.
  - unfold skip. now rewrite wrote_nil.
Qed.

Lemma visitFrom_tables (f : From Expression) sc :
  From_Joins f = [] ->
  visitFrom visitExp (Some f) sc
  = Done (wrote sc (LF ++ ansi.From ++ ansi.Blank
                    ++ String.concat ansi.Comma (map table_text (from_tables f))
                    ++ ansi.Blank)).
Proof.
  intros Hj. unfold visitFrom, from_tables. rewrite Hj. cbn [for_each].
  erewrite andThen_step by apply Print_wrote.
  destruct (From_Table f) as [t|].
  - erewrite andThen_step by apply visitTable_wrote.
    erewrite andThen_step
      by apply (for_each_separated true (fun t => visitTable t) table_text
                  visitTable_wrote).
    unfold skip at 1. 
    erewrite andThen_step by reflexivity.
    rewrite Blank_wrote, !wrote_wrote. do 2 f_equal.
    cbn [map]. rewrite concat_comma_cons.
    change (String.concat "" [LF; ansi.From; " "])
      with (LF ++ ansi.From ++ ansi.Blank).
    rewrite ?sapp_assoc. do 4 f_equal.
    now destruct (From_Tables f).
  - erewrite andThen_step by reflexivity.
    erewrite andThen_step
      by apply (for_each_separated false (fun t => visitTable t) table_text
                  visitTable_wrote).
    erewrite andThen_step by reflexivity.
    rewrite Blank_wrote, !wrote_wrote. do 2 f_equal.
    change (String.concat "" [LF; ansi.From; " "])
      with (LF ++ ansi.From ++ ansi.Blank).
    rewrite ?sapp_assoc. do 3 f_equal.
    now destruct (From_Tables f).
Qed.

(** A loop that writes a text for every element. *)
Lemma for_each_wrote {A : Type} (body : nat -> A -> Visit)
    (text : A -> string) :
  (forall i x sc, body i x sc = Done (wrote sc (text x))) ->
  forall (l : list A) (i : nat) sc,
    for_each body i l sc = Done (wrote sc (String.concat "" (map text l))).
Proof.
  intros Hbody. induction l as [|x l IH]; intros i sc; cbn [for_each map].
  - unfold skip. now rewrite wrote_nil.
  - erewrite andThen_step by apply Hbody.
    now rewrite IH, wrote_wrote, concat_empty_cons.
Qed.

Lemma column_condition_wrote (c : Column * Operator * Column) sc :
  visitExp (column_condition c) sc
  = Done (wrote sc (column_condition_text c)).
Proof.
  destruct c as [[a op] b].
  unfold column_condition, column_condition_text. cbn [fst snd visitExp].
  unfold visitCondition.
  cbn [Condition_Left Condition_Right Condition_Op is_nil andb].
  destruct (Operator_eqb op Op.In || Operator_eqb op Op.NotIn)%bool.
  - unfold visitIn. cbn [Condition_Left Condition_Right Condition_Op visitExp].
    unfold visitColumn.
    erewrite andThen_step by apply WriteString_wrote.
    erewrite andThen_step by apply Print_wrote.
    erewrite andThen_step by apply OpenParens_wrote.
    erewrite andThen_step by apply WriteString_wrote.
    rewrite CloseParens_wrote, !wrote_wrote.
    change (String.concat "" [" "; Operator_String op; " "])
      with (" " ++ Operator_String op ++ " ").
    now rewrite ?sapp_assoc.
  - cbn [visitExp]. unfold visitColumn.
    erewrite andThen_step by apply WriteString_wrote.
    erewrite andThen_step by apply Print_wrote.
    rewrite WriteString_wrote, !wrote_wrote.
    change (String.concat "" [" "; Operator_String op; " "])
      with (" " ++ Operator_String op ++ " ").
    now rewrite ?sapp_assoc.
Qed.

Lemma visitJoin_columns (j : ColumnJoin) sc :
  visitJoin visitExp (column_join j) sc = Done (wrote sc (join_text j)).
Proof.
  unfold column_join, visitJoin, join_text.
  cbn [Join_JoinType Join_Right Join_Conditions Conditions_isEmpty
         Conditions_Conditions].
  erewrite andThen_step by apply WriteString_wrote.
  erewrite andThen_step by apply Blank_wrote.
  erewrite andThen_step by apply visitTable_wrote.
  erewrite andThen_step by apply Blank_wrote.
  rewrite !wrote_wrote.
  destruct (ColumnJoin_On j) as [|c on].
  - cbn [map negb when]. unfold skip. now rewrite ?sapp_nil_r, ?sapp_assoc.
  - remember (c :: on) as l eqn:El.
    assert (Hne : match map column_condition l with [] => true | _ => false end
                  = false) by now subst.
    rewrite Hne. cbn [negb when].
    erewrite andThen_step by apply WriteString_wrote.
    rewrite for_each_map.
    rewrite (for_each_wrote
               (fun (_ : nat) (c : Column * Operator * Column) =>
                  Blank ;; visitExp (column_condition c) ;; Blank)%visit
               (fun c => ansi.Blank ++ column_condition_text c ++ ansi.Blank)).
    + rewrite !wrote_wrote. subst l. now rewrite ?sapp_assoc.
    + intros i x s.
      erewrite andThen_step by apply Blank_wrote.
      erewrite andThen_step by apply column_condition_wrote.
      now rewrite Blank_wrote, !wrote_wrote.
Qed.

(** X9: a [From] whose joins are joins on columns writes a line break,
    [FROM], a blank, the texts of [Table] (when there is one) and of the
    entries of [Tables] separated by commas, then every join behind a line
    break, and a blank.  A nil entry and a table without name and alias
    write nothing, but keep their comma.  A join is its type, a blank, its
    table, a blank and, when it has conditions, [ON] and every condition
    between two blanks; a condition between two columns is [a op b], and
    [a op (b)] when the operator is [IN] or [NOT IN].  Nothing is bound. *)
Theorem X9_from_clause_of_tables_and_joins :
  forall (f : From Expression) (js : list ColumnJoin)
         (sc : StatementCompiler),
    From_Joins f = map column_join js ->
    visitFrom visitExp (Some f) sc = Done (wrote sc (from_joins_text f js)).
Proof.
  intros f js sc Hj. unfold visitFrom, from_tables, from_joins_text. rewrite Hj.
  assert (Hjoins : forall s,
            for_each (fun (_ : nat) j => LineBreak ;; visitJoin visitExp j)%visit
              0 (map column_join js) s
            = Done (wrote s (String.concat ""
                               (map (fun j => ansi.LineBreak ++ join_text j) js)))).
  { intros s. rewrite for_each_map.
    apply (for_each_wrote
             (fun (_ : nat) j => LineBreak ;; visitJoin visitExp (column_join j))%visit
             (fun j => ansi.LineBreak ++ join_text j)).
    intros i x s'.
    erewrite andThen_step by apply LineBreak_wrote.
    now rewrite visitJoin_columns, wrote_wrote. }
  erewrite andThen_step by apply Print_wrote.
  change (String.concat "" [LF; ansi.From; " "])
    with (LF ++ ansi.From ++ ansi.Blank).
  unfold from_tables.
  destruct (From_Table f) as [t|].
  - erewrite andThen_step by apply visitTable_wrote.
    erewrite andThen_step
      by apply (for_each_separated true (fun t => visitTable t) table_text
                  visitTable_wrote).
    erewrite andThen_step by apply Hjoins.
    rewrite Blank_wrote, !wrote_wrote. do 2 f_equal.
    cbn [map]. rewrite concat_comma_cons.
    rewrite ?sapp_assoc. do 4 f_equal.
    now destruct (From_Tables f).
  - erewrite andThen_step by reflexivity.
    erewrite andThen_step
      by apply (for_each_separated false (fun t => visitTable t) table_text
                  visitTable_wrote).
    erewrite andThen_step by apply Hjoins.
    rewrite Blank_wrote, !wrote_wrote. do 2 f_equal.
    rewrite ?sapp_assoc. do 3 f_equal.
    now destruct (From_Tables f).
Qed.

(** X9 on a table, a nil entry, a table with an alias and a join. *)
Lemma X9_from_clause_of_tables_and_joins_witness :
  let js :=
    [mkColumnJoin "LEFT JOIN" (Some (mkTable "u" ""))
       [(mkColumn "a.id", mkOperator "=", mkColumn "u.id")]] in
  let f :=
    mkFrom (Some (mkTable "a" "")) [None; Some (mkTable "b" "x")]
      (map column_join js) in
  let sc := compile_start AnsiDialecter "" in
  From_Joins f = map column_join js
  /\ visitFrom visitExp (Some f) sc
     = Done (wrote sc (LF ++ "FROM a,,b AS x" ++ LF
                       ++ "LEFT JOIN u ON a.id = u.id  ")).
Proof.
  intros js f sc. split; [reflexivity|].
  exact (X9_from_clause_of_tables_and_joins f js sc eq_refl).
Defined.

Lemma visitField_column (ca : Column * string) sc :
  visitField visitExp (Some (mkField (EColumn (fst ca)) (snd ca))) sc
  = Done (wrote sc (field_text (sc_Dialecter sc) ca)).
Proof.
  unfold visitField, field_text. cbn [Field_Exp Field_Alias visitExp].
  unfold visitColumn.
  erewrite andThen_step by apply WriteString_wrote.
  destruct (String.eqb (snd ca) ""); cbn [negb when].
  - unfold skip. now rewrite sapp_nil_r.
  - erewrite andThen_step by apply Print_wrote.
    unfold writeQuote. rewrite WriteString_wrote, !wrote_wrote.
    reflexivity.
Qed.

Lemma visitSelect_columns (cas : list (Column * string)) sc :
  visitSelect visitExp (Some (mkSelect (column_fields cas))) sc
  = Done (wrote sc
            (match cas with
             | [] => ansi.WildcardAll
             | _ => String.concat ansi.Comma
                      (map (field_text (sc_Dialecter sc)) cas)
                    ++ ansi.Blank
             end)).
Proof.
  unfold visitSelect. cbn [Select_Fields].
  destruct cas as [|ca cas]; [reflexivity|].
  unfold column_fields. cbn [map].
  change (Some (mkField (EColumn (fst ca)) (snd ca))
          :: map (fun ca : Column * string =>
                    Some (mkField (EColumn (fst ca)) (snd ca))) cas)
    with (map (fun ca : Column * string =>
                 Some (mkField (EColumn (fst ca)) (snd ca))) (ca :: cas)).
  erewrite andThen_step.
  2:{ rewrite for_each_map.
      apply (for_each_separated_in false
               (fun ca : Column * string =>
                  visitField visitExp
                    (Some (mkField (EColumn (fst ca)) (snd ca))))
               field_text).
      intros x s. apply visitField_column. }
  rewrite Blank_wrote, wrote_wrote. reflexivity.
Qed.

Lemma visitOrderBy_columns (cds : list (Column * Direction)) sc :
  visitOrderBy visitExp (Some (mkOrderBy (column_orders cds))) sc
  = Done (wrote sc (clause_text ansi.OrderBy (map order_text cds))).
Proof.
  unfold visitOrderBy, clause_text. cbn [OrderBy_Fields].
  destruct cds as [|cd cds]; [unfold skip; now rewrite wrote_nil|].
  unfold column_orders. cbn [map].
  change (mkOrderByField (EColumn (fst cd)) (snd cd)
          :: map (fun cd : Column * Direction =>
                    mkOrderByField (EColumn (fst cd)) (snd cd)) cds)
    with (map (fun cd : Column * Direction =>
                 mkOrderByField (EColumn (fst cd)) (snd cd)) (cd :: cds)).
  change (order_text cd :: map order_text cds)
    with (map order_text (cd :: cds)).
  erewrite andThen_step by apply LineBreak_wrote.
  erewrite andThen_step by apply WriteString_wrote.
  erewrite andThen_step by apply Blank_wrote.
  erewrite andThen_step.
  2:{ rewrite for_each_map.
      apply (for_each_separated false
               (fun cd : Column * Direction =>
                  visitExp (EColumn (fst cd)) ;; Blank ;;
                  WriteString (Direction_String (snd cd)))%visit
               order_text).
      intros x s. cbn [visitExp]. unfold visitColumn, order_text.
      erewrite andThen_step by apply WriteString_wrote.
      erewrite andThen_step by apply Blank_wrote.
      now rewrite WriteString_wrote, !wrote_wrote. }
  rewrite Blank_wrote, !wrote_wrote. reflexivity.
Qed.

Lemma visitGroupBy_columns (cs : list Column) sc :
  visitGroupBy visitExp (Some (mkGroupBy (map EColumn cs))) sc
  = Done (wrote sc (clause_text ansi.GroupBy (map Column_String cs))).
Proof.
  unfold visitGroupBy, clause_text. cbn [GroupBy_Fields].
  destruct cs as [|c cs]; [unfold skip; now rewrite wrote_nil|].
  cbn [map].
  change (EColumn c :: map EColumn cs) with (map EColumn (c :: cs)).
  change (Column_String c :: map Column_String cs)
    with (map Column_String (c :: cs)).
  erewrite andThen_step by apply LineBreak_wrote.
  erewrite andThen_step by apply WriteString_wrote.
  erewrite andThen_step by apply Blank_wrote.
  erewrite andThen_step.
  2:{ rewrite for_each_map.
      apply (for_each_separated false
               (fun c : Column => visitExp (EColumn c)) Column_String).
      intros x s. reflexivity. }
  rewrite Blank_wrote, !wrote_wrote. reflexivity.
Qed.

(** X10: the select list.  A [Select] that is nil or has no field writes
    [*]; a list of columns writes them separated by commas and followed by
    a blank, a column with an alias as [column AS alias], the alias quoted
    as the dialect quotes it. *)
Theorem X10_select_list_of_columns :
  forall (cas : list (Column * string)) (sc : StatementCompiler),
    visitSelect visitExp None sc = Done (wrote sc ansi.WildcardAll)
    /\ visitSelect visitExp (Some (mkSelect (column_fields cas))) sc
       = Done (wrote sc
                 (match cas with
                  | [] => ansi.WildcardAll
                  | _ => String.concat ansi.Comma
                           (map (field_text (sc_Dialecter sc)) cas)
                         ++ ansi.Blank
                  end)).
Proof. intros cas sc. split; [reflexivity|apply visitSelect_columns]. Qed.

(** X11: the grouping and the ordering over columns.  Each clause is left
    out when it has no field; otherwise it is a line break, the keyword, a
    blank, the fields separated by commas and a blank, a field of the
    order being the column, a blank and [ASC] or [DESC]. *)
Theorem X11_group_and_order_over_columns :
  forall (cs : list Column) (cds : list (Column * Direction))
         (sc : StatementCompiler),
    visitGroupBy visitExp (Some (mkGroupBy (map EColumn cs))) sc
    = Done (wrote sc (clause_text ansi.GroupBy (map Column_String cs)))
    /\ visitOrderBy visitExp (Some (mkOrderBy (column_orders cds))) sc
       = Done (wrote sc (clause_text ansi.OrderBy (map order_text cds))).
Proof.
  intros cs cds sc.
  split; [apply visitGroupBy_columns|apply visitOrderBy_columns].
Qed.

Lemma andThen_step3 (a b c k : Visit) sc s :
  (a ;; b ;; c)%visit sc = Done s -> (a ;; b ;; c ;; k)%visit sc = k s.
Proof.
  unfold andThen. destruct (a sc) as [s1|]; [|discriminate].
  destruct (b s1) as [s2|]; [|discriminate]. now intros ->.
Qed.

(** X12: a query over columns compiles, under every dialect, to the
    header, the select list, the [From], the grouping, the ordering, the
    limit and a semicolon, and binds nothing. *)
Theorem X12_query_over_columns :
  forall (d : Dialecter) (source : string) (distinct : bool)
         (cas : list (Column * string)) (f : From Expression)
         (cs : list Column) (cds : list (Column * Direction))
         (offset count : Z),
    From_Joins f = [] ->
    let q := columns_query distinct cas f cs cds offset count in
    Compile (NewAnsiDriver d) source (EQuery q)
    = Ok (query_header q ++ select_text d cas ++ from_text f
          ++ clause_text ansi.GroupBy (map Column_String cs)
          ++ clause_text ansi.OrderBy (map order_text cds)
          ++ limit_clause q ++ ansi.StatementSplit) [].
Proof.
  intros d source distinct cas f cs cds offset count Hj q.
  rewrite Compile_statement by reflexivity.
  cbn [visitExp]. unfold visitQuery.
  erewrite andThen_step3 by apply query_header_wrote.
  erewrite andThen_step by apply visitSelect_columns.
  erewrite andThen_step by (apply visitFrom_tables, Hj).
  erewrite andThen_step by reflexivity.
  erewrite andThen_step by apply visitGroupBy_columns.
  erewrite andThen_step.
  2:{ cbn [Query_Having q columns_query].
      destruct (groupBy_present _); reflexivity. }
  erewrite andThen_step by apply visitOrderBy_columns.
  erewrite andThen_step by apply limit_clause_wrote.
  rewrite WriteString_wrote, !wrote_wrote.
  cbn [wrote sc_w sc_args compile_start sc_Dialecter].
  unfold sqlWriter.empty, select_text, from_text.
  cbn [String.append]. now rewrite ?sapp_assoc.
Qed.

(** X12 on [SELECT DISTINCT a AS 'x',b FROM t ORDER BY a DESC LIMIT 0,10]. *)
Lemma X12_query_over_columns_witness :
  let f := mkFrom (Some (mkTable "t" "")) [] [] in
  From_Joins f = []
  /\ Compile (NewAnsiDriver AnsiDialecter) ""
       (EQuery (columns_query true [(mkColumn "a", "x"); (mkColumn "b", "")]
                  f [] [(mkColumn "a", Desc)] 0 10))
     = Ok ("SELECT DISTINCT a AS 'x',b " ++ LF ++ "FROM t " ++ LF
           ++ "ORDER BY a DESC " ++ LF ++ "LIMIT 0,10;") [].
Proof.
  intros f. split; [reflexivity|].
  exact (X12_query_over_columns AnsiDialecter "" true
           [(mkColumn "a", "x"); (mkColumn "b", "")] f []
           [(mkColumn "a", Desc)] 0 10 eq_refl).
Defined.

(* ===================================================================== *)
(** * Conditions made of comparisons *)
(* ===================================================================== *)

(** One comparison or one operator, visited after [l0] has been bound. *)
Lemma where_item_bound (it : WhereItem) sc t l0 :
  flat_item it = true ->
  visitExp (where_expression it) (bound sc t l0)
  = Done (bound sc (t ++ item_text sc (length l0) it) (l0 ++ item_values it)).
Proof.
  destruct it as [c op v|op]; cbn [flat_item where_expression visitExp
                                     item_text item_values]; intros Hf.
  - unfold visitCondition.
    cbn [Condition_Left Condition_Right Condition_Op is_nil andb].
    apply negb_true_iff in Hf. rewrite Hf.
    cbn [visitExp]. unfold visitColumn.
    erewrite andThen_step by apply WriteString_bound.
    erewrite andThen_step by apply Print_wrote.
    rewrite wrote_bound.
    change (String.concat "" [" "; Operator_String op; " "])
      with (" " ++ Operator_String op ++ " ").
    destruct (is_GNil v) eqn:En.
    + destruct v; try discriminate. cbn [visitValue Value_Value].
      rewrite ?WriteString_wrote, ?wrote_bound, ?app_nil_r, ?sapp_assoc.
      reflexivity.
    + assert (Hv : v <> GNil) by (intros E; rewrite E in En; discriminate).
      assert (Hw : visitValue (Some (mkValue v)) = writeValue v)
        by (now destruct v).
      rewrite Hw, writeValue_after by exact Hv.
      now rewrite ?sapp_assoc.
  - now rewrite WriteString_bound, app_nil_r.
Qed.

Lemma where_expression_not_nil (it : WhereItem) :
  is_nil (where_expression it) = false.
Proof. now destruct it. Qed.

(** The loop of [visitConditions] over comparisons, operators and
    parentheses: one line for each, behind the tabs of its depth. *)
Lemma visitConditions_loop_flat (items : list WhereItem) :
  forallb flat_item items = true ->
  forall (i : nat) (deep : Z) sc t l0,
    visitConditions_loop visitExp i deep (map where_expression items)
      (bound sc t l0)
    = Done (bound sc
              (t ++ match items with
                    | [] => ""
                    | _ => (if (0 <? i)%nat then ansi.LineBreak else "")
                           ++ String.concat ansi.LineBreak
                                (where_texts sc (length l0) deep items)
                    end)
              (l0 ++ where_values items)).
Proof.
  induction items as [|it items IH]; intros Hf i deep sc t l0;
    cbn [map visitConditions_loop].
  - unfold skip. cbn [where_values flat_map].
    now rewrite sapp_nil_r, app_nil_r.
  - cbn [forallb] in Hf. apply andb_true_iff in Hf as [Hit Hrest].
    rewrite where_expression_not_nil. cbv zeta.
    fold (depth_at deep it). fold (depth_after deep it).
    erewrite andThen_step
      by apply (when_wrote (0 <? i)%nat ansi.LineBreak).
    erewrite andThen_step by apply when_wrote.
    fold (indent (depth_at deep it)).
    rewrite !wrote_bound.
    erewrite andThen_step by (apply where_item_bound, Hit).
    rewrite (IH Hrest). unfold where_values. cbn [flat_map where_texts].
    fold (where_values items). rewrite app_assoc, concat_sep_cons, length_app.
    do 2 f_equal. rewrite ?sapp_assoc. do 4 f_equal.
    now destruct items.
Qed.

(** X19: a [Where] over comparisons of a column with a literal, with
    operators and parentheses between them, writes a line break, [WHERE],
    a line break, one line for each comparison, operator and parenthesis,
    and a blank.  A comparison is the column, the operator between blanks,
    and [NULL] for a nil literal or the next placeholder otherwise; a line
    starts with one tab for every parenthesis that is open before it, a
    closing parenthesis standing one level up.  The values that are not
    nil are bound in the order of the comparisons.  Without any element
    the clause is left out. *)
Theorem X19_where_clause_of_comparisons :
  forall (items : list WhereItem) (sc : StatementCompiler),
    forallb flat_item items = true ->
    visitWhere visitExp
      (Some (mkWhere (Some (mkConditions (map where_expression items))))) sc
    = Done (bound sc (where_text sc items) (where_values items)).
Proof.
  intros items sc Hf. unfold visitWhere, where_text, Where_isEmpty.
  cbn [Where_Conditions Conditions_isEmpty Conditions_Conditions].
  destruct items as [|it items].
  { unfold skip. cbn [map where_values flat_map].
    now rewrite bound_nil, wrote_nil. }
  remember (it :: items) as l eqn:El.
  assert (Hne : match map where_expression l with [] => true | _ => false end
                = false) by now subst.
  rewrite Hne. unfold visitConditions.
  erewrite andThen_step by apply Print_wrote.
  erewrite andThen_step.
  2:{ rewrite <- bound_nil. apply (visitConditions_loop_flat l Hf). }
  rewrite Blank_wrote, wrote_bound. cbn [length app]. subst l.
  change (String.concat "" [LF; ansi.Where; LF]) with (LF ++ ansi.Where ++ LF).
  cbn [Nat.ltb Nat.leb]. now rewrite ?sapp_assoc.
Qed.

(** X19 on comparisons joined by [AND] and [OR], two of them between
    parentheses and one with a nil. *)
Lemma X19_where_clause_of_comparisons_witness :
  let items :=
    [Comparison (mkColumn "a") (mkOperator ">") (GInt 1);
     Connective (mkOperator "AND");
     Connective Op.OpenParentheses;
     Comparison (mkColumn "b") (mkOperator "IS") GNil;
     Connective (mkOperator "OR");
     Comparison (mkColumn "c") (mkOperator "=") (GString "x");
     Connective Op.CloseParentheses] in
  let sc := compile_start PostgreSQLDialecter "" in
  let tab := String (ascii_of_nat 9) "" in
  forallb flat_item items = true
  /\ visitWhere visitExp
       (Some (mkWhere (Some (mkConditions (map where_expression items))))) sc
     = Done (bound sc
               (LF ++ "WHERE" ++ LF ++ "a > $1" ++ LF ++ "AND" ++ LF ++ "("
                ++ LF ++ tab ++ "b IS NULL" ++ LF ++ tab ++ "OR" ++ LF
                ++ tab ++ "c = $2" ++ LF ++ ") ")
               [GInt 1; GString "x"]).
Proof.
  intros items sc tab. split; [reflexivity|].
  exact (X19_where_clause_of_comparisons items sc eq_refl).
Defined.

(* ===================================================================== *)
(** * The procedure call compiler: further properties *)
(* ===================================================================== *)

Lemma procedure_inout_spec (l : list Parameter_) :
  forall buffer paramters,
    procedure_inout l buffer paramters
    = (buffer ++ String.concat "" (map set_statement (List.filter is_InOut l)),
       (paramters ++ map Parameter_Value (List.filter is_InOut l))%list).
Proof.
  induction l as [|p l IH]; intros buffer paramters;
    cbn [procedure_inout List.filter map String.concat].
  - now rewrite sapp_nil_r, app_nil_r.
  - change (Dir_eqb (Parameter_Dir p) DirInOut) with (is_InOut p).
    destruct (is_InOut p).
    + rewrite IH. cbn [map]. rewrite concat_empty_cons.
      unfold sqlWriter.Print, set_statement. cbn [String.concat].
      rewrite <- app_assoc. cbn [app]. f_equal.
      now rewrite ?sapp_assoc.
    + apply IH.
Qed.

Lemma procedure_arguments_spec (l : list Parameter_) :
  forall i buffer paramters hasOut,
    procedure_arguments i l buffer paramters hasOut
    = (buffer ++ match l with
                 | [] => ""
                 | _ => (if (0 <? i)%nat then ", " else "")
                        ++ String.concat ", " (map argument_text l)
                 end,
       (paramters ++ map Parameter_Value (List.filter is_In l))%list,
       (hasOut || existsb IsOut l)%bool).
Proof.
  induction l as [|p l IH]; intros i buffer paramters hasOut;
    cbn [procedure_arguments List.filter map existsb].
  - now rewrite sapp_nil_r, app_nil_r, orb_false_r.
  - rewrite concat_sep_cons.
    assert (Hrest : forall b : string,
              b ++ match l with
                   | [] => ""
                   | _ => (if (0 <? S i)%nat then ", " else "")
                          ++ String.concat ", " (map argument_text l)
                   end
              = b ++ match map argument_text l with
                     | [] => ""
                     | _ => ", " ++ String.concat ", " (map argument_text l)
                     end).
    { intros b. now destruct l. }
    assert (Hin : is_In p = Dir_eqb (Parameter_Dir p) DirIn) by reflexivity.
    assert (Hout : IsOut p = (Dir_eqb (Parameter_Dir p) DirOut
                              || Dir_eqb (Parameter_Dir p) DirInOut)%bool)
      by reflexivity.
    assert (Harg : argument_text p
                   = match Parameter_Dir p with
                     | DirIn => "?"
                     | DirInOut | DirOut => "@" ++ Parameter_Name p
                     | DirReturn => ""
                     end) by reflexivity.
    rewrite Hin, Hout, Harg. clear Hin Hout Harg.
    unfold sqlWriter.WriteString, sqlWriter.Print.
    destruct (Parameter_Dir p); cbn [Dir_eqb orb]; rewrite IH, Hrest;
      cbn [map String.concat];
      rewrite <- ?app_assoc, ?orb_true_r, ?orb_false_r; cbn [app orb];
      destruct (0 <? i)%nat; now rewrite ?sapp_assoc, ?sapp_nil_r.
Qed.

Lemma procedure_outputs_spec (l : list Parameter_) :
  forall buffer delimit,
    procedure_outputs l buffer delimit
    = buffer ++ match List.filter is_selected l with
                | [] => ""
                | sel => (if delimit then ", " else "")
                         ++ String.concat ", " (map session_variable sel)
                end.
Proof.
  induction l as [|p l IH]; intros buffer delimit;
    cbn [procedure_outputs List.filter].
  - now rewrite sapp_nil_r.
  - change (IsOut p || Dir_eqb (Parameter_Dir p) DirReturn)%bool
      with (is_selected p).
    destruct (is_selected p); [|apply IH].
    rewrite IH. cbn [map]. rewrite concat_sep_cons.
    unfold sqlWriter.WriteString, sqlWriter.Print, session_variable.
    cbn [String.concat].
    destruct (List.filter is_selected l), delimit; cbn [map];
      now rewrite ?sapp_assoc, ?sapp_nil_r.
Qed.

Lemma compileProcedure_spec (c : AnsiDriver) (sp : Procedure)
    (source : string) :
  Procedure_Name sp <> "" ->
  compileProcedure c (Some sp) source
  = Ok (procedure_text sp) (procedure_values sp).
Proof.
  intros Hname. unfold compileProcedure, procedure_text, procedure_values.
  destruct (String.eqb_spec (Procedure_Name sp) ""); [contradiction|].
  rewrite procedure_inout_spec.
  unfold sqlWriter.empty, sqlWriter.WriteString, sqlWriter.String_.
  rewrite procedure_arguments_spec. cbn [orb app].
  f_equal.
  assert (Hargs : match Procedure_Parameters sp with
                  | [] => ""
                  | _ => (if (0 <? 0)%nat then ", " else "")
                         ++ String.concat ", "
                              (map argument_text (Procedure_Parameters sp))
                  end
                  = String.concat ", "
                      (map argument_text (Procedure_Parameters sp))).
  { now destruct (Procedure_Parameters sp). }
  rewrite Hargs.
  destruct (existsb IsOut (Procedure_Parameters sp)
            || negb (String.eqb (ReturnParameterName sp) ""))%bool.
  - rewrite procedure_outputs_spec.
    assert (Hsel : match List.filter is_selected (Procedure_Parameters sp) with
                   | [] => ""
                   | sel => (if false then ", " else "")
                            ++ String.concat ", " (map session_variable sel)
                   end
                   = String.concat ", "
                       (map session_variable
                          (List.filter is_selected (Procedure_Parameters sp)))).
    { now destruct (List.filter is_selected (Procedure_Parameters sp)). }
    rewrite Hsel.
    destruct (String.eqb (ReturnParameterName sp) "");
      cbn [String.append]; now rewrite ?sapp_assoc, ?sapp_nil_r.
  - destruct (String.eqb (ReturnParameterName sp) "");
      cbn [String.append]; now rewrite ?sapp_assoc, ?sapp_nil_r.
Qed.

(** X13: the arguments of a procedure call are the values of the InOut
    parameters, in the order of the parameters, followed by the values of
    the In parameters, in the order of the parameters: an InOut parameter
    declared after an In parameter is bound before it.  The values of Out
    and Return parameters are not bound. *)
Theorem X13_procedure_arguments :
  forall (c : AnsiDriver) (sp : Procedure) (source : string),
    Procedure_Name sp <> "" ->
    exists query : string,
      Compile c source (EProcedure sp)
      = Ok query
          (map Parameter_Value
             (List.filter is_InOut (Procedure_Parameters sp))
           ++ map Parameter_Value
                (List.filter is_In (Procedure_Parameters sp))).
Proof.
  intros c sp source Hname. exists (procedure_text sp).
  cbn [Compile]. now apply compileProcedure_spec.
Qed.

(** X13 on an In parameter declared before an InOut parameter. *)
Lemma X13_procedure_arguments_witness :
  let sp :=
    mkProcedure "f"
      [mkParameter "a" DirIn (GInt 1); mkParameter "b" DirInOut (GInt 2);
       mkParameter "c" DirOut (GInt 3)] in
  Procedure_Name sp <> ""
  /\ exists query : string,
       Compile (NewAnsiDriver PostgreSQLDialecter) "" (EProcedure sp)
       = Ok query [GInt 2; GInt 1].
Proof.
  intros sp.
  assert (H : Procedure_Name sp <> "") by discriminate.
  split; [exact H|].
  exact (X13_procedure_arguments (NewAnsiDriver PostgreSQLDialecter) sp "" H).
Defined.

(** X14: the text of a procedure call, for every procedure with a name:
    one [SET @name = ?; ] line for every InOut parameter; then [CALL ], or
    [SET @] and the name of the return parameter when there is one, then the name
    of the procedure at once; then, between [ ( ] and [ );], one text for
    every parameter, separated by [, ]: [?] for In, [@name] for InOut and
    Out, and nothing for Return, whose separator stays; then, when a
    parameter is Out or InOut or a return parameter has a name, a line
    break and [SELECT ] with the variables of the Out, InOut and Return
    parameters separated by [, ], and [; ]. *)
Theorem X14_procedure_text :
  forall (c : AnsiDriver) (sp : Procedure) (source : string),
    Procedure_Name sp <> "" ->
    exists args : list GoValue,
      Compile c source (EProcedure sp) = Ok (procedure_text sp) args.
Proof.
  intros c sp source Hname. exists (procedure_values sp).
  cbn [Compile]. now apply compileProcedure_spec.
Qed.

(** X14 on a procedure with a Return parameter between two others. *)
Lemma X14_procedure_text_witness :
  let sp :=
    mkProcedure "f"
      [mkParameter "a" DirInOut (GInt 1); mkParameter "r" DirReturn GNil;
       mkParameter "b" DirIn (GInt 2)] in
  Procedure_Name sp <> ""
  /\ procedure_text sp
     = "SET @a = ?; " ++ LF ++ "SET @rf ( @a, , ? );" ++ LF
       ++ "SELECT @a, @r; "
  /\ exists args : list GoValue,
       Compile (NewAnsiDriver AnsiDialecter) "" (EProcedure sp)
       = Ok (procedure_text sp) args.
Proof.
  intros sp.
  assert (H : Procedure_Name sp <> "") by discriminate.
  split; [exact H|]. split; [reflexivity|].
  exact (X14_procedure_text (NewAnsiDriver AnsiDialecter) sp "" H).
Defined.

(* ===================================================================== *)
(** * The template compiler: further properties *)
(* ===================================================================== *)

(** What the loop returns is a query or one of its two errors. *)
Lemma compileText_loop_result (n : nat) text ph mode :
  forall s r,
    compileText_loop n text ph mode s = Some r ->
    (exists query args, r = Ok query args)
    \/ r = Err ErrMalformedTemplate
    \/ exists name,
         FindParameter text name = None /\ r = Err (ErrUnknownParameter name).
Proof.
  induction n as [|n IH]; intros s r; cbn [compileText_loop]; [discriminate|].
  destruct (compileText_step text ph mode s) as [s'|[e|]] eqn:E.
  - apply IH.
  - intros [= <-]. right. unfold compileText_step in E.
    destruct (scan_state s =? 0).
    + destruct (IndexByte (scan_b s) "{" >=? 0); discriminate.
    + destruct (IndexByte (scan_b s) "}" >? 0).
      * destruct (FindParameter text _) as [p|] eqn:F.
        -- destruct mode as [|[[m|m|]|[m|m|]|]|]; discriminate.
        -- injection E as <-. right. eexists. split; [exact F|reflexivity].
      * injection E as <-. now left.
  - intros [= <-]. left. eauto.
Qed.

(** X15: the scanning loop of the template compiler ends: for every
    dialect, text and source the compilation of a [Text] returns a query
    with its arguments or one of three errors (the text is empty, a brace
    is not closed or encloses nothing, a name between braces is not a
    parameter of the text), and never panics. *)
Theorem X15_template_compilation_returns :
  forall (c : AnsiDriver) (t : Text) (source : string),
    (exists query args, Compile c source (EText t) = Ok query args)
    \/ (exists e, template_error t e /\ Compile c source (EText t) = Err e).
Proof.
  intros c t source. cbn [Compile]. unfold compileText.
  destruct (String.eqb (Text_Sql t) "").
  { right. exists ErrTextEmpty. split; [now left|reflexivity]. }
  destruct (Nat.eqb (size (Text_Parameters t)) 0).
  { left. eauto. }
  destruct (compileText_loop_returns t (ParameterPlaceHolder (Dialecter_ c))
              (mode_of (Dialecter_ c))
              (mkScan (Text_Sql t) "" 0 1 [])) as [r Hr].
  cbn [scan_b] in Hr. rewrite Hr.
  apply compileText_loop_result in Hr as [Hok|[He|[name [Hf He]]]].
  - now left.
  - right. exists ErrMalformedTemplate. split; [right; now left|exact He].
  - right. exists (ErrUnknownParameter name).
    split; [right; right; now exists name|exact He].
Qed.

(** One turn of the loop from two states that share what is read. *)
Lemma compileText_step_same text ph ph' mode mode' s s' :
  (mode = 0 \/ mode = 1 \/ mode = 2) ->
  (mode' = 0 \/ mode' = 1 \/ mode' = 2) ->
  same_scan s s' ->
  match compileText_step text ph mode s,
        compileText_step text ph' mode' s' with
  | inl n, inl n' => same_scan n n'
  | inr (Some e), inr (Some e') => e = e'
  | inr None, inr None => True
  | _, _ => False
  end.
Proof.
  intros Hm Hm' [Hb [Hs Hp]]. unfold compileText_step.
  rewrite <- Hb, <- Hs, <- Hp.
  destruct (scan_state s =? 0).
  - destruct (IndexByte (scan_b s) "{" >=? 0); [|exact I].
    repeat split; assumption.
  - destruct (IndexByte (scan_b s) "}" >? 0); [|reflexivity].
    destruct (FindParameter text _) as [p|]; [|reflexivity].
    destruct Hm as [->|[->| ->]], Hm' as [->|[->| ->]];
      repeat split; reflexivity.
Qed.

Lemma compileText_loop_same (n : nat) text ph ph' mode mode' :
  (mode = 0 \/ mode = 1 \/ mode = 2) ->
  (mode' = 0 \/ mode' = 1 \/ mode' = 2) ->
  forall s s',
    same_scan s s' ->
    match compileText_loop n text ph mode s,
          compileText_loop n text ph' mode' s' with
    | Some r, Some r' => same_binding r r'
    | None, None => True
    | _, _ => False
    end.
Proof.
  intros Hm Hm'. induction n as [|n IH]; intros s s' Hs;
    cbn [compileText_loop]; [exact I|].
  pose proof (compileText_step_same text ph ph' mode mode' s s' Hm Hm' Hs) as H.
  destruct (compileText_step text ph mode s) as [n1|[e|]],
           (compileText_step text ph' mode' s') as [n2|[e'|]];
    try contradiction.
  - now apply IH.
  - exact H.
  - cbn [same_binding]. apply Hs.
Qed.


(* ===================================================================== *)
(** * Properties that every visit inherits from the primitives *)
(* ===================================================================== *)

(** The visit methods are built from [skip], [panic], the writer, the
    quoting of a name and [writeValue], put in sequence: a property of
    visits that holds of these and is kept by the sequence holds of the
    visit of every tree. *)
Section Closed.
Variable P : Visit -> Prop.
Hypothesis closed_skip : P skip.
Hypothesis closed_panic : forall msg, P (panic msg).
Hypothesis closed_onWriter : forall f, P (onWriter f).
Hypothesis closed_writeQuote : forall s, P (writeQuote s).
Hypothesis closed_writeValue : forall v, P (writeValue v).
Hypothesis closed_seq : forall a b : Visit, P a -> P b -> P (a ;; b)%visit.

Lemma closed_when (b : bool) (v : Visit) : P v -> P (when b v).
Proof. destruct b; [auto|intros _; apply closed_skip]. Qed.

Lemma closed_for_each {A : Type} (body : nat -> A -> Visit) (l : list A) :
  (forall i x, In x l -> P (body i x)) ->
  forall i, P (for_each body i l).
Proof.
  induction l as [|x l IH]; intros H i; cbn [for_each].
  - apply closed_skip.
  - apply closed_seq; [apply H; now left|].
    apply IH. intros j y Hy. apply H. now right.
Qed.

Lemma closed_visitValue v : P (visitValue v).
Proof.
  destruct v as [v|]; cbn [visitValue]; [|apply closed_onWriter].
  destruct (Value_Value v);
    first [apply closed_onWriter | apply closed_writeValue].
Qed.

Lemma closed_visitTable t : P (visitTable t).
Proof.
  destruct t as [t|]; cbn [visitTable]; [|apply closed_skip].
  destruct (String.eqb (Table_Name t) ""), (String.eqb (Table_Alias t) "");
    cbn [andb negb];
    first [apply closed_skip | apply closed_onWriter].
Qed.

Lemma closed_slice_loop {A : Type} (emit : A -> Visit) (l : list A) :
  (forall x, P (emit x)) -> P (slice_loop emit l).
Proof.
  intros H. apply closed_for_each. intros i x _.
  apply closed_seq; [apply closed_when, closed_onWriter|apply H].
Qed.

Lemma closed_visitSlice v : P (visitSlice v).
Proof.
  destruct v; cbn [visitSlice reflect_Indirect reflect_elements];
    try (apply closed_slice_loop; intros x;
         first [apply closed_onWriter | apply closed_writeValue]);
    try apply closed_writeValue.
  destruct target as [x|]; [|apply closed_writeValue].
  destruct x; cbn [reflect_elements];
    first [ apply closed_slice_loop; intros y; apply closed_writeValue
          | apply closed_writeValue ].
Qed.

(** One step of the proof that a visit built from visits in [P] is in
    [P]. *)
Ltac closed_step :=
  match goal with
  | H : ?P |- ?P => exact H
  | |- P skip => apply closed_skip
  | |- P (onWriter _) => apply closed_onWriter
  | |- P (WriteString _) => apply closed_onWriter
  | |- P (Print _) => apply closed_onWriter
  | |- P (PrintSplit _ _) => apply closed_onWriter
  | |- P Comma => apply closed_onWriter
  | |- P Blank => apply closed_onWriter
  | |- P LineBreak => apply closed_onWriter
  | |- P OpenParens => apply closed_onWriter
  | |- P CloseParens => apply closed_onWriter
  | |- P (visitColumn _) => apply closed_onWriter
  | |- P (writeQuote _) => apply closed_writeQuote
  | |- P (writeValue _) => apply closed_writeValue
  | |- P (visitValue _) => apply closed_visitValue
  | |- P (visitTable _) => apply closed_visitTable
  | |- P (visitSlice _) => apply closed_visitSlice
  | |- P (andThen _ _) => apply closed_seq
  | |- P (when _ _) => apply closed_when
  | |- P (if ?b then _ else _) => destruct b
  end.

Section ClosedNodes.
Variable visit : Expression -> Visit.

Let P_at (c : Expression) : Prop := P (visit c).

Lemma closed_visitCondition c :
  Forall P_at (option_foldr (Condition_foldr cons) c []) ->
  P (visitCondition visit c).
Proof.
  destruct c as [c|]; cbn [option_foldr visitCondition];
    [|intros _; apply closed_skip].
  unfold Condition_foldr. intros H.
  inversion H as [|? ? Hl H']; subst. inversion H' as [|? ? Hr _]; subst.
  cbv zeta. unfold visitIn.
  repeat closed_step.
  destruct (Condition_Right c); repeat closed_step.
  destruct (Value_Value v); repeat closed_step.
Qed.

Lemma closed_visitAggregate a :
  Forall P_at (option_foldr (Aggregate_foldr cons) a []) ->
  P (visitAggregate visit a).
Proof.
  destruct a as [a|]; cbn [option_foldr visitAggregate];
    [|intros _; apply closed_skip].
  unfold Aggregate_foldr. intros H. inversion H; subst.
  repeat closed_step.
Qed.

Lemma closed_visitConditions_loop l :
  Forall P_at l ->
  forall i deep, P (visitConditions_loop visit i deep l).
Proof.
  induction 1 as [|item l Hitem Hl IH]; intros i deep;
    cbn [visitConditions_loop]; [apply closed_skip|].
  destruct (is_nil item); [apply IH|].
  repeat closed_step. apply IH.
Qed.

Lemma closed_visitConditions c :
  Forall P_at (option_foldr (Conditions_foldr cons) c []) ->
  P (visitConditions visit c).
Proof.
  destruct c as [c|]; cbn [option_foldr visitConditions];
    [|intros _; apply closed_skip].
  unfold Conditions_foldr. rewrite fold_right_cons_nil. intros H.
  apply closed_seq; [|closed_step].
  now apply closed_visitConditions_loop.
Qed.

Lemma closed_visitJoin j :
  Forall P_at (option_foldr (Join_foldr cons) j []) ->
  P (visitJoin visit j).
Proof.
  destruct j as [j|]; cbn [option_foldr visitJoin];
    [|intros _; apply closed_skip].
  unfold Join_foldr. intros H. repeat closed_step.
  destruct (Join_Conditions j) as [cs|]; [|apply closed_skip].
  cbn [option_foldr] in H. unfold Conditions_foldr in H.
  rewrite fold_right_cons_nil in H. rewrite List.Forall_forall in H.
  repeat closed_step.
  apply closed_for_each. intros i x Hx. repeat closed_step. now apply H.
Qed.

Lemma closed_visitFrom f :
  Forall P_at (option_foldr (From_foldr cons) f []) ->
  P (visitFrom visit f).
Proof.
  destruct f as [f|]; cbn [option_foldr visitFrom];
    [|intros _; apply closed_skip].
  unfold From_foldr. intros H. repeat closed_step.
  - destruct (From_Table f); repeat closed_step.
  - apply closed_for_each. intros i x _. repeat closed_step.
  - apply closed_for_each. intros i x Hx. repeat closed_step.
    apply closed_visitJoin.
    exact (Forall_kids_list _ _ _ Join_kids_acc H x Hx).
Qed.

Lemma closed_visitWhere w :
  Forall P_at (option_foldr (Where_foldr cons) w []) ->
  P (visitWhere visit w).
Proof.
  destruct w as [w|]; cbn [option_foldr visitWhere];
    [|intros _; apply closed_skip].
  unfold Where_foldr. intros H. repeat closed_step.
  now apply closed_visitConditions.
Qed.

Lemma closed_visitHaving h :
  Forall P_at (option_foldr (Having_foldr cons) h []) ->
  P (visitHaving visit h).
Proof.
  destruct h as [h|]; cbn [option_foldr visitHaving];
    [|intros _; apply closed_skip].
  unfold Having_foldr. intros H. repeat closed_step.
  now apply closed_visitConditions.
Qed.

Lemma closed_visitField f :
  Forall P_at (option_foldr (Field_foldr cons) f []) ->
  P (visitField visit f).
Proof.
  destruct f as [f|]; cbn [option_foldr visitField];
    [|intros _; apply closed_skip].
  unfold Field_foldr. intros H. inversion H; subst. repeat closed_step.
Qed.

Lemma closed_visitSelect s :
  Forall P_at (option_foldr (Select_foldr cons) s []) ->
  P (visitSelect visit s).
Proof.
  destruct s as [s|]; cbn [option_foldr visitSelect];
    [|intros _; closed_step].
  unfold Select_foldr. intros H.
  destruct (Select_Fields s) as [|f0 fields] eqn:E; [closed_step|].
  rewrite <- E. rewrite <- E in H. clear E.
  apply closed_seq; [|closed_step].
  apply closed_for_each. intros i x Hx. repeat closed_step.
  apply closed_visitField.
  exact (Forall_kids_list _ _ _ Field_kids_acc H x Hx).
Qed.

Lemma closed_visitGroupBy g :
  Forall P_at (option_foldr (GroupBy_foldr cons) g []) ->
  P (visitGroupBy visit g).
Proof.
  destruct g as [g|]; cbn [option_foldr visitGroupBy];
    [|intros _; apply closed_skip].
  unfold GroupBy_foldr. rewrite fold_right_cons_nil. intros H.
  destruct (GroupBy_Fields g) as [|f0 fields] eqn:E; [apply closed_skip|].
  rewrite <- E. rewrite <- E in H. clear E.
  rewrite List.Forall_forall in H.
  repeat closed_step.
  apply closed_for_each. intros i x Hx. repeat closed_step. now apply H.
Qed.

Lemma closed_visitOrderBy o :
  Forall P_at (option_foldr (OrderBy_foldr cons) o []) ->
  P (visitOrderBy visit o).
Proof.
  destruct o as [o|]; cbn [option_foldr visitOrderBy];
    [|intros _; apply closed_skip].
  unfold OrderBy_foldr. intros H.
  destruct (OrderBy_Fields o) as [|f0 fields] eqn:E; [apply closed_skip|].
  rewrite <- E. rewrite <- E in H. clear E.
  repeat closed_step.
  apply closed_for_each. intros i x Hx.
  assert (Hx' := Forall_kids_list
                   (fun item => cons (OrderByField_Exp item)) _ _
                   (fun _ _ => eq_refl) H x Hx).
  inversion Hx'; subst. repeat closed_step.
Qed.

Lemma closed_Sets_values (body : nat -> SetItem Expression -> Visit) sets :
  (forall i set, P_at (Set_Value set) -> P (body i set)) ->
  Forall P_at (Sets_foldr cons sets []) ->
  P (for_each body 0 sets).
Proof.
  intros Hbody H. apply closed_for_each. intros i x Hx. apply Hbody.
  assert (Hx' := Forall_kids_list
                   (fun set => cons (Set_Value set)) _ _
                   (fun _ _ => eq_refl) H x Hx).
  now inversion Hx'.
Qed.

Lemma closed_visitQuery q :
  Forall P_at (Query_foldr cons q []) -> P (visitQuery visit q).
Proof.
  unfold Query_foldr, visitQuery. intros H.
  rewrite Select_kids_acc, From_kids_acc, Where_kids_acc, GroupBy_kids_acc,
    Having_kids_acc in H.
  repeat (apply Forall_app in H; destruct H as [? H]).
  repeat first
    [ closed_step
    | now apply closed_visitSelect | now apply closed_visitFrom
    | now apply closed_visitWhere | now apply closed_visitGroupBy
    | now apply closed_visitHaving | now apply closed_visitOrderBy ].
Qed.

Lemma closed_visitInsert i :
  Forall P_at (Insert_foldr cons i []) -> P (visitInsert visit i).
Proof.
  unfold Insert_foldr, visitInsert. intros H.
  repeat first
    [ closed_step
    | apply closed_Sets_values; [intros|assumption]
    | apply closed_for_each; intros ].
Qed.

Lemma closed_visitUpdate u :
  Forall P_at (Update_foldr cons u []) -> P (visitUpdate visit u).
Proof.
  unfold Update_foldr, visitUpdate. intros H.
  rewrite Sets_kids_acc, Where_kids_acc in H.
  repeat (apply Forall_app in H; destruct H as [? H]).
  repeat first
    [ closed_step
    | now apply closed_visitWhere | now apply closed_visitOrderBy
    | apply closed_Sets_values; [intros|assumption] ].
Qed.

Lemma closed_visitDelete d :
  Forall P_at (Delete_foldr cons d []) -> P (visitDelete visit d).
Proof.
  unfold Delete_foldr, visitDelete. intros H.
  rewrite Where_kids_acc in H.
  repeat (apply Forall_app in H; destruct H as [? H]).
  repeat first
    [ closed_step
    | now apply closed_visitWhere | now apply closed_visitOrderBy ].
Qed.
End ClosedNodes.

Lemma closed_visitExp exp : P (visitExp exp).
Proof.
  induction exp as [exp IH] using Expression_children_ind.
  rename IH into H. unfold children in H.
  destruct exp; cbn [visitExp foldr_children] in *; unfold unsupported;
    first [ apply closed_skip | apply closed_panic | apply closed_onWriter
          | apply closed_visitTable | apply closed_visitValue
          | now apply closed_visitQuery | now apply closed_visitInsert
          | now apply closed_visitUpdate | now apply closed_visitDelete
          | now apply closed_visitCondition | now apply closed_visitAggregate
          | now apply closed_visitSelect | now apply closed_visitFrom
          | now apply closed_visitJoin | now apply closed_visitWhere
          | now apply closed_visitGroupBy | now apply closed_visitHaving
          | now apply closed_visitOrderBy ].
Qed.
End Closed.

(* ===================================================================== *)
(** * What does not depend on the dialect *)
(* ===================================================================== *)

Lemma same_binding_refl (r : Result) : same_binding r r.
Proof. now destruct r. Qed.

Lemma compileText_same_binding (d d' : Dialecter) (t : Text)
    (source source' : string) :
  same_binding (compileText (NewAnsiDriver d) (Some t) source)
               (compileText (NewAnsiDriver d') (Some t) source').
Proof.
  unfold compileText.
  destruct (String.eqb (Text_Sql t) ""); [reflexivity|].
  destruct (Nat.eqb (size (Text_Parameters t)) 0); [reflexivity|].
  cbn [NewAnsiDriver Dialecter_].
  pose proof (compileText_loop_same (S (String.length (Text_Sql t))) t
                (ParameterPlaceHolder d) (ParameterPlaceHolder d')
                (mode_of d) (mode_of d') (mode_of_cases d) (mode_of_cases d')
                (mkScan (Text_Sql t) "" 0 1 []) (mkScan (Text_Sql t) "" 0 1 [])
                (conj eq_refl (conj eq_refl eq_refl))) as H.
  destruct (compileText_loop _ t (ParameterPlaceHolder d) _ _),
           (compileText_loop _ t (ParameterPlaceHolder d') _ _);
    try contradiction; [exact H|reflexivity].
Qed.

(** Every visit binds the same values, or panics alike, from two
    compilers that hold the same arguments. *)
Lemma same_args_visitExp (exp : Expression) : same_args (visitExp exp).
Proof.
  apply closed_visitExp; unfold same_args.
  - intros a b H. exact H.
  - intros msg a b _. reflexivity.
  - intros f a b H. exact H.
  - intros s a b H. exact H.
  - intros v a b H. destruct v; cbn [writeValue]; try exact H;
      cbv zeta;
      destruct (mode_of (sc_Dialecter a)) as [|[[m|m|]|[m|m|]|]|],
               (mode_of (sc_Dialecter b)) as [|[[m'|m'|]|[m'|m'|]|]|];
      cbn [sc_args]; now rewrite H.
  - intros v w Hv Hw a b H. unfold andThen.
    specialize (Hv a b H).
    destruct (v a) as [a'|m], (v b) as [b'|m']; try contradiction.
    + now apply Hw.
    + exact Hv.
Qed.

(** X16: the dialect and the source decide the text of a query and
    nothing else.  Under two dialects and with two sources, the
    compilation of an expression returns two queries with the same
    arguments, or the same error, or panics with the same message. *)
Theorem X16_arguments_ignore_the_dialect :
  forall (d d' : Dialecter) (source source' : string) (exp : Expression),
    same_binding (Compile (NewAnsiDriver d) source exp)
                 (Compile (NewAnsiDriver d') source' exp).
Proof.
  intros d d' source source' exp.
  pose proof (same_args_visitExp exp (compile_start d source)
                (compile_start d' source') eq_refl) as H.
  destruct exp; try apply same_binding_refl;
    try apply compileText_same_binding;
    rewrite !Compile_statement by reflexivity;
    destruct (visitExp _ (compile_start d source)) as [a|m],
             (visitExp _ (compile_start d' source')) as [b|m'];
    try contradiction; exact H.
Qed.

(* ===================================================================== *)
(** * The registries *)
(* ===================================================================== *)

(** X17: a registration is read back under its name and changes nothing
    else.  After a compiler is registered, [GetCompiler] returns it for
    that name, whatever was registered under the name before, and returns
    for every other name what it returned before; the dialecters and the
    schemaers are as they were.  The same holds of a dialecter. *)
Theorem X17_registration_round_trip :
  forall (Schemaer : Type) (driver : string) (c : AnsiDriver)
         (d : Dialecter) (r : Registries Schemaer),
    (exists r',
        RegisterCompiler driver (Some c) r = Registered r'
        /\ GetCompiler driver r' = Found c
        /\ (forall other, other <> driver ->
                          GetCompiler other r' = GetCompiler other r)
        /\ (forall name, GetDialecter name r' = GetDialecter name r)
        /\ (forall name, GetSchemaer name r' = GetSchemaer name r))
    /\ (exists r',
           RegisterDialecter driver (Some d) r = Registered r'
           /\ GetDialecter driver r' = Found d
           /\ (forall other, other <> driver ->
                             GetDialecter other r' = GetDialecter other r)
           /\ (forall name, GetCompiler name r' = GetCompiler name r)
           /\ (forall name, GetSchemaer name r' = GetSchemaer name r)).
Proof.
  intros Schemaer driver c d r. split.
  - eexists. split; [reflexivity|]. split; [|split; [|split]].
    + unfold GetCompiler. cbn [_compilers]. now rewrite lookup_insert_eq.
    + intros other Hne. unfold GetCompiler. cbn [_compilers].
      now rewrite lookup_insert_ne by congruence.
    + reflexivity.
    + reflexivity.
  - eexists. split; [reflexivity|]. split; [|split; [|split]].
    + unfold GetDialecter. cbn [_dialecters]. now rewrite lookup_insert_eq.
    + intros other Hne. unfold GetDialecter. cbn [_dialecters].
      now rewrite lookup_insert_ne by congruence.
    + reflexivity.
    + reflexivity.
Qed.

